(** * ST-Grouping: group record store, anchor resolution, signature-gated
    reconciliation and world-info groups

    A shallow embedding of
    - [lib/prompt-entry-grouping.js]   (the group record store),
    - [lib/prompt-entry-grouping-ui.js] (signature, anchor resolution, the
      reconciliation pass [applyGroupingToList], its scheduling, the triple
      click and the grouping menu),
    - [lib/worldinfo-grouping.js]      (groups, their order and the
      membership of entries),
    - [lib/toggle-button.js]           (the switch of a whole group),
    followed by the properties established about them. *)

From Stdlib Require Import ZArith Lia.
From stdpp Require Import base strings list gmap pretty.

Set Warnings "-register-all,-clear-no-such-hyp".

(** ** JavaScript values *)

Module Js.

(** A JavaScript number.  [NInt z] is an integral value, [NNaN] is [NaN] and
    [NFrac repr] stands for any other number (a fraction or an infinity),
    carried by its decimal rendering: such a number is truthy and never
    addresses an element of an array.  The integers that a number holds
    exactly, one by one, are those up to [Number.MAX_SAFE_INTEGER] in
    absolute value ([safeNumber] below). *)
Inductive number :=
| NInt (z : Z)
| NNaN
| NFrac (repr : string).

Inductive JsValue :=
| JUndefined
| JNull
| JBool (b : bool)
| JNum (n : number)
| JStr (s : string)
| JArr (elems : list JsValue)
| JObj (props : list (string * JsValue)).

(** The results of [typeof] that the sources test for. *)
Inductive JsType := TUndefined | TObject | TBoolean | TNumber | TString.

Definition typeof (v : JsValue) : JsType :=
  match v with
  | JUndefined => TUndefined
  | JNull | JArr _ | JObj _ => TObject
  | JBool _ => TBoolean
  | JNum _ => TNumber
  | JStr _ => TString
  end.

Definition isString (v : JsValue) : bool :=
  match v with JStr _ => true | _ => false end.

Definition isNumber (v : JsValue) : bool :=
  match v with JNum _ => true | _ => false end.

Definition isArray (v : JsValue) : bool :=
  match v with JArr _ => true | _ => false end.

Definition nonEmpty (s : string) : bool :=
  match s with EmptyString => false | String _ _ => true end.

(** [!!v] *)
Definition truthy (v : JsValue) : bool :=
  match v with
  | JUndefined | JNull => false
  | JBool b => b
  | JNum (NInt z) => negb (z =? 0)%Z
  | JNum NNaN => false
  | JNum (NFrac _) => true
  | JStr s => nonEmpty s
  | JArr _ | JObj _ => true
  end.

(** [a || b] *)
Definition or (a b : JsValue) : JsValue := if truthy a then a else b.

(** [a ?? b] *)
Definition coalesce (a b : JsValue) : JsValue :=
  match a with JUndefined | JNull => b | _ => a end.

Fixpoint lookupProp (k : string) (props : list (string * JsValue)) : JsValue :=
  match props with
  | [] => JUndefined
  | (k', v) :: rest => if String.eqb k k' then v else lookupProp k rest
  end.

(** [v?.k]: an own property of an object, [undefined] on anything else. *)
Definition get (v : JsValue) (k : string) : JsValue :=
  match v with
  | JObj props => lookupProp k props
  | _ => JUndefined
  end.

(** [o.k = v] on the property list of an object: an existing property keeps
    its place, a new one goes last. *)
Fixpoint assignProp (k : string) (v : JsValue) (props : list (string * JsValue))
  : list (string * JsValue) :=
  match props with
  | [] => [(k, v)]
  | (k', v') :: rest =>
      if String.eqb k k' then (k', v) :: rest else (k', v') :: assignProp k v rest
  end.

(** [arr[n]] for the arrays of the sources: an element when [n] is an integer
    within bounds, [undefined] otherwise. *)
Definition index (elems : list JsValue) (n : number) : JsValue :=
  match n with
  | NInt z => if (z <? 0)%Z then JUndefined
              else default JUndefined (elems !! Z.to_nat z)
  | _ => JUndefined
  end.

(** [String(n)], for the numbers that [safeNumber] admits: a safe integer
    is printed digit by digit. *)
Definition numberToString (n : number) : string :=
  match n with
  | NInt z => pretty z
  | NNaN => "NaN"
  | NFrac repr => repr
  end.

(** The numbers on which [numberToString] is [String]: [NaN], the numbers
    held by their rendering, and the integers up to [2^53 - 1] in absolute
    value.  (A larger integer is rounded to the nearest double, and printed
    with an exponent from [1e21] on.) *)
Definition safeNumber (n : number) : bool :=
  match n with
  | NInt z => (Z.abs z <=? 9007199254740991)%Z
  | NNaN | NFrac _ => true
  end.

(** The property names that every plain object inherits from
    [Object.prototype].  For such a name [obj[name]] is a built-in function
    (the prototype itself for [__proto__]), hence truthy, also when [name]
    is no key of [obj]. *)
Definition objectPrototypeNames : list string :=
  ["constructor"; "hasOwnProperty"; "isPrototypeOf"; "propertyIsEnumerable";
   "toLocaleString"; "toString"; "valueOf"; "__proto__";
   "__defineGetter__"; "__defineSetter__"; "__lookupGetter__"; "__lookupSetter__"].

Definition inherited (key : string) : bool :=
  bool_decide (key ∈ objectPrototypeNames).

Fixpoint joinWith (sep : string) (parts : list string) : string :=
  match parts with
  | [] => ""
  | [p] => p
  | p :: rest => p +:+ sep +:+ joinWith sep rest
  end.

(** [String(v)]; inside [Array.prototype.join], [null] and [undefined]
    render as the empty string. *)
Fixpoint toString (v : JsValue) : string :=
  match v with
  | JUndefined => "undefined"
  | JNull => "null"
  | JBool true => "true"
  | JBool false => "false"
  | JNum n => numberToString n
  | JStr s => s
  | JArr elems =>
      joinWith ","
        (map (fun e => match e with
                       | JUndefined | JNull => ""
                       | _ => toString e
                       end) elems)
  | JObj _ => "[object Object]"
  end.

Definition joinElem (v : JsValue) : string :=
  match v with
  | JUndefined | JNull => ""
  | _ => toString v
  end.

(** [arr.join(sep)] *)
Definition join (sep : string) (elems : list JsValue) : string :=
  joinWith sep (map joinElem elems).

(** [arr.indexOf(x)] on an array of strings: the first position, or [-1]. *)
Fixpoint indexOf (x : string) (l : list string) : Z :=
  match l with
  | [] => (-1)%Z
  | y :: rest =>
      if String.eqb x y then 0%Z
      else let r := indexOf x rest in
           if (r =? -1)%Z then (-1)%Z else (r + 1)%Z
  end.

(** [arr.slice(from, to)] for [0 <= from]. *)
Definition slice {A} (l : list A) (from to : Z) : list A :=
  take (Z.to_nat to - Z.to_nat from) (drop (Z.to_nat from) l).

End Js.

Import Js.

(** ** The group record store ([lib/prompt-entry-grouping.js]) *)

Module PromptEntryGrouping.

Definition DEFAULT_GROUP_NAME : string := "分组".
Definition DEFAULT_MODE : string := "inclusive".

(** [createGroupId()] draws a random identifier.  Every function that may
    call it takes the identifier that the call would return ([newId]), or a
    supply [ids] numbered by the position of the entry being normalized. *)

Definition asArray (value : JsValue) : list JsValue :=
  if negb (truthy value) then []
  else match value with
       | JArr elems => elems
       | _ => [value]
       end.

Definition isPlainObject (value : JsValue) : bool :=
  truthy value && match typeof value with TObject => true | _ => false end
  && negb (isArray value).

Definition readGroupName (entry : JsValue) : JsValue :=
  or (get entry "name") (or (get entry "groupName") (JStr DEFAULT_GROUP_NAME)).

Definition isLegacyIndexGrouping (entry : JsValue) : bool :=
  isNumber (get entry "startIndex") && isNumber (get entry "endIndex").

Definition isIdentifierAnchorGrouping (entry : JsValue) : bool :=
  isString (get entry "startIdentifier") || isString (get entry "endIdentifier").

(** [Array.isArray(orderedIdentifiers) ? orderedIdentifiers[i] : null] *)
Definition identifierAt (orderedIdentifiers : JsValue) (i : JsValue) : JsValue :=
  match orderedIdentifiers with
  | JArr elems =>
      match i with
      | JNum n => index elems n
      | _ => JUndefined
      end
  | _ => JNull
  end.

(** [typeof entry.id === 'string' ? entry.id : createGroupId()] *)
Definition idOf (entry : JsValue) (newId : string) : JsValue :=
  if isString (get entry "id") then get entry "id" else JStr newId.

Definition normalizeForRead (entry orderedIdentifiers : JsValue) (newId : string)
  : option JsValue :=
  if negb (isPlainObject entry) then None
  else if isLegacyIndexGrouping entry then
    let startIdentifier := identifierAt orderedIdentifiers (get entry "startIndex") in
    let endIdentifier := identifierAt orderedIdentifiers (get entry "endIndex") in
    if isString startIdentifier && isString endIdentifier then
      Some (JObj [("id", idOf entry newId);
                  ("name", readGroupName entry);
                  ("startIdentifier", startIdentifier);
                  ("endIdentifier", endIdentifier);
                  ("mode", or (get entry "mode") (JStr DEFAULT_MODE))])
    else
      Some (JObj [("id", idOf entry newId);
                  ("name", readGroupName entry);
                  ("mode", or (get entry "mode") (JStr DEFAULT_MODE));
                  ("unresolved", JBool true);
                  ("legacyStartIndex", get entry "startIndex");
                  ("legacyEndIndex", get entry "endIndex")])
  else if isIdentifierAnchorGrouping entry then
    let startIdentifier :=
      if isString (get entry "startIdentifier") then get entry "startIdentifier" else JNull in
    let endIdentifier :=
      if isString (get entry "endIdentifier") then get entry "endIdentifier" else JNull in
    if truthy startIdentifier && truthy endIdentifier then
      Some (JObj [("id", idOf entry newId);
                  ("name", readGroupName entry);
                  ("startIdentifier", startIdentifier);
                  ("endIdentifier", endIdentifier);
                  ("mode", or (get entry "mode") (JStr DEFAULT_MODE))])
    else
      Some (JObj [("id", idOf entry newId);
                  ("name", readGroupName entry);
                  ("mode", or (get entry "mode") (JStr DEFAULT_MODE));
                  ("unresolved", JBool true);
                  ("legacyStartIndex", get entry "legacyStartIndex");
                  ("legacyEndIndex", get entry "legacyEndIndex")])
  else None.

(** [if (cond) normalized.k = v] on the property list under construction. *)
Definition assignIf (cond : bool) (k : string) (v : JsValue)
    (props : list (string * JsValue)) : list (string * JsValue) :=
  if cond then assignProp k v props else props.

Definition normalizeForWrite (entry orderedIdentifiers : JsValue) (newId : string)
  : option JsValue :=
  if negb (isPlainObject entry) then None
  else if isIdentifierAnchorGrouping entry then
    let normalized0 := [("id", idOf entry newId);
                        ("name", readGroupName entry);
                        ("mode", or (get entry "mode") (JStr DEFAULT_MODE))] in
    let normalized1 :=
      assignIf (isString (get entry "startIdentifier"))
        "startIdentifier" (get entry "startIdentifier") normalized0 in
    let normalized2 :=
      assignIf (isString (get entry "endIdentifier"))
        "endIdentifier" (get entry "endIdentifier") normalized1 in
    let normalized3 :=
      assignIf (truthy (get entry "unresolved")) "unresolved" (JBool true) normalized2 in
    let normalized4 :=
      assignIf (isNumber (get entry "legacyStartIndex"))
        "legacyStartIndex" (get entry "legacyStartIndex") normalized3 in
    let normalized5 :=
      assignIf (isNumber (get entry "legacyEndIndex"))
        "legacyEndIndex" (get entry "legacyEndIndex") normalized4 in
    Some (JObj normalized5)
  else if isLegacyIndexGrouping entry then
    let startIdentifier := identifierAt orderedIdentifiers (get entry "startIndex") in
    let endIdentifier := identifierAt orderedIdentifiers (get entry "endIndex") in
    if isString startIdentifier && isString endIdentifier then
      Some (JObj [("id", idOf entry newId);
                  ("name", readGroupName entry);
                  ("startIdentifier", startIdentifier);
                  ("endIdentifier", endIdentifier);
                  ("mode", or (get entry "mode") (JStr DEFAULT_MODE))])
    else
      Some (JObj [("id", idOf entry newId);
                  ("name", readGroupName entry);
                  ("mode", or (get entry "mode") (JStr DEFAULT_MODE));
                  ("unresolved", JBool true);
                  ("legacyStartIndex", get entry "startIndex");
                  ("legacyEndIndex", get entry "endIndex")])
  else None.

(** [arr.map((entry) => f(entry, orderedIdentifiers)).filter(Boolean)] *)
Definition mapNormalize (f : JsValue -> JsValue -> string -> option JsValue)
    (entries : list JsValue) (orderedIdentifiers : JsValue) (ids : nat -> string)
  : list JsValue :=
  omap (fun r : option JsValue => r)
       (imap (fun i entry => f entry orderedIdentifiers (ids i)) entries).

Definition getWritableGroupings (rawGroupings orderedIdentifiers : JsValue)
    (ids : nat -> string) : list JsValue :=
  mapNormalize normalizeForWrite (asArray rawGroupings) orderedIdentifiers ids.

(** The host's preset manager, as [getCurrentApiInfo().presetManager] exposes
    it to this module.  A preset is a plain object, held by its property
    list; [getCompletionPresetByName] hands out the stored object itself, so
    an assignment to it is an update of [presets]. *)
Record PresetManager := {
  presets : gmap string (list (string * JsValue));
  selectedPresetName : option string;      (* getSelectedPresetName?.() *)
  settings : JsValue;                      (* getPresetList?.()?.settings *)
  savedPresets : list (string * list (string * JsValue));
                                           (* the calls of savePreset, latest first *)
  savePresetFails : bool                   (* savePreset rejects *)
}.

(** [getCurrentApiInfo()]: [None] when the context is unavailable. *)
Definition ApiInfo := option PresetManager.

Definition withPresets (pm : PresetManager)
    (ps : gmap string (list (string * JsValue))) : PresetManager :=
  {| presets := ps;
     selectedPresetName := selectedPresetName pm;
     settings := settings pm;
     savedPresets := savedPresets pm;
     savePresetFails := savePresetFails pm |}.

Definition withSettings (pm : PresetManager) (st : JsValue) : PresetManager :=
  {| presets := presets pm;
     selectedPresetName := selectedPresetName pm;
     settings := st;
     savedPresets := savedPresets pm;
     savePresetFails := savePresetFails pm |}.

Definition withSaved (pm : PresetManager)
    (log : list (string * list (string * JsValue))) : PresetManager :=
  {| presets := presets pm;
     selectedPresetName := selectedPresetName pm;
     settings := settings pm;
     savedPresets := log;
     savePresetFails := savePresetFails pm |}.

Definition propsOf (v : JsValue) : list (string * JsValue) :=
  match v with JObj props => props | _ => [] end.

Definition syncEntryGroupingToActiveSettings (pm : PresetManager)
    (presetName : string) (groupings : list JsValue) : PresetManager :=
  match selectedPresetName pm with
  | None => pm
  | Some selected =>
      if negb (nonEmpty selected) || negb (String.eqb selected presetName) then pm
      else if negb (isPlainObject (settings pm)) then pm
      else
        let props := propsOf (settings pm) in
        let props1 :=
          if negb (isPlainObject (lookupProp "extensions" props))
          then assignProp "extensions" (JObj []) props else props in
        let extensions :=
          assignProp "entryGrouping" (JArr groupings)
            (propsOf (lookupProp "extensions" props1)) in
        withSettings pm (JObj (assignProp "extensions" (JObj extensions) props1))
  end.

Definition getLoadedPresetName (apiInfo : ApiInfo) : option string :=
  match apiInfo with
  | None => None
  | Some pm =>
      match selectedPresetName pm with
      | Some name => if nonEmpty name then Some name else None
      | None => None
      end
  end.

Definition getPreset (apiInfo : ApiInfo) (presetName : string)
  : option (list (string * JsValue)) :=
  match apiInfo with
  | None => None
  | Some pm => presets pm !! presetName
  end.

Definition getAllPresetGroupings (apiInfo : ApiInfo) (presetName : string)
    (orderedIdentifiers : JsValue) (ids : nat -> string) : list JsValue :=
  match getPreset apiInfo presetName with
  | None => []
  | Some preset =>
      if negb (truthy (lookupProp "extensions" preset)) then []
      else
        let grouping := get (lookupProp "extensions" preset) "entryGrouping" in
        if negb (truthy grouping) then []
        else mapNormalize normalizeForRead (asArray grouping) orderedIdentifiers ids
  end.

(** [if (!presetObj.extensions) presetObj.extensions = {};] *)
Definition ensureExtensions (presetObj : list (string * JsValue))
  : list (string * JsValue) :=
  if negb (truthy (lookupProp "extensions" presetObj))
  then assignProp "extensions" (JObj []) presetObj
  else presetObj.

(** The common tail of the three mutations:
    [presetObj.extensions.entryGrouping = groupings], the mirror into the
    live settings, then [savePreset(presetName, presetObj, {skipUpdate: true})].
    The assignment throws a [TypeError] (the module is strict code) when
    [extensions] is a primitive; the surrounding [catch] turns every throw
    into the result [false], keeping what was already written.  (An array as
    [extensions], which the host never produces, is treated like a
    primitive.) *)
Definition commitGroupings (pm : PresetManager) (presetName : string)
    (presetObj : list (string * JsValue)) (groupings : list JsValue)
  : bool * ApiInfo :=
  match lookupProp "extensions" presetObj with
  | JObj extensions =>
      let presetObj' :=
        assignProp "extensions"
          (JObj (assignProp "entryGrouping" (JArr groupings) extensions)) presetObj in
      let pm1 := withPresets pm (<[presetName := presetObj']> (presets pm)) in
      let pm2 := syncEntryGroupingToActiveSettings pm1 presetName groupings in
      if savePresetFails pm2 then (false, Some pm2)
      else (true, Some (withSaved pm2 ((presetName, presetObj') :: savedPresets pm2)))
  | _ => (false, Some (withPresets pm (<[presetName := presetObj]> (presets pm))))
  end.

Definition addPresetGrouping (apiInfo : ApiInfo) (presetName : string)
    (startIdentifier endIdentifier groupName orderedIdentifiers : JsValue)
    (ids : nat -> string) : bool * ApiInfo :=
  if negb (isString startIdentifier) || negb (isString endIdentifier)
  then (false, apiInfo)
  else
    match apiInfo with
    | None => (false, apiInfo)
    | Some pm =>
        match presets pm !! presetName with
        | None => (false, apiInfo)
        | Some presetObj0 =>
            let presetObj := ensureExtensions presetObj0 in
            let raw := get (lookupProp "extensions" presetObj) "entryGrouping" in
            let groupings := getWritableGroupings raw orderedIdentifiers ids in
            let created :=
              JObj [("id", JStr (ids (length (asArray raw))));
                    ("name", or groupName (JStr DEFAULT_GROUP_NAME));
                    ("startIdentifier", startIdentifier);
                    ("endIdentifier", endIdentifier);
                    ("mode", JStr DEFAULT_MODE)] in
            commitGroupings pm presetName presetObj (groupings ++ [created])
        end
    end.

Definition updatePresetGrouping (apiInfo : ApiInfo) (presetName : string)
    (groupIndex : Z) (startIdentifier endIdentifier groupName orderedIdentifiers : JsValue)
    (ids : nat -> string) : bool * ApiInfo :=
  match apiInfo with
  | None => (false, apiInfo)
  | Some pm =>
      match presets pm !! presetName with
      | None => (false, apiInfo)
      | Some presetObj0 =>
          let presetObj := ensureExtensions presetObj0 in
          let raw := get (lookupProp "extensions" presetObj) "entryGrouping" in
          let groupings := getWritableGroupings raw orderedIdentifiers ids in
          if (groupIndex <? 0)%Z || (groupIndex >=? Z.of_nat (length groupings))%Z
          then (false, Some (withPresets pm (<[presetName := presetObj]> (presets pm))))
          else
            let existing :=
              or (default JUndefined (groupings !! Z.to_nat groupIndex)) (JObj []) in
            let updated :=
              JObj [("id", or (get existing "id") (JStr (ids (length (asArray raw)))));
                    ("name", or groupName
                               (or (get existing "name") (JStr DEFAULT_GROUP_NAME)));
                    ("startIdentifier",
                      if isString startIdentifier then startIdentifier
                      else get existing "startIdentifier");
                    ("endIdentifier",
                      if isString endIdentifier then endIdentifier
                      else get existing "endIdentifier");
                    ("mode", or (get existing "mode") (JStr DEFAULT_MODE))] in
            commitGroupings pm presetName presetObj
              (<[Z.to_nat groupIndex := updated]> groupings)
      end
  end.

Definition removePresetGrouping (apiInfo : ApiInfo) (presetName : string)
    (groupIndex : Z) (orderedIdentifiers : JsValue) (ids : nat -> string)
  : bool * ApiInfo :=
  match apiInfo with
  | None => (false, apiInfo)
  | Some pm =>
      match presets pm !! presetName with
      | None => (false, apiInfo)
      | Some presetObj0 =>
          let presetObj := ensureExtensions presetObj0 in
          let raw := get (lookupProp "extensions" presetObj) "entryGrouping" in
          let groupings := getWritableGroupings raw orderedIdentifiers ids in
          if (groupIndex <? 0)%Z || (groupIndex >=? Z.of_nat (length groupings))%Z
          then (false, Some (withPresets pm (<[presetName := presetObj]> (presets pm))))
          else
            commitGroupings pm presetName presetObj
              (delete (Z.to_nat groupIndex) groupings)
      end
  end.

(** What the host holds as the grouping container of a preset:
    [preset.extensions?.entryGrouping], [None] when there is no such preset. *)
Definition storedGrouping (apiInfo : ApiInfo) (presetName : string) : option JsValue :=
  match getPreset apiInfo presetName with
  | None => None
  | Some preset => Some (get (lookupProp "extensions" preset) "entryGrouping")
  end.

End PromptEntryGrouping.

Import PromptEntryGrouping.

(** ** World-info groups ([lib/worldinfo-grouping.js]) *)

Module WorldInfoGrouping.

(** [{ name, collapsed, entries }]; an entry uid is a number. *)
Record Group := {
  name : string;
  collapsed : bool;
  entries : list number
}.

(** [{ groups, groupOrder }].  [groups] is a plain object keyed by group id,
    held as its property list: a lookup finds the first binding of a key and
    [Object.keys] lists the distinct keys in insertion order (group ids are
    UUIDs, never integer-like keys).  [groupOrder = None] is the old data
    without the field. *)
Record WorldBook := {
  groups : list (string * Group);
  groupOrder : option (list string)
}.

(** [extensionSettings.worldinfo_groups], with the number of
    [saveSettingsDebounced()] requests made so far. *)
Record Settings := {
  worldbooks : gmap string WorldBook;
  saveRequests : nat
}.

(** [groups[gid]] *)
Fixpoint lookupGroup (gid : string) (gs : list (string * Group)) : option Group :=
  match gs with
  | [] => None
  | (k, g) :: rest => if String.eqb k gid then Some g else lookupGroup gid rest
  end.

(** [Object.keys(groups)] *)
Definition objectKeys (gs : list (string * Group)) : list string :=
  remove_dups (gs.*1).

(** [!!groups[gid]]: there is a group under the key [gid], or [gid] names a
    member of [Object.prototype], which the read finds up the prototype
    chain. *)
Definition hasGroup (gid : string) (gs : list (string * Group)) : bool :=
  match lookupGroup gid gs with
  | Some _ => true
  | None => inherited gid
  end.

Definition emptyWorldBook : WorldBook := {| groups := []; groupOrder := Some [] |}.

(** [settings.worldbooks[worldName]] reads a world book or nothing: the name
    is a key of [worldbooks], or it is no member of [Object.prototype] and the
    read gives [undefined].  For any other name the read gives a built-in
    object, without [groups], and [getWorldGroups] and [getGroupOrder] end in
    a [TypeError] at [Object.keys(undefined)].  The functions of this module
    are modelled for the world names that read a world book or nothing. *)
Definition readsWorldBook (st : Settings) (worldName : string) : bool :=
  match worldbooks st !! worldName with
  | Some _ => true
  | None => negb (inherited worldName)
  end.

(** The two repairs at the head of [getWorldGroups] and [getGroupOrder]:
    create the world book, then give old data its [groupOrder]. *)
Definition ensureWorldBook (st : Settings) (worldName : string) : WorldBook :=
  let wb := default emptyWorldBook (worldbooks st !! worldName) in
  match groupOrder wb with
  | Some _ => wb
  | None => {| groups := groups wb; groupOrder := Some (objectKeys (groups wb)) |}
  end.

Definition putWorldBook (st : Settings) (worldName : string) (wb : WorldBook)
  : Settings :=
  {| worldbooks := <[worldName := wb]> (worldbooks st);
     saveRequests := saveRequests st |}.

Definition saveSettings (st : Settings) : Settings :=
  {| worldbooks := worldbooks st; saveRequests := S (saveRequests st) |}.

Definition getWorldGroups (st : Settings) (worldName : string)
  : list (string * Group) * Settings :=
  let wb := ensureWorldBook st worldName in
  (groups wb, putWorldBook st worldName wb).

(** [for (const groupId of Object.keys(groups))
       if (!order.includes(groupId)) order.push(groupId);] *)
Definition appendMissing (order keys : list string) : list string :=
  foldl (fun acc gid => if bool_decide (gid ∈ acc) then acc else acc ++ [gid])
        order keys.

Definition getGroupOrder (st : Settings) (worldName : string)
  : list string * Settings :=
  let wb := ensureWorldBook st worldName in
  let gs := groups wb in
  let pruned :=
    filter (fun id => hasGroup id gs = true) (default [] (groupOrder wb)) in
  let order := appendMissing pruned (objectKeys gs) in
  (order, putWorldBook st worldName {| groups := gs; groupOrder := Some order |}).

Definition setGroupOrder (st : Settings) (worldName : string) (order : list string)
  : bool * Settings :=
  match worldbooks st !! worldName with
  | Some wb =>
      (true, saveSettings
               (putWorldBook st worldName
                  {| groups := groups wb; groupOrder := Some order |}))
  | None => (false, st)
  end.

(** [String(uid1) === String(uid2)] *)
Definition uidMatch (uid1 uid2 : number) : bool :=
  String.eqb (numberToString uid1) (numberToString uid2).

Definition isEntryInGroup (groupEntries : list number) (entryUid : number) : bool :=
  existsb (fun uid => uidMatch uid entryUid) groupEntries.

(** [idx = entries.findIndex(u => uidMatch(u, uid));
     if (idx !== -1) entries.splice(idx, 1);] *)
Fixpoint removeFirstMatch (uid : number) (es : list number) : list number :=
  match es with
  | [] => []
  | u :: rest => if uidMatch u uid then rest else u :: removeFirstMatch uid rest
  end.

Definition withEntries (g : Group) (es : list number) : Group :=
  {| name := name g; collapsed := collapsed g; entries := es |}.

(** The first loop of [addEntryToGroup], over every group. *)
Definition removeFromAll (uid : number) (gs : list (string * Group))
  : list (string * Group) :=
  map (fun kv => (kv.1, withEntries kv.2 (removeFirstMatch uid (entries kv.2)))) gs.

(** [groups[groupId].entries.push(uid)] *)
Fixpoint pushEntry (gid : string) (uid : number) (gs : list (string * Group))
  : list (string * Group) :=
  match gs with
  | [] => []
  | (k, g) :: rest =>
      if String.eqb k gid then (k, withEntries g (entries g ++ [uid])) :: rest
      else (k, g) :: pushEntry gid uid rest
  end.

(** [addEntryToGroup]; [uid] is [Number(entryUid)].  The target is found
    under its key.  (For a [groupId] that is no key but names a member of
    [Object.prototype], [groups[groupId]] is a built-in object and the test of
    its [entries] ends in a [TypeError] after the removal loop; the model
    covers the other group ids.) *)
Definition addEntryToGroup (st : Settings) (worldName groupId : string)
    (uid : number) : bool * Settings :=
  let '(gs, st1) := getWorldGroups st worldName in
  let wb := ensureWorldBook st worldName in
  let gs1 := removeFromAll uid gs in
  match lookupGroup groupId gs1 with
  | Some target =>
      if negb (isEntryInGroup (entries target) uid) then
        (true, saveSettings
                 (putWorldBook st1 worldName
                    {| groups := pushEntry groupId uid gs1;
                       groupOrder := groupOrder wb |}))
      else
        (false, putWorldBook st1 worldName
                  {| groups := gs1; groupOrder := groupOrder wb |})
  | None =>
      (false, putWorldBook st1 worldName
                {| groups := gs1; groupOrder := groupOrder wb |})
  end.

(** The groups of a world book as the next call will find them. *)
Definition groupsOf (st : Settings) (worldName : string) : list (string * Group) :=
  groups (default emptyWorldBook (worldbooks st !! worldName)).

(** [groups[gid].field = ...] on an existing group: the first binding of the
    key is rewritten in place. *)
Fixpoint updateGroup (gid : string) (f : Group -> Group) (gs : list (string * Group))
  : list (string * Group) :=
  match gs with
  | [] => []
  | (k, g) :: rest =>
      if String.eqb k gid then (k, f g) :: rest
      else (k, g) :: updateGroup gid f rest
  end.

(** [groups[gid] = g]: an existing key keeps its place, a new key goes
    last. *)
Fixpoint assignGroup (gid : string) (g : Group) (gs : list (string * Group))
  : list (string * Group) :=
  match gs with
  | [] => [(gid, g)]
  | (k, g') :: rest =>
      if String.eqb k gid then (k, g) :: rest
      else (k, g') :: assignGroup gid g rest
  end.

(** [delete groups[gid]] *)
Definition deleteKey (gid : string) (gs : list (string * Group))
  : list (string * Group) :=
  filter (fun kv => kv.1 <> gid) gs.

(** The settings after [getWorldGroups(worldName)] and a change of the
    groups object that it returned. *)
Definition withGroups (st : Settings) (worldName : string)
    (gs : list (string * Group)) : Settings :=
  putWorldBook (getWorldGroups st worldName).2 worldName
    {| groups := gs; groupOrder := groupOrder (ensureWorldBook st worldName) |}.

(** [for (const groupId in groups) if (test(groups[groupId])) return groupId;] *)
Definition firstGroupWhere (test : Group -> bool) (gs : list (string * Group))
  : option string :=
  List.find (fun gid => match lookupGroup gid gs with
                        | Some g => test g
                        | None => false
                        end) (objectKeys gs).

(** [removeEntryFromGroup]; [uid] is [Number(entryUid)]. *)
Definition removeEntryFromGroup (st : Settings) (worldName : string) (uid : number)
  : bool * Settings :=
  let '(gs, st1) := getWorldGroups st worldName in
  match firstGroupWhere (fun g => isEntryInGroup (entries g) uid) gs with
  | Some gid =>
      (true, saveSettings
               (withGroups st worldName
                  (updateGroup gid
                     (fun g => withEntries g (removeFirstMatch uid (entries g))) gs)))
  | None => (false, st1)
  end.

(** [createGroup]; [groupId] is the identifier that [generateId()] returns. *)
Definition createGroup (st : Settings) (worldName groupName groupId : string)
  : string * Settings :=
  let '(gs, _) := getWorldGroups st worldName in
  (groupId, saveSettings
              (withGroups st worldName
                 (assignGroup groupId
                    {| name := groupName; collapsed := false; entries := [] |} gs))).

(** [deleteGroup]: the test is [if (groups[groupId])], and [delete] of a
    name that is no key leaves the object as it is. *)
Definition deleteGroup (st : Settings) (worldName groupId : string) : bool * Settings :=
  let '(gs, st1) := getWorldGroups st worldName in
  if hasGroup groupId gs
  then (true, saveSettings (withGroups st worldName (deleteKey groupId gs)))
  else (false, st1).

(** [renameGroup], [toggleGroupCollapse] and [setGroupEntries] write to
    [groups[groupId]]: they are modelled for the group ids that are keys or
    read [undefined].  (For a [groupId] that is no key but names a member of
    [Object.prototype] the assignment addresses that built-in object,
    outside the settings.) *)

Definition renameGroup (st : Settings) (worldName groupId newName : string)
  : bool * Settings :=
  let '(gs, st1) := getWorldGroups st worldName in
  match lookupGroup groupId gs with
  | Some _ =>
      (true, saveSettings
               (withGroups st worldName
                  (updateGroup groupId
                     (fun g => {| name := newName; collapsed := collapsed g;
                                  entries := entries g |}) gs)))
  | None => (false, st1)
  end.

(** [toggleGroupCollapse]: the new state of the group (or [false] when there
    is no such group), the settings, and whether [saveCollapseState()], the
    debounced save, was requested. *)
Definition toggleGroupCollapse (st : Settings) (worldName groupId : string)
  : bool * Settings * bool :=
  let '(gs, st1) := getWorldGroups st worldName in
  match lookupGroup groupId gs with
  | Some g =>
      (negb (collapsed g),
       withGroups st worldName
         (updateGroup groupId
            (fun g => {| name := name g; collapsed := negb (collapsed g);
                         entries := entries g |}) gs),
       true)
  | None => (false, st1, false)
  end.

(** [setGroupEntries]; [entryUids] holds numbers, on which [Number] is the
    identity. *)
Definition setGroupEntries (st : Settings) (worldName groupId : string)
    (entryUids : list number) : bool * Settings :=
  let '(gs, st1) := getWorldGroups st worldName in
  match lookupGroup groupId gs with
  | Some _ =>
      (true, saveSettings
               (withGroups st worldName
                  (updateGroup groupId (fun g => withEntries g entryUids) gs)))
  | None => (false, st1)
  end.

(** One turn of the loop of [cleanOrphanedReferences]: the groups so far and
    the flag [cleaned]. *)
Definition cleanGroup (validUids : gset string)
    (acc : list (string * Group) * bool) (gid : string)
  : list (string * Group) * bool :=
  match lookupGroup gid acc.1 with
  | Some group =>
      let kept :=
        filter (fun uid => numberToString uid ∈ validUids) (entries group) in
      (updateGroup gid (fun g => withEntries g kept) acc.1,
       if negb (length kept =? length (entries group)) then true else acc.2)
  | None => acc
  end.

(** [cleanOrphanedReferences(worldName, worldData)]; [entryKeys] is
    [Object.keys(worldData.entries || {})]. *)
Definition cleanOrphanedReferences (st : Settings) (worldName : string)
    (entryKeys : list string) : bool * Settings :=
  let '(gs, st1) := getWorldGroups st worldName in
  let validUids : gset string := list_to_set entryKeys in
  let '(gs', cleaned) := foldl (cleanGroup validUids) (gs, false) (objectKeys gs) in
  if cleaned then (true, saveSettings (withGroups st worldName gs'))
  else (false, withGroups st worldName gs').

Definition getEntryGroup (st : Settings) (worldName : string) (entryUid : number)
  : option string * Settings :=
  let '(gs, st1) := getWorldGroups st worldName in
  (firstGroupWhere (fun g => isEntryInGroup (entries g) entryUid) gs, st1).

(** [getUngroupedEntries(worldName, worldData)]; [entryKeys] is
    [Object.keys(worldData.entries || {})]. *)
Definition getUngroupedEntries (st : Settings) (worldName : string)
    (entryKeys : list string) : list string * Settings :=
  let '(gs, st1) := getWorldGroups st worldName in
  let allGroupedUids : gset string :=
    foldl (fun acc gid =>
             match lookupGroup gid gs with
             | Some g =>
                 foldl (fun acc uid => acc ∪ {[numberToString uid]}) acc (entries g)
             | None => acc
             end) ∅ (objectKeys gs) in
  (filter (fun uid => uid ∉ allGroupedUids) entryKeys, st1).


End WorldInfoGrouping.
Import WorldInfoGrouping.

(** ** The reconciliation engine ([lib/prompt-entry-grouping-ui.js]) *)

Module PromptEntryGroupingUi.

(** The module-level variables that the reconciliation pass reads or
    writes. *)
Record EngineState := {
  entryGroupingEnabled : bool;
  isApplyingGrouping : bool;
  lastAppliedGroupingSignature : option string;
  lastAppliedGroupingPreset : option string;
  lastAppliedGroupingListNode : option nat;
  zeroResolvedRetryPreset : option string;
  zeroResolvedRetryCount : nat
}.

(** The state at module load. *)
Definition initialState : EngineState :=
  {| entryGroupingEnabled := true;
     isApplyingGrouping := false;
     lastAppliedGroupingSignature := None;
     lastAppliedGroupingPreset := None;
     lastAppliedGroupingListNode := None;
     zeroResolvedRetryPreset := None;
     zeroResolvedRetryCount := 0 |}.

(** One group as [createGroupUI] puts it into the list: a header carrying the
    index of the record and a wrapper around the member items. *)
Record GroupUi := {
  uiGroupIndex : nat;
  uiName : JsValue;
  uiMembers : list string
}.

(** The list container found by [findListContainer()]: the identity of the
    DOM node, the [data-pm-identifier] attribute of every
    [li[data-pm-identifier]] in document order, and the group headers with
    their wrappers.  Wrapping and unwrapping keep the document order of the
    items. *)
Record ListContainer := {
  node : nat;
  items : list string;
  groupUi : list GroupUi
}.

Definition withGroupUi (lc : ListContainer) (ui : list GroupUi) : ListContainer :=
  {| node := node lc; items := items lc; groupUi := ui |}.

(** What a pass does besides updating the module variables and the list. *)
Inductive TimerAction := ScheduleApplyGrouping | ClearApplyingFlag.

Inductive Effect :=
| WarnDuplicateIdentifiers                 (* console.warn *)
| CleanupGroupingUi
| ToastWarning (unresolvedCount : nat)     (* toastr.warning *)
| CreateGroupUi (ui : GroupUi)
| SetTimeout (action : TimerAction) (delay : Z)
| BindTripleClickEvents.

(** Where a pass ended. *)
Inductive Outcome :=
| NotRun                  (* disabled, no preset loaded, or no list container *)
| NoItems
| DuplicateIdentifiers
| NoGroupings
| SignatureSkip
| ZeroResolved
| Rebuilt.

Definition US : string := String (Ascii.ascii_of_nat 31) "".  (* \u001f *)
Definition RS : string := String (Ascii.ascii_of_nat 30) "".  (* \u001e *)
Definition GS : string := String (Ascii.ascii_of_nat 29) "".  (* \u001d *)
Definition FS : string := String (Ascii.ascii_of_nat 28) "".  (* \u001c *)

Definition groupingKeyOf (g : JsValue) : string :=
  join RS
    [coalesce (get g "name") (JStr "");
     coalesce (get g "startIdentifier") (JStr "");
     coalesce (get g "endIdentifier") (JStr "");
     coalesce (get g "mode") (JStr "");
     JStr (if truthy (get g "unresolved") then "1" else "0");
     match get g "legacyStartIndex" with
     | JNum n => JStr (numberToString n)
     | _ => JStr ""
     end;
     match get g "legacyEndIndex" with
     | JNum n => JStr (numberToString n)
     | _ => JStr ""
     end].

Definition computeGroupingSignature (presetName : string)
    (orderedIdentifiers : list string) (groupings : list JsValue) : string :=
  let listKey := joinWith US orderedIdentifiers in
  let groupingKey := joinWith GS (map groupingKeyOf groupings) in
  presetName +:+ FS +:+ listKey +:+ FS +:+ groupingKey.

(** [items.map((el) => el.getAttribute('data-pm-identifier')).filter(Boolean)] *)
Definition getOrderedIdentifiers (items : list string) : list string :=
  filter (fun id => nonEmpty id = true) items.

Definition getOrderedIdentifiersFromList (found : option ListContainer)
  : list string :=
  match found with
  | None => []
  | Some lc => getOrderedIdentifiers (items lc)
  end.

(** [new Set(ids).size !== ids.length] *)
Definition hasDuplicates (ids : list string) : bool :=
  negb (bool_decide (size (list_to_set (C := gset string) ids) = length ids)).

Definition identifiersToJs (ids : list string) : JsValue := JArr (map JStr ids).

(** The body of the loop of [getGroupedIdentifierSet] for one record. *)
Definition addGroupedIdentifiers (orderedIdentifiers : list string)
    (grouped : gset string) (g : JsValue) : gset string :=
  if truthy (get g "unresolved") then grouped
  else
    match get g "startIdentifier", get g "endIdentifier" with
    | JStr startIdentifier, JStr endIdentifier =>
        let startIndex := indexOf startIdentifier orderedIdentifiers in
        let endIndex := indexOf endIdentifier orderedIdentifiers in
        if (startIndex =? -1)%Z || (endIndex =? -1)%Z then grouped
        else
          let start := Z.min startIndex endIndex in
          let end_ := Z.max startIndex endIndex in
          foldl (fun acc i =>
                   match orderedIdentifiers !! Z.to_nat i with
                   | Some id => if nonEmpty id then acc ∪ {[id]} else acc
                   | None => acc
                   end)
                grouped (seqZ start (end_ - start + 1))
    | _, _ => grouped
    end.

Definition getGroupedIdentifierSet (apiInfo : ApiInfo) (presetName : string)
    (orderedIdentifiers : list string) (ids : nat -> string) : gset string :=
  foldl (addGroupedIdentifiers orderedIdentifiers) ∅
        (getAllPresetGroupings apiInfo presetName
           (identifiersToJs orderedIdentifiers) ids).

(** A record that resolved: [{ ...g, originalIndex, startIndex, endIndex }]. *)
Record Resolved := {
  grouping : JsValue;
  originalIndex : nat;
  startIndex : Z;
  endIndex : Z
}.

(** The [filter]/[map]/[filter] chain of [applyGroupingToList] for one
    record: [None] when the record is dropped. *)
Definition resolveGrouping (orderedIdentifiers : list string) (index : nat)
    (g : JsValue) : option Resolved :=
  if negb (truthy (get g "unresolved")) then
    match get g "startIdentifier", get g "endIdentifier" with
    | JStr startIdentifier, JStr endIdentifier =>
        let startIndex := indexOf startIdentifier orderedIdentifiers in
        let endIndex := indexOf endIdentifier orderedIdentifiers in
        if (startIndex =? -1)%Z || (endIndex =? -1)%Z then None
        else Some {| grouping := g; originalIndex := index;
                     startIndex := startIndex; endIndex := endIndex |}
    | _, _ => None
    end
  else None.

Definition spanStart (r : Resolved) : Z := Z.min (startIndex r) (endIndex r).
Definition spanEnd (r : Resolved) : Z := Z.max (startIndex r) (endIndex r).

(** [.sort((a, b) => Math.min(b...) - Math.min(a...))]: descending by the
    start of the span, stable. *)
Fixpoint insertByStartDesc (r : Resolved) (l : list Resolved) : list Resolved :=
  match l with
  | [] => [r]
  | x :: rest =>
      if (spanStart x <=? spanStart r)%Z then r :: x :: rest
      else x :: insertByStartDesc r rest
  end.

Definition sortByStartDesc (l : list Resolved) : list Resolved :=
  foldr insertByStartDesc [] l.

Definition resolveGroupings (orderedIdentifiers : list string)
    (groupings : list JsValue) : list Resolved :=
  sortByStartDesc
    (omap (fun r : option Resolved => r)
          (imap (resolveGrouping orderedIdentifiers) groupings)).

(** The loop over the resolved groupings that calls [createGroupUI]: each
    call puts a header before the first item of its slice and wraps the
    slice.  The members recorded for a group are the items that its call
    wraps; they are still its members at the end of the loop when no later
    call wraps one of them again, which is the case when the spans are
    disjoint ([wrapAll] moves an item out of the wrapper it is in). *)
Definition createAllGroupUi (items : list string) (resolved : list Resolved)
  : list GroupUi :=
  omap (fun r =>
          let start := spanStart r in
          let end_ := spanEnd r in
          if (start <? 0)%Z || (end_ >=? Z.of_nat (length items))%Z then None
          else Some {| uiGroupIndex := originalIndex r;
                       uiName := or (get (grouping r) "name") (JStr "分组");
                       uiMembers := slice items start (end_ + 1) |})
       resolved.

Definition hasGroupingUi (lc : ListContainer) : bool :=
  match groupUi lc with [] => false | _ => true end.

Definition cleanupGroupingUi (lc : ListContainer) : ListContainer :=
  withGroupUi lc [].

(** What one call of [applyGroupingToList] reads from outside the module:
    the host API, whether [window.toastr] exists, and the identifiers that
    [createGroupId()] returns during the first and the second read of the
    groupings. *)
Record Env := {
  apiInfo : ApiInfo;
  toastrAvailable : bool;
  newIds : nat -> nat -> string
}.

Record PassResult := {
  stateAfter : EngineState;
  listAfter : option ListContainer;
  outcome : Outcome;
  effects : list Effect
}.

Definition withApplying (st : EngineState) : EngineState :=
  {| entryGroupingEnabled := entryGroupingEnabled st;
     isApplyingGrouping := true;
     lastAppliedGroupingSignature := lastAppliedGroupingSignature st;
     lastAppliedGroupingPreset := lastAppliedGroupingPreset st;
     lastAppliedGroupingListNode := lastAppliedGroupingListNode st;
     zeroResolvedRetryPreset := zeroResolvedRetryPreset st;
     zeroResolvedRetryCount := zeroResolvedRetryCount st |}.

Definition withLastApplied (st : EngineState) (signature presetName : string)
    (listNode : nat) : EngineState :=
  {| entryGroupingEnabled := entryGroupingEnabled st;
     isApplyingGrouping := isApplyingGrouping st;
     lastAppliedGroupingSignature := Some signature;
     lastAppliedGroupingPreset := Some presetName;
     lastAppliedGroupingListNode := Some listNode;
     zeroResolvedRetryPreset := zeroResolvedRetryPreset st;
     zeroResolvedRetryCount := zeroResolvedRetryCount st |}.

Definition withRetry (st : EngineState) (preset : option string) (count : nat)
  : EngineState :=
  {| entryGroupingEnabled := entryGroupingEnabled st;
     isApplyingGrouping := isApplyingGrouping st;
     lastAppliedGroupingSignature := lastAppliedGroupingSignature st;
     lastAppliedGroupingPreset := lastAppliedGroupingPreset st;
     lastAppliedGroupingListNode := lastAppliedGroupingListNode st;
     zeroResolvedRetryPreset := preset;
     zeroResolvedRetryCount := count |}.

(** The timer callback [() => { isApplyingGrouping = false; }]. *)
Definition clearApplyingFlag (st : EngineState) : EngineState :=
  {| entryGroupingEnabled := entryGroupingEnabled st;
     isApplyingGrouping := false;
     lastAppliedGroupingSignature := lastAppliedGroupingSignature st;
     lastAppliedGroupingPreset := lastAppliedGroupingPreset st;
     lastAppliedGroupingListNode := lastAppliedGroupingListNode st;
     zeroResolvedRetryPreset := zeroResolvedRetryPreset st;
     zeroResolvedRetryCount := zeroResolvedRetryCount st |}.

(** The [finally] block: [setTimeout(() => { isApplyingGrouping = false }, 0)]. *)
Definition finish (st : EngineState) (lc : ListContainer) (o : Outcome)
    (effs : list Effect) : PassResult :=
  {| stateAfter := st; listAfter := Some lc; outcome := o;
     effects := effs ++ [SetTimeout ClearApplyingFlag 0] |}.

Definition eqOptString (a : option string) (b : string) : bool :=
  match a with Some x => String.eqb x b | None => false end.

Definition eqOptNode (a : option nat) (b : nat) : bool :=
  match a with Some x => Nat.eqb x b | None => false end.

(** The zero-resolved branch. *)
Definition zeroResolvedRetry (st : EngineState) (presetName : string)
  : EngineState * list Effect :=
  let st1 :=
    if negb (eqOptString (zeroResolvedRetryPreset st) presetName)
    then withRetry st (Some presetName) 0 else st in
  if zeroResolvedRetryCount st1 <? 3 then
    (withRetry st1 (zeroResolvedRetryPreset st1) (zeroResolvedRetryCount st1 + 1),
     [SetTimeout ScheduleApplyGrouping 450; SetTimeout ScheduleApplyGrouping 1200])
  else (st1, []).

(** [applyGroupingToList()].  Left out of the model: the theme variables,
    the saved expand state of the headers and the bodies of the click
    handlers, none of which feed back into the pass. *)
Definition applyGroupingToList (env : Env) (st : EngineState)
    (found : option ListContainer) : PassResult :=
  let notRun := {| stateAfter := st; listAfter := found; outcome := NotRun;
                   effects := [] |} in
  if negb (entryGroupingEnabled st) then notRun
  else
    match getLoadedPresetName (apiInfo env), found with
    | None, _ | _, None => notRun
    | Some presetName, Some listContainer =>
        let st := withApplying st in
        let groupingUiExists := hasGroupingUi listContainer in
        let preItems := items listContainer in
        if length preItems =? 0 then finish st listContainer NoItems []
        else
          let preOrderedIdentifiers := getOrderedIdentifiers preItems in
          if hasDuplicates preOrderedIdentifiers then
            finish st listContainer DuplicateIdentifiers
              [WarnDuplicateIdentifiers; BindTripleClickEvents]
          else
            let preGroupings :=
              getAllPresetGroupings (apiInfo env) presetName
                (identifiersToJs preOrderedIdentifiers) (newIds env 0) in
            let signature :=
              computeGroupingSignature presetName preOrderedIdentifiers preGroupings in
            if length preGroupings =? 0 then
              finish (withLastApplied st signature presetName (node listContainer))
                (if groupingUiExists then cleanupGroupingUi listContainer
                 else listContainer)
                NoGroupings
                ((if groupingUiExists then [CleanupGroupingUi] else [])
                   ++ [BindTripleClickEvents])
            else if groupingUiExists
                    && eqOptString (lastAppliedGroupingSignature st) signature
                    && eqOptString (lastAppliedGroupingPreset st) presetName
                    && eqOptNode (lastAppliedGroupingListNode st) (node listContainer)
            then finish st listContainer SignatureSkip [BindTripleClickEvents]
            else
              let listContainer := cleanupGroupingUi listContainer in
              let items := items listContainer in
              if length items =? 0 then
                finish st listContainer NoItems [CleanupGroupingUi]
              else
                let orderedIdentifiers := getOrderedIdentifiers items in
                if hasDuplicates orderedIdentifiers then
                  finish st listContainer DuplicateIdentifiers
                    [CleanupGroupingUi; WarnDuplicateIdentifiers; BindTripleClickEvents]
                else
                  let groupings :=
                    getAllPresetGroupings (apiInfo env) presetName
                      (identifiersToJs orderedIdentifiers) (newIds env 1) in
                  if length groupings =? 0 then
                    finish st listContainer NoGroupings
                      [CleanupGroupingUi; BindTripleClickEvents]
                  else
                    let unresolvedCount :=
                      length (filter (fun g => truthy (get g "unresolved") = true)
                                     groupings) in
                    let warning :=
                      if negb (unresolvedCount =? 0) && toastrAvailable env
                      then [ToastWarning unresolvedCount] else [] in
                    let resolvedGroupings :=
                      resolveGroupings orderedIdentifiers groupings in
                    if length resolvedGroupings =? 0 then
                      let '(st', timers) := zeroResolvedRetry st presetName in
                      finish st' listContainer ZeroResolved
                        ([CleanupGroupingUi] ++ warning ++ timers
                           ++ [BindTripleClickEvents])
                    else
                      let st := withRetry st None 0 in
                      let created := createAllGroupUi items resolvedGroupings in
                      finish
                        (withLastApplied st signature presetName (node listContainer))
                        (withGroupUi listContainer created)
                        Rebuilt
                        ([CleanupGroupingUi] ++ warning ++ map CreateGroupUi created
                           ++ [BindTripleClickEvents])
    end.

(** *** Scheduling of the passes

    The variables [applyGroupingTimer] and [applyGroupingQueued], with what
    the host holds for them: the live timers that [scheduleApplyGrouping]
    started (handle and delay) and the number of queued microtasks of
    [queueApplyGrouping].  Timer handles are positive, hence truthy. *)
Record Scheduler := {
  schedulerEnabled : bool;                (* entryGroupingEnabled *)
  applyGroupingTimer : option nat;
  applyGroupingQueued : bool;
  liveTimers : list (nat * Z);
  queuedMicrotasks : nat;
  nextHandle : nat
}.

Definition idleScheduler : Scheduler :=
  {| schedulerEnabled := true; applyGroupingTimer := None;
     applyGroupingQueued := false; liveTimers := []; queuedMicrotasks := 0;
     nextHandle := 1 |}.

Definition queueApplyGrouping (s : Scheduler) : Scheduler :=
  if negb (schedulerEnabled s) then s
  else if applyGroupingQueued s then s
  else {| schedulerEnabled := schedulerEnabled s;
          applyGroupingTimer := applyGroupingTimer s;
          applyGroupingQueued := true;
          liveTimers := liveTimers s;
          queuedMicrotasks := S (queuedMicrotasks s);
          nextHandle := nextHandle s |}.

(** [clearTimeout(handle)] *)
Definition clearTimeout (handle : nat) (timers : list (nat * Z)) : list (nat * Z) :=
  filter (fun t => t.1 <> handle) timers.

Definition scheduleApplyGrouping (delay : Z) (s : Scheduler) : Scheduler :=
  if negb (schedulerEnabled s) then s
  else
    let timers :=
      match applyGroupingTimer s with
      | Some handle => clearTimeout handle (liveTimers s)
      | None => liveTimers s
      end in
    if (delay <=? 0)%Z then
      queueApplyGrouping
        {| schedulerEnabled := schedulerEnabled s;
           applyGroupingTimer := None;
           applyGroupingQueued := applyGroupingQueued s;
           liveTimers := timers;
           queuedMicrotasks := queuedMicrotasks s;
           nextHandle := nextHandle s |}
    else
      {| schedulerEnabled := schedulerEnabled s;
         applyGroupingTimer := Some (nextHandle s);
         applyGroupingQueued := applyGroupingQueued s;
         liveTimers := timers ++ [(nextHandle s, delay)];
         queuedMicrotasks := queuedMicrotasks s;
         nextHandle := S (nextHandle s) |}.

(** The microtask of [queueApplyGrouping] runs: [applyGroupingQueued = false],
    then the pass. *)
Definition runMicrotask (s : Scheduler) : Scheduler :=
  match queuedMicrotasks s with
  | 0 => s
  | S n =>
      {| schedulerEnabled := schedulerEnabled s;
         applyGroupingTimer := applyGroupingTimer s;
         applyGroupingQueued := false;
         liveTimers := liveTimers s;
         queuedMicrotasks := n;
         nextHandle := nextHandle s |}
  end.

(** A live timer of [scheduleApplyGrouping] fires: the pass, then
    [applyGroupingTimer = null]. *)
Definition fireTimer (handle : nat) (s : Scheduler) : Scheduler :=
  if bool_decide (handle ∈ (liveTimers s).*1) then
    {| schedulerEnabled := schedulerEnabled s;
       applyGroupingTimer := None;
       applyGroupingQueued := applyGroupingQueued s;
       liveTimers := clearTimeout handle (liveTimers s);
       queuedMicrotasks := queuedMicrotasks s;
       nextHandle := nextHandle s |}
  else s.

Inductive SchedulerEvent :=
| Schedule (delay : Z)
| MicrotaskRuns
| TimerFires (handle : nat).

Definition schedulerStep (s : Scheduler) (e : SchedulerEvent) : Scheduler :=
  match e with
  | Schedule delay => scheduleApplyGrouping delay s
  | MicrotaskRuns => runMicrotask s
  | TimerFires handle => fireTimer handle s
  end.

(** *** The triple click of [bindTripleClickEvents]

    [clickCount], [lastClickedIndex] and whether the reset timer of
    [clickTimer] is pending. *)
Record ClickState := {
  clickCount : nat;
  lastClickedIndex : Z;
  clickTimerPending : bool
}.

Definition noClicks : ClickState :=
  {| clickCount := 0; lastClickedIndex := -1; clickTimerPending := false |}.

(** The click handler of the item at [index]; [onButton] says that the
    click hit one of the action buttons.  The result says whether
    [showGroupingMenu] is called. *)
Definition onItemClick (index : nat) (onButton : bool) (s : ClickState)
  : ClickState * bool :=
  if onButton then (s, false)
  else if (lastClickedIndex s =? Z.of_nat index)%Z then
    if 3 <=? S (clickCount s) then (noClicks, true)
    else ({| clickCount := S (clickCount s);
             lastClickedIndex := lastClickedIndex s;
             clickTimerPending := true |}, false)
  else ({| clickCount := 1; lastClickedIndex := Z.of_nat index;
           clickTimerPending := true |}, false).

(** The reset timer fires after one second without a click. *)
Definition onClickTimer (s : ClickState) : ClickState :=
  if clickTimerPending s then noClicks else s.

Inductive ClickEvent :=
| ItemClick (index : nat) (onButton : bool)
| ClickTimerFires.

Definition clickStep (s : ClickState) (e : ClickEvent) : ClickState * bool :=
  match e with
  | ItemClick index onButton => onItemClick index onButton s
  | ClickTimerFires => (onClickTimer s, false)
  end.

(** The state after a sequence of events, and whether each of them called
    [showGroupingMenu]. *)
Fixpoint runClicks (s : ClickState) (events : list ClickEvent)
  : ClickState * list bool :=
  match events with
  | [] => (s, [])
  | e :: rest =>
      let '(s1, menu) := clickStep s e in
      let '(s2, menus) := runClicks s1 rest in
      (s2, menu :: menus)
  end.

(** *** The grouping menu

    [tempMarks], and the callback that [handleMarkComplete] hands to the name
    dialog once both marks are set. *)
Record TempMarks := {
  markStart : option string;
  markEnd : option string
}.

Definition resetTempMarks : TempMarks := {| markStart := None; markEnd := None |}.

Inductive Notice :=
| AnchorsUnresolvable      (* toastr.error('分组锚点无法解析，请重试') *)
| RangeOverlaps            (* toastr.error('选择范围包含已分组条目，…') *)
| GroupCreated.            (* toastr.success('分组已创建') *)

Record MarkResult := {
  hostAfter : ApiInfo;
  marksAfter : TempMarks;
  notice : option Notice;
  passScheduled : bool      (* setTimeout(() => applyGroupingToList(), 200) *)
}.

(** [orderedIdentifiers.indexOf(mark)]; [null] is no element of the array. *)
Definition markIndex (mark : option string) (orderedIdentifiers : list string) : Z :=
  match mark with
  | Some identifier => indexOf identifier orderedIdentifiers
  | None => (-1)%Z
  end.

Definition markToJs (mark : option string) : JsValue :=
  match mark with Some identifier => JStr identifier | None => JNull end.

(** [showGroupingMenu($item, x, y)], called by the third click, up to the
    menu being added to the page; [identifier] is the [data-pm-identifier]
    of the item and [found] the list container at that moment. *)
Inductive MenuOutcome :=
| NoPresetLoaded
| NoIdentifier
| ItemAlreadyGrouped (info : bool)   (* toastr.info('该条目已在分组中，不能再次分组') *)
| MenuShown (clearMarksItem : bool). (* the menu, with "清除标记" when a mark is set *)

Definition showGroupingMenu (apiInfo : ApiInfo) (toastr : bool)
    (found : option ListContainer) (marks : TempMarks) (identifier : string)
    (ids : nat -> string) : MenuOutcome :=
  match getLoadedPresetName apiInfo with
  | None => NoPresetLoaded
  | Some presetName =>
      if negb (nonEmpty identifier) then NoIdentifier
      else
        let orderedIdentifiers := getOrderedIdentifiersFromList found in
        let groupedIdentifiers :=
          getGroupedIdentifierSet apiInfo presetName orderedIdentifiers ids in
        if bool_decide (identifier ∈ groupedIdentifiers)
        then ItemAlreadyGrouped toastr
        else MenuShown (match markStart marks, markEnd marks with
                        | None, None => false
                        | _, _ => true
                        end)
  end.

(** The dialog callback; [orderedIdentifiers] and [groupedIdentifiers] are
    the values captured when the menu opened. *)
Definition completeMarks (apiInfo : ApiInfo) (toastr : bool) (presetName : string)
    (marks : TempMarks) (groupName : string) (orderedIdentifiers : list string)
    (groupedIdentifiers : gset string) (ids : nat -> string) : MarkResult :=
  let startIndex := markIndex (markStart marks) orderedIdentifiers in
  let endIndex := markIndex (markEnd marks) orderedIdentifiers in
  if (startIndex =? -1)%Z || (endIndex =? -1)%Z then
    {| hostAfter := apiInfo; marksAfter := resetTempMarks;
       notice := if toastr then Some AnchorsUnresolvable else None;
       passScheduled := false |}
  else
    let start := Z.min startIndex endIndex in
    let end_ := Z.max startIndex endIndex in
    let hasOverlap :=
      existsb (fun id => bool_decide (id ∈ groupedIdentifiers))
              (slice orderedIdentifiers start (end_ + 1)) in
    if hasOverlap then
      {| hostAfter := apiInfo; marksAfter := resetTempMarks;
         notice := if toastr then Some RangeOverlaps else None;
         passScheduled := false |}
    else
      {| hostAfter :=
           (addPresetGrouping apiInfo presetName (markToJs (markStart marks))
              (markToJs (markEnd marks)) (JStr groupName)
              (identifiersToJs orderedIdentifiers) ids).2;
         marksAfter := resetTempMarks;
         notice := if toastr then Some GroupCreated else None;
         passScheduled := true |}.

End PromptEntryGroupingUi.

Import PromptEntryGroupingUi.

(** ** The switch of a whole group ([lib/toggle-button.js]) *)

Module ToggleButton.

(** One list item of a group: its [data-pm-identifier] attribute and, when
    it has a [.prompt-manager-toggle-action], whether that toggle shows the
    entry as enabled (neither [disabled] nor [fa-toggle-off]). *)
Record GroupItem := {
  itemIdentifier : string;
  itemToggle : option bool
}.

Inductive ButtonState := StateOff | StateOn | StateMixed.

(** [updateButtonState]: the [data-state] that the button gets, [None] when
    the group has no items and the button is left as it is. *)
Definition updateButtonState (groupItems : list GroupItem) : option ButtonState :=
  match groupItems with
  | [] => None
  | _ =>
      let toggles := omap itemToggle groupItems in
      let totalCount := length toggles in
      let enabledCount := length (filter (fun b => b = true) toggles) in
      if enabledCount =? 0 then Some StateOff
      else if enabledCount =? totalCount then Some StateOn
      else Some StateMixed
  end.

(** [currentState === 'off' || currentState === 'mixed'] *)
Definition shouldEnable (currentState : ButtonState) : bool :=
  match currentState with StateOn => false | _ => true end.

(** What [tryBulkToggleWithPromptManager] finds in [/scripts/openai.js]:
    whether the prompt manager is there, whether a character is active, the
    [enabled] flag of the prompt order entries of that character, the cached
    token counts of [tokenHandler?.getCounts?.()] when there are any (a count
    is [None] once set to [null]), and the calls of [render] and
    [saveServiceSettings] so far.  The functions of the host are taken not
    to throw. *)
Record PromptManagerHost := {
  promptManagerAvailable : bool;
  activeCharacter : bool;
  promptOrder : gmap string bool;
  tokenCounts : option (gmap string (option nat));
  renders : nat;
  serviceSaves : nat
}.

(** One turn of the loop over the identifiers: the host and [changed]. *)
Definition bulkToggleStep (enabled : bool) (acc : PromptManagerHost * bool)
    (identifier : string) : PromptManagerHost * bool :=
  match promptOrder acc.1 !! identifier with
  | None => acc
  | Some current =>
      if Bool.eqb current enabled then acc
      else
        ({| promptManagerAvailable := promptManagerAvailable acc.1;
            activeCharacter := activeCharacter acc.1;
            promptOrder := <[identifier := enabled]> (promptOrder acc.1);
            tokenCounts := (fun counts => <[identifier := None]> counts)
                             <$> tokenCounts acc.1;
            renders := renders acc.1;
            serviceSaves := serviceSaves acc.1 |}, true)
  end.

Definition tryBulkToggleWithPromptManager (enabled : bool) (identifiers : list string)
    (host : PromptManagerHost) : bool * PromptManagerHost :=
  match identifiers with
  | [] => (false, host)
  | _ =>
      if negb (promptManagerAvailable host) then (false, host)
      else if negb (activeCharacter host) then (false, host)
      else
        let '(host1, changed) :=
          foldl (bulkToggleStep enabled) (host, false) identifiers in
        if changed then
          (true, {| promptManagerAvailable := promptManagerAvailable host1;
                    activeCharacter := activeCharacter host1;
                    promptOrder := promptOrder host1;
                    tokenCounts := tokenCounts host1;
                    renders := S (renders host1);
                    serviceSaves := S (serviceSaves host1) |})
        else (true, host1)
  end.

End ToggleButton.

Import ToggleButton.

(** ** Predicates and scenarios used in the statements *)

(** *** Group records *)

(** A record is resolved when both anchors are strings. *)
Definition resolvedRecord (r : JsValue) : bool :=
  isString (get r "startIdentifier") && isString (get r "endIdentifier").

(** A record carries [unresolved: true]. *)
Definition flaggedUnresolved (r : JsValue) : bool :=
  match get r "unresolved" with JBool true => true | _ => false end.

(** The invariant of the data model: resolved, or flagged unresolved. *)
Definition recordInvariant (r : JsValue) : Prop :=
  resolvedRecord r = true \/ flaggedUnresolved r = true.

(** A group record as the store hands it out: a plain object with a display
    name and a mode. *)
Definition groupRecord (r : JsValue) : bool :=
  isPlainObject r && truthy (get r "name") && truthy (get r "mode").

(** An anchor that is a non-empty string. *)
Definition nonEmptyAnchor (v : JsValue) : bool :=
  match v with JStr s => nonEmpty s | _ => false end.

(** Equality on the fields [{name, startIdentifier, endIdentifier, mode}]. *)
Definition sameGroupFields (r r' : JsValue) : Prop :=
  get r' "name" = get r "name"
  /\ get r' "startIdentifier" = get r "startIdentifier"
  /\ get r' "endIdentifier" = get r "endIdentifier"
  /\ get r' "mode" = get r "mode".

(** An anchor is present in the ordered keys when it is a string listed
    there. *)
Definition anchorIn (v : JsValue) (keys : list string) : Prop :=
  exists s, v = JStr s /\ s ∈ keys.

(** The legacy record and the two key lists of the migration example. *)
Definition legacyRecord : JsValue :=
  JObj [("startIndex", JNum (NInt 1)); ("endIndex", JNum (NInt 3))].

Definition keysABCD : JsValue := JArr [JStr "a"; JStr "b"; JStr "c"; JStr "d"].
Definition keysA : JsValue := JArr [JStr "a"].

(** An anchor-based entry with a single anchor and no [unresolved] mark. *)
Definition halfAnchoredEntry : JsValue := JObj [("startIdentifier", JStr "a")].

(** A resolved record with the given anchors. *)
Definition anchorRecord (startIdentifier endIdentifier : string) : JsValue :=
  JObj [("id", JStr "g"); ("name", JStr "G");
        ("startIdentifier", JStr startIdentifier);
        ("endIdentifier", JStr endIdentifier); ("mode", JStr "inclusive")].

(** A group record whose start anchor is the empty string. *)
Definition emptyAnchorRecord : JsValue := anchorRecord "" "b".

(** *** The stored container *)

(** The normalized record list that [updatePresetGrouping] and
    [removePresetGrouping] check the index against. *)
Definition currentGroupings (apiInfo : ApiInfo) (presetName : string)
    (orderedIdentifiers : JsValue) (ids : nat -> string) : list JsValue :=
  getWritableGroupings (default JUndefined (storedGrouping apiInfo presetName))
    orderedIdentifiers ids.

(** The most that a failed mutation changes in the host: nothing, or the
    empty [extensions] object given to a preset that had none. *)
Definition atMostExtensionsCreated (before after : ApiInfo) (presetName : string)
  : Prop :=
  after = before
  \/ exists pm presetObj,
       before = Some pm
       /\ presets pm !! presetName = Some presetObj
       /\ truthy (lookupProp "extensions" presetObj) = false
       /\ after = Some (withPresets pm
                          (<[presetName := assignProp "extensions" (JObj []) presetObj]>
                             (presets pm))).

(** *** World-info groups *)

(** The order sequence that [getGroupOrder] starts from. *)
Definition storedOrder (st : Settings) (worldName : string) : list string :=
  default [] (groupOrder (ensureWorldBook st worldName)).

(** A uid occurs at most once in a list of entries. *)
Definition listedAtMostOnce (uid : number) (es : list number) : Prop :=
  length (filter (fun u => uidMatch u uid = true) es) <= 1.

(** A world book with the single group "g1". *)
Definition oneGroupWorld (es : list number) : Settings :=
  {| worldbooks :=
       {[ "book" := {| groups := [("g1", {| name := "A"; collapsed := false;
                                            entries := es |})];
                       groupOrder := Some ["g1"] |} ]};
     saveRequests := 0 |}.

(** Every uid is listed at most once, and in at most one group. *)
Definition exclusiveMembership (gs : list (string * Group)) : Prop :=
  forall uid,
    (forall gid g, lookupGroup gid gs = Some g -> listedAtMostOnce uid (entries g))
    /\ (forall gid1 gid2 g1 g2,
          lookupGroup gid1 gs = Some g1 -> lookupGroup gid2 gs = Some g2 ->
          isEntryInGroup (entries g1) uid = true ->
          isEntryInGroup (entries g2) uid = true -> gid1 = gid2).

(** The entries of a group that [cleanOrphanedReferences] keeps, and whether
    it drops any, for the set [validUids] of the loop. *)
Definition keptEntries (validUids : gset string) (g : Group) : list number :=
  filter (fun uid => numberToString uid ∈ validUids) (entries g).

Definition hasOrphan (validUids : gset string) (g : Group) : bool :=
  negb (length (keptEntries validUids g) =? length (entries g)).

(** Every uid listed in a group is a number that [String] prints as the
    model does. *)
Definition safeEntries (gs : list (string * Group)) : Prop :=
  forall gid g uid, lookupGroup gid gs = Some g -> uid ∈ entries g ->
    safeNumber uid = true.

(** A group without the uids that are no key of the world book's entries. *)
Definition keepValid (entryKeys : list string) (g : Group) : Group :=
  withEntries g (filter (fun uid => numberToString uid ∈ entryKeys) (entries g)).

(** Two groups "g1" and "g2" in a world book. *)
Definition twoGroupWorld (es1 es2 : list number) : Settings :=
  {| worldbooks :=
       {[ "book" := {| groups := [("g1", {| name := "A"; collapsed := false;
                                            entries := es1 |});
                                  ("g2", {| name := "B"; collapsed := true;
                                            entries := es2 |})];
                       groupOrder := Some ["g1"; "g2"] |} ]};
     saveRequests := 0 |}.

(** *** Passes of the reconciliation engine *)

(** The delays of the retries that a pass schedules, and the unresolved
    counts that it shows as warnings. *)
Definition retryDelays (r : PassResult) : list Z :=
  omap (fun e => match e with
                 | SetTimeout ScheduleApplyGrouping delay => Some delay
                 | _ => None
                 end) (effects r).

Definition warningsShown (r : PassResult) : list nat :=
  omap (fun e => match e with ToastWarning n => Some n | _ => None end) (effects r).

Definition schedulesRetry (r : PassResult) : bool :=
  match retryDelays r with [] => false | _ => true end.

(** Passes run one after the other, each on the state left by the one
    before, with whatever host data and list the moment provides. *)
Fixpoint runPasses (st : EngineState) (inputs : list (Env * option ListContainer))
  : list PassResult :=
  match inputs with
  | [] => []
  | (env, found) :: rest =>
      let r := applyGroupingToList env st found in
      r :: runPasses (stateAfter r) rest
  end.

(** The retry counter has run out for a preset. *)
Definition retryExhausted (st : EngineState) (presetName : string) : bool :=
  eqOptString (zeroResolvedRetryPreset st) presetName
  && (3 <=? zeroResolvedRetryCount st).

(** The retries that the counter still allows for a preset. *)
Definition retryBudget (st : EngineState) (presetName : string) : nat :=
  if eqOptString (zeroResolvedRetryPreset st) presetName
  then 3 - zeroResolvedRetryCount st else 3.

(** *** The end-to-end scenario

    A preset without groups and the entries ["p1","p2","p3","p4"]; a group
    is added on "p2".."p3"; then the host deletes the entry "p2". *)
Definition scenarioIds : nat -> string := fun n => "peg-" +:+ pretty n.

Definition scenarioHost : PresetManager :=
  {| presets := {[ "Preset" := [("name", JStr "Preset")] ]};
     selectedPresetName := Some "Preset";
     settings := JObj [];
     savedPresets := [];
     savePresetFails := false |}.

Definition scenarioKeys : list string := ["p1"; "p2"; "p3"; "p4"].
Definition scenarioKeysAfterDelete : list string := ["p1"; "p3"; "p4"].

(** [add(preset, "p2", "p3", "Intro", keys)] *)
Definition scenarioAdded (ids : nat -> string) : bool * ApiInfo :=
  addPresetGrouping (Some scenarioHost) "Preset" (JStr "p2") (JStr "p3")
    (JStr "Intro") (identifiersToJs scenarioKeys) ids.

Definition scenarioRecord (id : string) : JsValue :=
  JObj [("id", JStr id); ("name", JStr "Intro"); ("startIdentifier", JStr "p2");
        ("endIdentifier", JStr "p3"); ("mode", JStr "inclusive")].

Definition scenarioEnv (ids : nat -> string) (toastr : bool)
    (newIds : nat -> nat -> string) : Env :=
  {| apiInfo := (scenarioAdded ids).2; toastrAvailable := toastr; newIds := newIds |}.

Definition scenarioList (keys : list string) : ListContainer :=
  {| node := 1; items := keys; groupUi := [] |}.

(** The first pass of the scenario, on the full list. *)
Definition scenarioFirstPass : PassResult :=
  applyGroupingToList (scenarioEnv scenarioIds true (fun _ => scenarioIds))
    initialState (Some (scenarioList scenarioKeys)).

(** *** A change of preset between retries

    Two presets: "A" holds one record whose anchors are not in the list,
    "B" holds no record. *)
Definition retryEnv (selected : string) : Env :=
  {| apiInfo :=
       Some {| presets :=
                 {[ "A" := [("extensions",
                             JObj [("entryGrouping", JArr [anchorRecord "x" "y"])])];
                    "B" := [] ]};
               selectedPresetName := Some selected;
               settings := JObj [];
               savedPresets := [];
               savePresetFails := false |};
     toastrAvailable := true;
     newIds := fun _ _ => "n" |}.

Definition retryList : option ListContainer :=
  Some {| node := 1; items := ["p1"]; groupUi := [] |}.

(** Three passes under "A", a switch to "B", and back to "A". *)
Definition presetSwitchPasses : list PassResult :=
  runPasses initialState
    [(retryEnv "A", retryList); (retryEnv "A", retryList); (retryEnv "A", retryList);
     (retryEnv "B", retryList); (retryEnv "A", retryList)].

(** *** Raw entries, the live settings and the record of a new group *)

(** A raw entry that the normalizations keep: a plain object that is
    anchor-based or index-based. *)
Definition groupEntry (entry : JsValue) : bool :=
  isPlainObject entry
  && (isLegacyIndexGrouping entry || isIdentifierAnchorGrouping entry).

(** The raw entries of the container of a preset. *)
Definition rawEntries (apiInfo : ApiInfo) (presetName : string) : list JsValue :=
  asArray (default JUndefined (storedGrouping apiInfo presetName)).

(** [settings.extensions?.entryGrouping] of the live settings. *)
Definition liveGrouping (apiInfo : ApiInfo) : JsValue :=
  match apiInfo with
  | Some pm => get (get (settings pm) "extensions") "entryGrouping"
  | None => JUndefined
  end.

(** The record that [addPresetGrouping] appends. *)
Definition createdRecord (id : string) (groupName startIdentifier endIdentifier : JsValue)
  : JsValue :=
  JObj [("id", JStr id);
        ("name", or groupName (JStr DEFAULT_GROUP_NAME));
        ("startIdentifier", startIdentifier);
        ("endIdentifier", endIdentifier);
        ("mode", JStr DEFAULT_MODE)].

(** The record that [updatePresetGrouping] puts in the place of [existing]. *)
Definition updatedRecord (existing : JsValue) (newId : string)
    (groupName startIdentifier endIdentifier : JsValue) : JsValue :=
  JObj [("id", or (get existing "id") (JStr newId));
        ("name", or groupName (or (get existing "name") (JStr DEFAULT_GROUP_NAME)));
        ("startIdentifier",
          if isString startIdentifier then startIdentifier
          else get existing "startIdentifier");
        ("endIdentifier",
          if isString endIdentifier then endIdentifier
          else get existing "endIdentifier");
        ("mode", or (get existing "mode") (JStr DEFAULT_MODE))].

(** [extensions] of a preset can take the container: it is an object, or it
    is missing (falsy) and [if (!presetObj.extensions) presetObj.extensions = {}]
    creates it. *)
Definition extensionsWritable (presetObj : list (string * JsValue)) : bool :=
  match lookupProp "extensions" presetObj with
  | JObj _ => true
  | v => negb (truthy v)
  end.

(** [extensions] of the preset is an array. *)
Definition extensionsIsArray (apiInfo : ApiInfo) (presetName : string) : bool :=
  match getPreset apiInfo presetName with
  | Some presetObj => isArray (lookupProp "extensions" presetObj)
  | None => false
  end.

(** The host accepts a mutation of the preset: the preset exists, its
    [extensions] can take the container and [savePreset] succeeds. *)
Definition hostAccepts (apiInfo : ApiInfo) (presetName : string) : bool :=
  match apiInfo with
  | Some pm =>
      match presets pm !! presetName with
      | Some presetObj => extensionsWritable presetObj && negb (savePresetFails pm)
      | None => false
      end
  | None => false
  end.

(** The live settings of the host are a plain object. *)
Definition liveSettingsObject (apiInfo : ApiInfo) : bool :=
  match apiInfo with
  | Some pm => isPlainObject (settings pm)
  | None => false
  end.

(** A host with one preset "P" that holds the given container. *)
Definition hostWith (container : JsValue) (selected : option string) (fails : bool)
  : PresetManager :=
  {| presets := {[ "P" := [("extensions", JObj [("entryGrouping", container)])] ]};
     selectedPresetName := selected;
     settings := JObj [];
     savedPresets := [];
     savePresetFails := fails |}.

(** *** Resolved groups, scheduling and clicks *)

(** A list of resolved groups is in descending order of span start. *)
Definition startsDescending (l : list Resolved) : Prop :=
  forall i j r1 r2, i < j -> l !! i = Some r1 -> l !! j = Some r2 ->
    (spanStart r2 <= spanStart r1)%Z.

(** No two resolved groups share a position of the list. *)
Definition spansDisjoint (l : list Resolved) : Prop :=
  forall i j r1 r2, i <> j -> l !! i = Some r1 -> l !! j = Some r2 ->
    (spanEnd r1 < spanStart r2 \/ spanEnd r2 < spanStart r1)%Z.

(** What holds of the scheduler between two events: the only live timer is
    the one that [applyGroupingTimer] holds, and a microtask is queued
    exactly when [applyGroupingQueued] is set. *)
Definition schedulerInvariant (s : Scheduler) : Prop :=
  schedulerEnabled s = true
  /\ (liveTimers s).*1 = match applyGroupingTimer s with
                         | Some handle => [handle]
                         | None => []
                         end
  /\ queuedMicrotasks s = (if applyGroupingQueued s then 1 else 0).

(** An event that the click handler counts: anything but a click on one of
    the action buttons. *)
Definition countedClick (e : ClickEvent) : bool :=
  match e with ItemClick _ true => false | _ => true end.

(** What the click state records of the events so far. *)
Definition clickInvariant (events : list ClickEvent) (s : ClickState) : Prop :=
  (clickCount s = 0 /\ lastClickedIndex s = (-1)%Z)
  \/ (clickCount s = 1 /\ clickTimerPending s = true
      /\ exists index pre,
           filter (fun e => countedClick e = true) events
           = pre ++ [ItemClick index false]
           /\ lastClickedIndex s = Z.of_nat index)
  \/ (clickCount s = 2 /\ clickTimerPending s = true
      /\ exists index pre,
           filter (fun e => countedClick e = true) events
           = pre ++ [ItemClick index false; ItemClick index false]
           /\ lastClickedIndex s = Z.of_nat index).

(** *** Examples *)

(** A list in which the identifier "p1" occurs twice. *)
Definition duplicateList : ListContainer :=
  {| node := 1; items := ["p1"; "p2"; "p1"]; groupUi := [] |}.

(** A prompt manager with an active character and two prompt order
    entries. *)
Definition sampleToggleHost : PromptManagerHost :=
  {| promptManagerAvailable := true;
     activeCharacter := true;
     promptOrder := {[ "a" := true; "b" := false ]};
     tokenCounts := None;
     renders := 0;
     serviceSaves := 0 |}.

(** Three items: two toggles, one of them enabled, and an item without a
    toggle. *)
Definition sampleGroupItems : list GroupItem :=
  [{| itemIdentifier := "a"; itemToggle := Some true |};
   {| itemIdentifier := "b"; itemToggle := Some false |};
   {| itemIdentifier := "c"; itemToggle := None |}].

(** ** The group record store: normalization *)

Section Normalization.

Implicit Types (entry r orderedIdentifiers : JsValue) (newId : string).

(** C4. Legacy migration on read: [{startIndex: 1, endIndex: 3}] read against
    ["a","b","c","d"] becomes the anchor record with [startIdentifier "b"] and
    [endIdentifier "d"]; read against ["a"], which is too short, it becomes
    the record flagged [unresolved: true] that keeps [legacyStartIndex 1] and
    [legacyEndIndex 3]. *)
Theorem legacy_migration_on_read newId :
  normalizeForRead legacyRecord keysABCD newId
  = Some (JObj [("id", JStr newId); ("name", JStr DEFAULT_GROUP_NAME);
                ("startIdentifier", JStr "b"); ("endIdentifier", JStr "d");
                ("mode", JStr DEFAULT_MODE)])
  /\ normalizeForRead legacyRecord keysA newId
    = Some (JObj [("id", JStr newId); ("name", JStr DEFAULT_GROUP_NAME);
                  ("mode", JStr DEFAULT_MODE); ("unresolved", JBool true);
                  ("legacyStartIndex", JNum (NInt 1));
                  ("legacyEndIndex", JNum (NInt 3))]).
Proof. split; reflexivity. Qed.

(** Every record that the read normalization returns is resolved or flagged
    unresolved. *)
Lemma normalizeForRead_invariant entry orderedIdentifiers newId r :
  normalizeForRead entry orderedIdentifiers newId = Some r -> recordInvariant r.
Proof.
  unfold normalizeForRead, recordInvariant, resolvedRecord, flaggedUnresolved.
  destruct (isPlainObject entry); [cbn [negb] | discriminate].
  destruct (isLegacyIndexGrouping entry).
  - destruct (isString (identifierAt _ (get entry "startIndex"))) eqn:Hs;
      destruct (isString (identifierAt _ (get entry "endIndex"))) eqn:He;
      intros [= <-]; cbn; rewrite ?Hs, ?He; auto.
  - destruct (isIdentifierAnchorGrouping entry); [| discriminate].
    destruct (isString (get entry "startIdentifier")) eqn:Hs;
      destruct (isString (get entry "endIdentifier")) eqn:He;
      destruct (truthy _ && truthy _) eqn:Ht;
      intros [= <-]; cbn in *; rewrite ?Hs, ?He; auto; try discriminate.
    + rewrite andb_false_r in Ht. discriminate.
Qed.

(** A record read from the store never has both anchors and the flag. *)
Lemma normalizeForRead_resolved_unflagged entry orderedIdentifiers newId r :
  normalizeForRead entry orderedIdentifiers newId = Some r ->
  resolvedRecord r = true -> get r "unresolved" = JUndefined.
Proof.
  unfold normalizeForRead, resolvedRecord.
  destruct (isPlainObject entry); [cbn [negb] | discriminate].
  destruct (isLegacyIndexGrouping entry).
  - destruct (isString _ && isString _); intros [= <-]; cbn; congruence.
  - destruct (isIdentifierAnchorGrouping entry); [| discriminate].
    destruct (truthy _ && truthy _); intros [= <-]; cbn; congruence.
Qed.

(** The legacy data that an unresolved record read from the store keeps. *)
Lemma normalizeForRead_keeps_legacy entry orderedIdentifiers newId r :
  normalizeForRead entry orderedIdentifiers newId = Some r ->
  flaggedUnresolved r = true ->
  if isLegacyIndexGrouping entry
  then get r "legacyStartIndex" = get entry "startIndex"
       /\ get r "legacyEndIndex" = get entry "endIndex"
  else get r "legacyStartIndex" = get entry "legacyStartIndex"
       /\ get r "legacyEndIndex" = get entry "legacyEndIndex".
Proof.
  unfold normalizeForRead, flaggedUnresolved.
  destruct (isPlainObject entry); [cbn [negb] | discriminate].
  destruct (isLegacyIndexGrouping entry).
  - destruct (isString _ && isString _); intros [= <-]; cbn; auto; discriminate.
  - destruct (isIdentifierAnchorGrouping entry); [| discriminate].
    destruct (truthy _ && truthy _); intros [= <-]; cbn; auto; discriminate.
Qed.

(** When the write normalization keeps the invariant. *)
Lemma normalizeForWrite_invariant_iff entry orderedIdentifiers newId r :
  normalizeForWrite entry orderedIdentifiers newId = Some r ->
  recordInvariant r <->
  (isIdentifierAnchorGrouping entry = false
   \/ resolvedRecord entry = true
   \/ truthy (get entry "unresolved") = true).
Proof.
  unfold normalizeForWrite, recordInvariant, resolvedRecord, flaggedUnresolved,
    isIdentifierAnchorGrouping, assignIf.
  destruct (isPlainObject entry); [cbn [negb] | discriminate].
  destruct (isString (get entry "startIdentifier")) eqn:Hs;
    destruct (isString (get entry "endIdentifier")) eqn:He; cbn [orb andb].
  1-3: destruct (truthy (get entry "unresolved"));
       destruct (isNumber (get entry "legacyStartIndex"));
       destruct (isNumber (get entry "legacyEndIndex"));
       intros [= <-]; cbn; rewrite ?Hs, ?He; cbn; intuition discriminate.
  destruct (isLegacyIndexGrouping entry); [| discriminate].
  intros Hr. split; [auto |]. intros _. revert Hr.
  destruct (isString (identifierAt _ (get entry "startIndex"))) eqn:Hs';
    destruct (isString (identifierAt _ (get entry "endIndex"))) eqn:He';
    intros [= <-]; cbn; rewrite ?Hs', ?He'; auto.
Qed.

(** C2 (as amended). Every record returned by [normalizeForRead] is resolved
    (both anchors are strings) or carries [unresolved: true], and then it
    retains the legacy indices that the entry had.  A record returned by
    [normalizeForWrite] is resolved or carries [unresolved: true] exactly
    when the raw entry is legacy-positional without a string anchor, or has
    both string anchors, or is already marked unresolved: the write side
    passes a single anchor through without adding the flag. *)
Theorem store_normalization_invariant entry orderedIdentifiers newId r :
  (normalizeForRead entry orderedIdentifiers newId = Some r ->
   recordInvariant r
   /\ (flaggedUnresolved r = true ->
       if isLegacyIndexGrouping entry
       then get r "legacyStartIndex" = get entry "startIndex"
            /\ get r "legacyEndIndex" = get entry "endIndex"
       else get r "legacyStartIndex" = get entry "legacyStartIndex"
            /\ get r "legacyEndIndex" = get entry "legacyEndIndex"))
  /\ (normalizeForWrite entry orderedIdentifiers newId = Some r ->
      (recordInvariant r <->
       (isIdentifierAnchorGrouping entry = false
        \/ resolvedRecord entry = true
        \/ truthy (get entry "unresolved") = true))).
Proof.
  split.
  - intros Hread. split.
    + by eapply normalizeForRead_invariant.
    + by eapply normalizeForRead_keeps_legacy.
  - apply normalizeForWrite_invariant_iff.
Qed.

Lemma store_normalization_invariant_witness :
  recordInvariant
    (JObj [("id", JStr "x"); ("name", JStr DEFAULT_GROUP_NAME);
           ("mode", JStr DEFAULT_MODE); ("unresolved", JBool true);
           ("legacyStartIndex", JNum (NInt 1)); ("legacyEndIndex", JNum (NInt 3))]).
Proof.
  apply (proj1 (store_normalization_invariant legacyRecord keysA "x" _)).
  reflexivity.
Defined.

(** C2 (as stated) fails on the write side: the entry
    [{startIdentifier: "a"}] is written back with one anchor and without the
    [unresolved] flag. *)
Lemma normalizeForWrite_half_anchor_unflagged :
  normalizeForWrite halfAnchoredEntry (JArr []) "id"
  = Some (JObj [("id", JStr "id"); ("name", JStr DEFAULT_GROUP_NAME);
                ("mode", JStr DEFAULT_MODE); ("startIdentifier", JStr "a")])
  /\ ~ recordInvariant
        (JObj [("id", JStr "id"); ("name", JStr DEFAULT_GROUP_NAME);
               ("mode", JStr DEFAULT_MODE); ("startIdentifier", JStr "a")]).
Proof.
  split; [reflexivity |].
  unfold recordInvariant, resolvedRecord, flaggedUnresolved; cbn.
  intros [|]; discriminate.
Qed.

(** What the write normalization makes of an anchor-based entry. *)
Lemma normalizeForWrite_anchor_fields entry orderedIdentifiers newId :
  isPlainObject entry = true ->
  resolvedRecord entry = true ->
  exists w,
    normalizeForWrite entry orderedIdentifiers newId = Some w
    /\ isPlainObject w = true
    /\ isLegacyIndexGrouping w = false
    /\ get w "id" = idOf entry newId
    /\ get w "name" = readGroupName entry
    /\ get w "mode" = or (get entry "mode") (JStr DEFAULT_MODE)
    /\ get w "startIdentifier" = get entry "startIdentifier"
    /\ get w "endIdentifier" = get entry "endIdentifier".
Proof.
  unfold normalizeForWrite, resolvedRecord, isIdentifierAnchorGrouping, assignIf.
  intros -> [Hs He]%andb_true_iff. rewrite Hs, He. cbn [negb orb].
  eexists; split; [reflexivity |].
  destruct (truthy (get entry "unresolved"));
    destruct (isNumber (get entry "legacyStartIndex"));
    destruct (isNumber (get entry "legacyEndIndex"));
    cbn; repeat split; reflexivity.
Qed.

(** Reading a record that has both anchors non-empty. *)
Lemma normalizeForRead_anchor_fields w orderedIdentifiers newId :
  isPlainObject w = true ->
  isLegacyIndexGrouping w = false ->
  nonEmptyAnchor (get w "startIdentifier") = true ->
  nonEmptyAnchor (get w "endIdentifier") = true ->
  normalizeForRead w orderedIdentifiers newId
  = Some (JObj [("id", idOf w newId);
                ("name", readGroupName w);
                ("startIdentifier", get w "startIdentifier");
                ("endIdentifier", get w "endIdentifier");
                ("mode", or (get w "mode") (JStr DEFAULT_MODE))]).
Proof.
  unfold normalizeForRead, isIdentifierAnchorGrouping. intros -> -> Hs He.
  destruct (get w "startIdentifier") as [| | | |s| |]; try discriminate.
  destruct (get w "endIdentifier") as [| | | |e| |]; try discriminate.
  cbn in *. rewrite Hs, He. reflexivity.
Qed.

Lemma or_truthy a b : truthy a = true -> or a b = a.
Proof. unfold or. intros ->. reflexivity. Qed.

Lemma or_truthy_result a b : truthy b = true -> truthy (or a b) = true.
Proof. unfold or. destruct (truthy a) eqn:Ha; auto. Qed.

(** One record through the write normalization and back through the read
    normalization. *)
Lemma roundtrip_record r keys keys' newId newId' :
  isPlainObject r = true ->
  nonEmptyAnchor (get r "startIdentifier") = true ->
  nonEmptyAnchor (get r "endIdentifier") = true ->
  exists w r',
    normalizeForWrite r keys newId = Some w
    /\ normalizeForRead w keys' newId' = Some r'
    /\ get r' "startIdentifier" = get r "startIdentifier"
    /\ get r' "endIdentifier" = get r "endIdentifier"
    /\ get r' "name" = readGroupName r
    /\ get r' "mode" = or (get r "mode") (JStr DEFAULT_MODE)
    /\ get r' "id" = idOf r newId.
Proof.
  intros Hobj Hs He.
  assert (Hres : resolvedRecord r = true).
  { unfold resolvedRecord.
    destruct (get r "startIdentifier"); try discriminate.
    destruct (get r "endIdentifier"); try discriminate. reflexivity. }
  destruct (normalizeForWrite_anchor_fields r keys newId Hobj Hres)
    as (w & Hw & Hwobj & Hwleg & Hwid & Hwname & Hwmode & Hws & Hwe).
  exists w. eexists. split; [exact Hw |]. split.
  - apply normalizeForRead_anchor_fields; auto; congruence.
  - cbn. unfold readGroupName at 1, idOf at 1.
    rewrite Hwname, Hwmode, Hws, Hwe, Hwid.
    rewrite (or_truthy (readGroupName r)), (or_truthy (or (get r "mode") _)).
    + repeat split; auto. unfold idOf.
      destruct (isString (get r "id")) eqn:Hid; cbn; rewrite ?Hid; reflexivity.
    + apply or_truthy_result. reflexivity.
    + unfold readGroupName. apply or_truthy_result, or_truthy_result. reflexivity.
Qed.

Lemma roundtrip_record_fields r keys keys' newId newId' :
  groupRecord r = true ->
  nonEmptyAnchor (get r "startIdentifier") = true ->
  nonEmptyAnchor (get r "endIdentifier") = true ->
  exists w r',
    normalizeForWrite r keys newId = Some w
    /\ normalizeForRead w keys' newId' = Some r'
    /\ sameGroupFields r r'
    /\ (isString (get r "id") = true -> get r' "id" = get r "id").
Proof.
  unfold groupRecord. intros [[Hobj Hname]%andb_true_iff Hmode]%andb_true_iff Hs He.
  destruct (roundtrip_record r keys keys' newId newId' Hobj Hs He)
    as (w & r' & Hw & Hr & Hrs & Hre & Hrn & Hrm & Hid).
  exists w, r'. split; [exact Hw |]. split; [exact Hr |]. split.
  - unfold sameGroupFields. rewrite Hrs, Hre, Hrn, Hrm.
    unfold readGroupName. rewrite !or_truthy by assumption. auto.
  - intros His. rewrite Hid. unfold idOf. by rewrite His.
Qed.

Lemma mapNormalize_cons f entry rest keys ids :
  mapNormalize f (entry :: rest) keys ids
  = match f entry keys (ids 0) with
    | Some r => r :: mapNormalize f rest keys (fun i => ids (S i))
    | None => mapNormalize f rest keys (fun i => ids (S i))
    end.
Proof. unfold mapNormalize. cbn. destruct (f entry keys (ids 0)); reflexivity. Qed.

(** C3 (as amended). For every collection of group records (plain objects
    with a name and a mode) whose two anchors are non-empty strings, and
    every ordered-key list on either side, reading what the write
    normalization made of the collection returns, record by record, records
    equal to the originals in [{name, startIdentifier, endIdentifier, mode}];
    a string id is kept. *)
Theorem read_after_write_roundtrip records keys keys' ids ids' :
  Forall (fun r => groupRecord r = true
                   /\ nonEmptyAnchor (get r "startIdentifier") = true
                   /\ nonEmptyAnchor (get r "endIdentifier") = true) records ->
  Forall2 sameGroupFields records
    (mapNormalize normalizeForRead (getWritableGroupings (JArr records) keys ids)
       keys' ids')
  /\ Forall (fun r => forall newId newId',
                exists w r',
                  normalizeForWrite r keys newId = Some w
                  /\ normalizeForRead w keys' newId' = Some r'
                  /\ sameGroupFields r r'
                  /\ (isString (get r "id") = true -> get r' "id" = get r "id"))
            records.
Proof.
  intros Hrecords. split.
  - unfold getWritableGroupings. cbn [asArray truthy negb].
    revert ids ids'.
    induction Hrecords as [| r rest (Hg & Hs & He) _ IH]; intros ids ids'.
    + constructor.
    + destruct (roundtrip_record_fields r keys keys' (ids 0) (ids' 0) Hg Hs He)
        as (w & r' & Hw & Hr & Hsame & _).
      rewrite mapNormalize_cons, Hw, mapNormalize_cons, Hr.
      constructor; [exact Hsame | apply IH].
  - eapply Forall_impl; [exact Hrecords |].
    intros r (Hg & Hs & He) newId newId'. by apply roundtrip_record_fields.
Qed.

Lemma read_after_write_roundtrip_witness :
  Forall2 sameGroupFields [anchorRecord "a" "b"; anchorRecord "d" "c"]
    (mapNormalize normalizeForRead
       (getWritableGroupings (JArr [anchorRecord "a" "b"; anchorRecord "d" "c"])
          keysABCD scenarioIds)
       keysABCD scenarioIds).
Proof.
  apply (read_after_write_roundtrip [anchorRecord "a" "b"; anchorRecord "d" "c"]
           keysABCD keysABCD scenarioIds scenarioIds).
  repeat constructor.
Defined.

(** C3 (as stated) fails for a resolved record whose start anchor is the
    empty string, also against a key list that holds both anchors: it is
    written with both anchors, then read back flagged unresolved and without
    anchors. *)
Lemma roundtrip_loses_empty_anchor :
  groupRecord emptyAnchorRecord = true
  /\ resolvedRecord emptyAnchorRecord = true
  /\ normalizeForWrite emptyAnchorRecord (JArr [JStr ""; JStr "b"]) "n1"
    = Some (JObj [("id", JStr "g"); ("name", JStr "G"); ("mode", JStr "inclusive");
                  ("startIdentifier", JStr ""); ("endIdentifier", JStr "b")])
  /\ normalizeForRead
      (JObj [("id", JStr "g"); ("name", JStr "G"); ("mode", JStr "inclusive");
             ("startIdentifier", JStr ""); ("endIdentifier", JStr "b")])
      (JArr [JStr ""; JStr "b"]) "n2"
    = Some (JObj [("id", JStr "g"); ("name", JStr "G"); ("mode", JStr "inclusive");
                  ("unresolved", JBool true); ("legacyStartIndex", JUndefined);
                  ("legacyEndIndex", JUndefined)])
  /\ ~ sameGroupFields emptyAnchorRecord
        (JObj [("id", JStr "g"); ("name", JStr "G"); ("mode", JStr "inclusive");
               ("unresolved", JBool true); ("legacyStartIndex", JUndefined);
               ("legacyEndIndex", JUndefined)]).
Proof.
  repeat split; try reflexivity.
  unfold sameGroupFields; cbn. intros (_ & Hs & _). discriminate.
Qed.

End Normalization.

(** ** The group record store: reads and bounded mutations *)

Section Store.

Implicit Types (apiInfo : ApiInfo) (pm : PresetManager) (presetName : string).

Lemma lookupProp_assignProp_eq k v props :
  lookupProp k (assignProp k v props) = v.
Proof.
  induction props as [| [k' v'] rest IH]; cbn.
  - rewrite String.eqb_refl. reflexivity.
  - destruct (String.eqb k k') eqn:E; cbn; rewrite E; auto.
Qed.

Lemma entryGrouping_ensureExtensions presetObj :
  get (lookupProp "extensions" (ensureExtensions presetObj)) "entryGrouping"
  = get (lookupProp "extensions" presetObj) "entryGrouping".
Proof.
  unfold ensureExtensions.
  destruct (truthy (lookupProp "extensions" presetObj)) eqn:E; cbn [negb]; auto.
  rewrite lookupProp_assignProp_eq.
  destruct (lookupProp "extensions" presetObj); try discriminate; reflexivity.
Qed.

(** Creating the empty [extensions] object does not change what is stored
    as grouping container, for any preset. *)
Lemma storedGrouping_ensureExtensions pm presetName presetObj name :
  presets pm !! presetName = Some presetObj ->
  storedGrouping
    (Some (withPresets pm (<[presetName := ensureExtensions presetObj]> (presets pm))))
    name
  = storedGrouping (Some pm) name.
Proof.
  intros Hp. unfold storedGrouping, getPreset; cbn.
  destruct (decide (presetName = name)) as [<- | Hne].
  - rewrite lookup_insert_eq, Hp. f_equal. apply entryGrouping_ensureExtensions.
  - rewrite lookup_insert_ne by done. reflexivity.
Qed.

Lemma currentGroupings_found pm presetName presetObj keys ids :
  presets pm !! presetName = Some presetObj ->
  currentGroupings (Some pm) presetName keys ids
  = getWritableGroupings
      (get (lookupProp "extensions" (ensureExtensions presetObj)) "entryGrouping")
      keys ids.
Proof.
  intros Hp. unfold currentGroupings, storedGrouping, getPreset. rewrite Hp; cbn.
  rewrite entryGrouping_ensureExtensions. reflexivity.
Qed.

Lemma ensureExtensions_host pm presetName presetObj :
  presets pm !! presetName = Some presetObj ->
  atMostExtensionsCreated (Some pm)
    (Some (withPresets pm (<[presetName := ensureExtensions presetObj]> (presets pm))))
    presetName.
Proof.
  intros Hp. unfold ensureExtensions.
  destruct (truthy (lookupProp "extensions" presetObj)) eqn:Hext; cbn [negb].
  - left. rewrite insert_id by done. by destruct pm.
  - right. by exists pm, presetObj.
Qed.

(** An index outside the current normalized list makes the update fail
    before anything is written to the grouping container. *)
Lemma updatePresetGrouping_out_of_range
    apiInfo presetName groupIndex startIdentifier endIdentifier groupName keys ids :
  (groupIndex < 0
   \/ Z.of_nat (length (currentGroupings apiInfo presetName keys ids)) <= groupIndex)%Z ->
  let res := updatePresetGrouping apiInfo presetName groupIndex
               startIdentifier endIdentifier groupName keys ids in
  res.1 = false
  /\ (forall name, storedGrouping res.2 name = storedGrouping apiInfo name)
  /\ atMostExtensionsCreated apiInfo res.2 presetName.
Proof.
  intros Hrange. unfold updatePresetGrouping.
  destruct apiInfo as [pm |]; [| cbn; repeat split; by left].
  destruct (presets pm !! presetName) as [presetObj |] eqn:Hp;
    [| cbn; repeat split; by left].
  rewrite (currentGroupings_found _ _ _ _ _ Hp) in Hrange.
  destruct (_ || _) eqn:Hcheck.
  - cbn [fst snd]. split; [reflexivity |]. split.
    + intros name. by apply storedGrouping_ensureExtensions.
    + by apply ensureExtensions_host.
  - apply orb_false_iff in Hcheck as [H1 H2]. lia.
Qed.

Lemma removePresetGrouping_out_of_range apiInfo presetName groupIndex keys ids :
  (groupIndex < 0
   \/ Z.of_nat (length (currentGroupings apiInfo presetName keys ids)) <= groupIndex)%Z ->
  let res := removePresetGrouping apiInfo presetName groupIndex keys ids in
  res.1 = false
  /\ (forall name, storedGrouping res.2 name = storedGrouping apiInfo name)
  /\ atMostExtensionsCreated apiInfo res.2 presetName.
Proof.
  intros Hrange. unfold removePresetGrouping.
  destruct apiInfo as [pm |]; [| cbn; repeat split; by left].
  destruct (presets pm !! presetName) as [presetObj |] eqn:Hp;
    [| cbn; repeat split; by left].
  rewrite (currentGroupings_found _ _ _ _ _ Hp) in Hrange.
  destruct (_ || _) eqn:Hcheck.
  - cbn [fst snd]. split; [reflexivity |]. split.
    + intros name. by apply storedGrouping_ensureExtensions.
    + by apply ensureExtensions_host.
  - apply orb_false_iff in Hcheck as [H1 H2]. lia.
Qed.

(** Nothing is saved and the live settings are as before. *)
Lemma atMostExtensionsCreated_untouched before after presetName :
  atMostExtensionsCreated before after presetName ->
  savedPresets <$> after = savedPresets <$> before
  /\ settings <$> after = settings <$> before
  /\ selectedPresetName <$> after = selectedPresetName <$> before.
Proof. intros [-> | (pm & presetObj & -> & _ & _ & ->)]; auto. Qed.

(** C6. Bounds on mutation: with [groupIndex = -1] or [groupIndex] equal to
    the length of the current normalized record list, both
    [updatePresetGrouping] and [removePresetGrouping] return [false] and
    leave the stored grouping container of every preset as it was.  Nothing
    is saved and the live settings are not touched; the host data is the
    same afterwards, but for the empty [extensions] object that a preset
    without one has received. *)
Theorem out_of_bounds_mutation_fails
    apiInfo presetName groupIndex startIdentifier endIdentifier groupName keys ids :
  (groupIndex = -1
   \/ groupIndex = Z.of_nat (length (currentGroupings apiInfo presetName keys ids)))%Z ->
  let upd := updatePresetGrouping apiInfo presetName groupIndex
               startIdentifier endIdentifier groupName keys ids in
  let rem := removePresetGrouping apiInfo presetName groupIndex keys ids in
  upd.1 = false /\ rem.1 = false
  /\ (forall name, storedGrouping upd.2 name = storedGrouping apiInfo name)
  /\ (forall name, storedGrouping rem.2 name = storedGrouping apiInfo name)
  /\ savedPresets <$> upd.2 = savedPresets <$> apiInfo
  /\ savedPresets <$> rem.2 = savedPresets <$> apiInfo
  /\ settings <$> upd.2 = settings <$> apiInfo
  /\ settings <$> rem.2 = settings <$> apiInfo
  /\ atMostExtensionsCreated apiInfo upd.2 presetName
  /\ atMostExtensionsCreated apiInfo rem.2 presetName.
Proof.
  intros Hidx.
  assert (Hrange : (groupIndex < 0
            \/ Z.of_nat (length (currentGroupings apiInfo presetName keys ids))
               <= groupIndex)%Z) by lia.
  destruct (updatePresetGrouping_out_of_range apiInfo presetName groupIndex
              startIdentifier endIdentifier groupName keys ids Hrange)
    as (U1 & U2 & U3).
  destruct (removePresetGrouping_out_of_range apiInfo presetName groupIndex
              keys ids Hrange) as (R1 & R2 & R3).
  destruct (atMostExtensionsCreated_untouched _ _ _ U3) as (U4 & U5 & _).
  destruct (atMostExtensionsCreated_untouched _ _ _ R3) as (R4 & R5 & _).
  cbv zeta. repeat split; auto.
Qed.

Lemma out_of_bounds_mutation_fails_witness :
  (updatePresetGrouping (scenarioAdded scenarioIds).2 "Preset" 1
     (JStr "p1") (JStr "p4") (JStr "Renamed") (identifiersToJs scenarioKeys)
     scenarioIds).1 = false
  /\ (removePresetGrouping (scenarioAdded scenarioIds).2 "Preset" 1
       (identifiersToJs scenarioKeys) scenarioIds).1 = false.
Proof.
  destruct (out_of_bounds_mutation_fails (scenarioAdded scenarioIds).2 "Preset" 1
              (JStr "p1") (JStr "p4") (JStr "Renamed")
              (identifiersToJs scenarioKeys) scenarioIds) as (U & R & _).
  - right. vm_compute. reflexivity.
  - split; [exact U | exact R].
Defined.

End Store.

(** ** The end-to-end scenario *)

Section EndToEnd.

(** C1 (as amended). After [add(preset, "p2", "p3", "Intro", keys)], reading
    the groupings returns the one resolved record, whatever ordered-key list
    is given.  So once "p2" is deleted, reading against ["p1","p3","p4"]
    returns the same record: both anchors are kept and it is not flagged
    unresolved.  The resolver drops it because "p2" is absent, no unresolved
    warning is shown, and the pass ends in the zero-resolved retry. *)
Theorem end_to_end_deleted_anchor
    (ids ids' : nat -> string) (keys : JsValue) (toastr : bool)
    (newIds : nat -> nat -> string) :
  let host := (scenarioAdded ids).2 in
  let pass := applyGroupingToList (scenarioEnv ids toastr newIds) initialState
                (Some (scenarioList scenarioKeysAfterDelete)) in
  (scenarioAdded ids).1 = true
  /\ getAllPresetGroupings host "Preset" keys ids' = [scenarioRecord (ids 0)]
  /\ getAllPresetGroupings host "Preset" (identifiersToJs scenarioKeysAfterDelete) ids'
     = [scenarioRecord (ids 0)]
  /\ resolveGrouping scenarioKeys 0 (scenarioRecord (ids 0))
     = Some {| grouping := scenarioRecord (ids 0); originalIndex := 0;
               startIndex := 1; endIndex := 2 |}
  /\ flaggedUnresolved (scenarioRecord (ids 0)) = false
  /\ resolveGrouping scenarioKeysAfterDelete 0 (scenarioRecord (ids 0)) = None
  /\ outcome pass = ZeroResolved
  /\ warningsShown pass = []
  /\ effects pass
     = [CleanupGroupingUi;
        SetTimeout ScheduleApplyGrouping 450; SetTimeout ScheduleApplyGrouping 1200;
        BindTripleClickEvents; SetTimeout ClearApplyingFlag 0].
Proof. cbv zeta. repeat split; vm_compute; reflexivity. Qed.

(** C1 (as stated) fails: the record read back after the deletion of "p2" is
    not flagged unresolved, no record counts as unresolved, and the pass
    shows no warning. *)
Lemma end_to_end_reread_not_unresolved :
  getAllPresetGroupings (scenarioAdded scenarioIds).2 "Preset"
    (identifiersToJs scenarioKeysAfterDelete) scenarioIds
  = [scenarioRecord "peg-0"]
  /\ get (scenarioRecord "peg-0") "unresolved" = JUndefined
  /\ length (filter (fun g => truthy (get g "unresolved") = true)
               (getAllPresetGroupings (scenarioAdded scenarioIds).2 "Preset"
                  (identifiersToJs scenarioKeysAfterDelete) scenarioIds)) = 0
  /\ ToastWarning 1
     ∉ effects (applyGroupingToList
                  (scenarioEnv scenarioIds true (fun _ => scenarioIds)) initialState
                  (Some (scenarioList scenarioKeysAfterDelete))).
Proof.
  repeat split; try (vm_compute; reflexivity).
  assert (E : effects (applyGroupingToList
                  (scenarioEnv scenarioIds true (fun _ => scenarioIds)) initialState
                  (Some (scenarioList scenarioKeysAfterDelete)))
     = [CleanupGroupingUi;
        SetTimeout ScheduleApplyGrouping 450; SetTimeout ScheduleApplyGrouping 1200;
        BindTripleClickEvents; SetTimeout ClearApplyingFlag 0])
    by (vm_compute; reflexivity).
  rewrite E. intros H. repeat (apply elem_of_cons in H as [H | H]; [discriminate |]).
  by apply elem_of_nil in H.
Qed.

End EndToEnd.

(** ** World-info groups *)

Section WorldInfo.

Implicit Types (st : Settings) (gs : list (string * Group)) (uid : number).

Lemma lookupGroup_is_Some gid gs : is_Some (lookupGroup gid gs) <-> gid ∈ gs.*1.
Proof.
  induction gs as [| [k g] rest IH]; cbn.
  - split; [intros [? [=]] | intros []%elem_of_nil].
  - destruct (String.eqb k gid) eqn:E.
    + apply String.eqb_eq in E as ->. split; [intros _; left | eauto].
    + apply String.eqb_neq in E. rewrite IH, elem_of_cons.
      split; [auto | intros [? |]; congruence].
Qed.

Lemma elem_of_objectKeys gid gs : gid ∈ objectKeys gs <-> gid ∈ gs.*1.
Proof. unfold objectKeys. apply elem_of_remove_dups. Qed.

Lemma NoDup_objectKeys gs : NoDup (objectKeys gs).
Proof. unfold objectKeys. apply NoDup_remove_dups. Qed.

Lemma filter_ext_elem {A} (P Q : A -> Prop)
    `{!forall x, Decision (P x), !forall x, Decision (Q x)} (l : list A) :
  (forall x, x ∈ l -> P x <-> Q x) -> filter P l = filter Q l.
Proof.
  induction l as [| x rest IH]; intros Hext; [reflexivity |].
  rewrite !filter_cons, IH by (intros y Hy; apply Hext; by right).
  destruct (decide (P x)) as [HP | HP], (decide (Q x)) as [HQ | HQ]; auto;
    exfalso; apply (Hext x (list_elem_of_here _ _)) in HP || apply HP;
    try done; by apply (Hext x (list_elem_of_here _ _)).
Qed.

Lemma filter_not_elem_snoc (order keys : list string) k :
  k ∉ keys ->
  filter (fun id => id ∉ order ++ [k]) keys = filter (fun id => id ∉ order) keys.
Proof.
  induction keys as [| x rest IH]; intros Hk; [reflexivity |].
  apply not_elem_of_cons in Hk as [Hne Hk].
  rewrite !filter_cons, IH by done.
  destruct (decide (x ∉ order ++ [k])) as [H1 | H1];
    destruct (decide (x ∉ order)) as [H2 | H2]; auto.
  - exfalso. apply H2. intros Hin. apply H1. apply elem_of_app. by left.
  - exfalso. apply H1. intros [Hin | Hin%list_elem_of_singleton]%elem_of_app; done.
Qed.

(** The loop that appends the missing ids, in closed form. *)
Lemma appendMissing_spec (order keys : list string) :
  NoDup keys ->
  appendMissing order keys = order ++ filter (fun id => id ∉ order) keys.
Proof.
  unfold appendMissing. revert order.
  induction keys as [| k rest IH]; intros order Hnd; cbn [foldl].
  - by rewrite filter_nil, app_nil_r.
  - apply NoDup_cons in Hnd as [Hk Hnd]. rewrite IH by done.
    rewrite filter_cons. case_bool_decide as Hin.
    + rewrite decide_False by tauto. reflexivity.
    + rewrite decide_True by done.
      rewrite filter_not_elem_snoc by done. by rewrite <- app_assoc.
Qed.

Lemma groups_ensureWorldBook st worldName :
  groups (ensureWorldBook st worldName) = groupsOf st worldName.
Proof.
  unfold ensureWorldBook, groupsOf.
  destruct (groupOrder (default emptyWorldBook (worldbooks st !! worldName)));
    reflexivity.
Qed.

Lemma groupsOf_putWorldBook st worldName wb :
  groupsOf (putWorldBook st worldName wb) worldName = groups wb.
Proof. unfold groupsOf, putWorldBook; cbn. by rewrite lookup_insert_eq. Qed.

Lemma storedOrder_setGroupOrder st worldName order :
  is_Some (worldbooks st !! worldName) ->
  (setGroupOrder st worldName order).1 = true
  /\ storedOrder (setGroupOrder st worldName order).2 worldName = order
  /\ groupsOf (setGroupOrder st worldName order).2 worldName = groupsOf st worldName.
Proof.
  intros [wb Hwb]. unfold setGroupOrder, storedOrder, ensureWorldBook, groupsOf.
  rewrite Hwb; cbn. rewrite lookup_insert_eq; cbn. auto.
Qed.

Lemma hasGroup_true gid gs :
  hasGroup gid gs = true <-> gid ∈ objectKeys gs \/ inherited gid = true.
Proof.
  unfold hasGroup. rewrite elem_of_objectKeys, <- lookupGroup_is_Some.
  destruct (lookupGroup gid gs) as [g |].
  - split; [intros _; left; eauto | done].
  - split; [auto | intros [[? [=]] | ?]; done].
Qed.

Lemma hasGroup_key gid gs : gid ∈ objectKeys gs -> hasGroup gid gs = true.
Proof. intros Hin. apply hasGroup_true. by left. Qed.

(** What a read of the group order returns, for any stored order. *)
Lemma getGroupOrder_spec st worldName :
  let gs := groupsOf st worldName in
  let keys := objectKeys gs in
  let stored := storedOrder st worldName in
  let res := getGroupOrder st worldName in
  res.1 = filter (fun id => hasGroup id gs = true) stored
          ++ filter (fun id => id ∉ stored) keys
  /\ (forall id, id ∈ res.1 <-> id ∈ keys \/ (id ∈ stored /\ inherited id = true))
  /\ (NoDup stored -> NoDup res.1)
  /\ groupsOf res.2 worldName = groupsOf st worldName
  /\ storedOrder res.2 worldName = res.1.
Proof.
  intros gs keys stored res.
  assert (Hgs : groups (ensureWorldBook st worldName) = gs).
  { subst gs. apply groups_ensureWorldBook. }
  assert (Hres : res.1 = filter (fun id => hasGroup id gs = true) stored
                         ++ filter (fun id =>
                                      id ∉ filter (fun id => hasGroup id gs = true) stored)
                              keys).
  { subst res stored. unfold getGroupOrder, storedOrder. cbv zeta. cbn [fst].
    rewrite Hgs. fold keys.
    by rewrite <- appendMissing_spec by (subst keys; apply NoDup_objectKeys). }
  assert (Hmissing :
    filter (fun id => id ∉ filter (fun id => hasGroup id gs = true) stored) keys
    = filter (fun id => id ∉ stored) keys).
  { apply filter_ext_elem. intros id Hid.
    rewrite list_elem_of_filter. pose proof (hasGroup_key id gs Hid). tauto. }
  rewrite Hmissing in Hres.
  split; [exact Hres |]. split; [| split; [| split]].
  - intros id. rewrite Hres, elem_of_app, !list_elem_of_filter, hasGroup_true.
    fold keys. destruct (decide (id ∈ stored)); tauto.
  - intros Hnd. rewrite Hres. apply NoDup_app. split; [| split].
    + by apply NoDup_filter.
    + intros id [_ Hin]%list_elem_of_filter [Hout _]%list_elem_of_filter. done.
    + apply NoDup_filter. subst keys. apply NoDup_objectKeys.
  - subst res. unfold getGroupOrder. cbv zeta. cbn [snd].
    rewrite groupsOf_putWorldBook. cbn [groups]. apply groups_ensureWorldBook.
  - subst res. unfold getGroupOrder. cbv zeta. cbn [fst snd].
    unfold storedOrder at 1, ensureWorldBook at 1, putWorldBook. cbn [worldbooks].
    rewrite lookup_insert_eq. reflexivity.
Qed.

(** The read when no stored id names a member of [Object.prototype]. *)
Lemma getGroupOrder_plain st worldName :
  let keys := objectKeys (groupsOf st worldName) in
  let stored := storedOrder st worldName in
  let res := getGroupOrder st worldName in
  Forall (fun id => inherited id = false) stored ->
  res.1 = filter (fun id => id ∈ keys) stored ++ filter (fun id => id ∉ stored) keys
  /\ (forall id, id ∈ res.1 <-> id ∈ keys).
Proof.
  intros keys stored res Hplain.
  destruct (getGroupOrder_spec st worldName) as (Hres & Hmem & _).
  fold keys stored res in Hres, Hmem. rewrite Forall_forall in Hplain. split.
  - rewrite Hres. f_equal. apply filter_ext_elem. intros id Hid.
    rewrite hasGroup_true. fold keys. specialize (Hplain id Hid).
    split; [intros [? | ?]; [done | congruence] | auto].
  - intros id. rewrite Hmem. split; [| auto].
    intros [? | [Hid Hinh]]; [done |]. specialize (Hplain id Hid). congruence.
Qed.

(** C9 (as amended). On every read, also right after an arbitrary order was
    stored with [setGroupOrder], [getGroupOrder] returns the stored order
    with the ids of deleted groups pruned, followed by the group ids that
    the stored order lacks; its elements are exactly the group-id keys of
    the world book; and it has no duplicates whenever the stored order has
    none (the stored order is never deduplicated).  This is stated for a
    world name that reads a world book or nothing, and for a stored order
    without a name that every object inherits from [Object.prototype]. *)
Theorem group_order_on_read st worldName order :
  let keys := objectKeys (groupsOf st worldName) in
  let stored := storedOrder st worldName in
  let read := (getGroupOrder st worldName).1 in
  let reread := (getGroupOrder (setGroupOrder st worldName order).2 worldName).1 in
  (readsWorldBook st worldName = true ->
   Forall (fun id => inherited id = false) stored ->
   read = filter (fun id => id ∈ keys) stored ++ filter (fun id => id ∉ stored) keys
   /\ (forall id, id ∈ read <-> id ∈ keys)
   /\ (NoDup stored -> NoDup read))
  /\ (is_Some (worldbooks st !! worldName) ->
      Forall (fun id => inherited id = false) order ->
      reread = filter (fun id => id ∈ keys) order ++ filter (fun id => id ∉ order) keys
      /\ (forall id, id ∈ reread <-> id ∈ keys)
      /\ (NoDup order -> NoDup reread)).
Proof.
  cbv zeta. split.
  - intros _ Hplain.
    destruct (getGroupOrder_plain st worldName Hplain) as (H1 & H2).
    destruct (getGroupOrder_spec st worldName) as (_ & _ & H3 & _). auto.
  - intros Hw Hplain.
    destruct (storedOrder_setGroupOrder st worldName order Hw) as (_ & Hst & Hgs).
    pose proof (getGroupOrder_plain (setGroupOrder st worldName order).2 worldName)
      as Hread.
    destruct (getGroupOrder_spec (setGroupOrder st worldName order).2 worldName)
      as (_ & _ & H3 & _).
    cbv zeta in Hread. rewrite Hst, Hgs in *. destruct (Hread Hplain). auto.
Qed.

Lemma group_order_on_read_witness :
  (getGroupOrder (setGroupOrder (oneGroupWorld []) "book" ["gone"; "g1"]).2 "book").1
  = ["g1"].
Proof.
  destruct (group_order_on_read (oneGroupWorld []) "book" ["gone"; "g1"])
    as [_ Hre].
  destruct Hre as (Heq & _); [vm_compute; eauto | repeat constructor |].
  rewrite Heq. vm_compute. reflexivity.
Defined.

(** C9 (as stated) fails: an order stored with a repeated id is returned
    with the repetition. *)
Lemma group_order_keeps_stored_duplicates :
  (getGroupOrder (setGroupOrder (oneGroupWorld []) "book" ["g1"; "g1"]).2 "book").1
  = ["g1"; "g1"]
  /\ ~ NoDup
        (getGroupOrder (setGroupOrder (oneGroupWorld []) "book" ["g1"; "g1"]).2
           "book").1.
Proof.
  assert (E : (getGroupOrder
                 (setGroupOrder (oneGroupWorld []) "book" ["g1"; "g1"]).2 "book").1
              = ["g1"; "g1"]) by (vm_compute; reflexivity).
  split; [exact E |]. rewrite E. intros [Hnotin _]%NoDup_cons.
  apply Hnotin. left.
Qed.

Lemma lookupGroup_removeFromAll k uid gs :
  lookupGroup k (removeFromAll uid gs)
  = (fun g => withEntries g (removeFirstMatch uid (entries g))) <$> lookupGroup k gs.
Proof.
  induction gs as [| [k' g] rest IH]; cbn; [reflexivity |].
  destruct (String.eqb k' k); auto.
Qed.

Lemma lookupGroup_pushEntry gid uid gs g :
  lookupGroup gid gs = Some g ->
  lookupGroup gid (pushEntry gid uid gs) = Some (withEntries g (entries g ++ [uid])).
Proof.
  induction gs as [| [k g'] rest IH]; cbn; [discriminate |].
  destruct (String.eqb k gid) eqn:E; cbn; rewrite E; [congruence | auto].
Qed.

(** A listed uid really leaves the list: one entry fewer. *)
Lemma removeFirstMatch_length uid es :
  isEntryInGroup es uid = true ->
  S (length (removeFirstMatch uid es)) = length es.
Proof.
  induction es as [| u rest IH]; cbn; [discriminate |].
  destruct (uidMatch u uid); cbn; auto.
Qed.

Lemma removeFirstMatch_absent uid es :
  isEntryInGroup es uid = false -> removeFirstMatch uid es = es.
Proof.
  induction es as [| u rest IH]; cbn; [reflexivity |].
  destruct (uidMatch u uid); cbn; [discriminate |]. intros H. by rewrite IH.
Qed.

Lemma isEntryInGroup_filter uid es :
  isEntryInGroup es uid = true ->
  0 < length (filter (fun u => uidMatch u uid = true) es).
Proof.
  unfold isEntryInGroup.
  induction es as [| u rest IH]; cbn [existsb]; [discriminate |].
  rewrite filter_cons. destruct (uidMatch u uid) eqn:E; cbn [orb].
  - intros _. rewrite decide_True by done. cbn [length]. lia.
  - intros H. rewrite decide_False by congruence. auto.
Qed.

(** When the uid is listed at most once, none is left after the removal. *)
Lemma removeFirstMatch_once uid es :
  listedAtMostOnce uid es ->
  isEntryInGroup (removeFirstMatch uid es) uid = false.
Proof.
  unfold listedAtMostOnce.
  induction es as [| u rest IH]; [reflexivity |].
  rewrite filter_cons. cbn [removeFirstMatch]. destruct (uidMatch u uid) eqn:E.
  - rewrite decide_True by done. cbn [length]. intros Hlen.
    destruct (isEntryInGroup rest uid) eqn:Hin; [| reflexivity].
    apply isEntryInGroup_filter in Hin. lia.
  - rewrite decide_False by congruence. intros Hlen.
    unfold isEntryInGroup in *. cbn [existsb]. rewrite E. cbn [orb]. auto.
Qed.

(** The two exits of [addEntryToGroup], after the removal loop. *)
Lemma addEntryToGroup_spec st worldName groupId uid :
  let gs1 := removeFromAll uid (groupsOf st worldName) in
  let res := addEntryToGroup st worldName groupId uid in
  match lookupGroup groupId gs1 with
  | Some target =>
      if isEntryInGroup (entries target) uid
      then res.1 = false /\ groupsOf res.2 worldName = gs1
           /\ saveRequests res.2 = saveRequests st
      else res.1 = true /\ groupsOf res.2 worldName = pushEntry groupId uid gs1
           /\ saveRequests res.2 = S (saveRequests st)
  | None => res.1 = false /\ groupsOf res.2 worldName = gs1
            /\ saveRequests res.2 = saveRequests st
  end.
Proof.
  cbv zeta. unfold addEntryToGroup, getWorldGroups.
  rewrite groups_ensureWorldBook.
  destruct (lookupGroup groupId (removeFromAll uid (groupsOf st worldName)))
    as [target |]; [destruct (isEntryInGroup (entries target) uid) |];
    cbn [negb fst snd]; rewrite ?groupsOf_putWorldBook; auto.
  unfold saveSettings. cbn. unfold groupsOf; cbn. rewrite lookup_insert_eq. auto.
Qed.

(** C10 (as amended). [addEntryToGroup] is not atomic on failure.  For every
    world state, uid and target group id, the call first removes the first
    matching occurrence of the uid from every group (a group that does not
    list the uid stays as it is); only then, if the target exists and its
    remaining entries do not contain the uid, is the uid appended to the
    target and [true] returned; otherwise [false] is returned with the
    removals kept.  So a call with a group id absent from the mapping
    returns [false] and every group that listed the uid has lost an entry.
    When the target lists the uid at most once, a call with this existing
    target returns [true].  This is stated for a world name that reads a
    world book or nothing, and an absent group id is one that no object
    inherits from [Object.prototype]. *)
Theorem addEntryToGroup_not_atomic st worldName groupId uid :
  let gs := groupsOf st worldName in
  let res := addEntryToGroup st worldName groupId uid in
  readsWorldBook st worldName = true ->
  (forall k g, lookupGroup k gs = Some g ->
     lookupGroup k (removeFromAll uid gs)
     = Some (withEntries g (removeFirstMatch uid (entries g)))
     /\ (isEntryInGroup (entries g) uid = false ->
         lookupGroup k (removeFromAll uid gs) = Some g))
  /\ match lookupGroup groupId gs with
     | None =>
         inherited groupId = false ->
         res.1 = false
         /\ groupsOf res.2 worldName = removeFromAll uid gs
         /\ (forall k g, lookupGroup k gs = Some g ->
               isEntryInGroup (entries g) uid = true ->
               exists g', lookupGroup k (groupsOf res.2 worldName) = Some g'
                          /\ S (length (entries g')) = length (entries g))
     | Some target =>
         let rest := removeFirstMatch uid (entries target) in
         if isEntryInGroup rest uid
         then res.1 = false /\ groupsOf res.2 worldName = removeFromAll uid gs
         else res.1 = true
              /\ groupsOf res.2 worldName = pushEntry groupId uid (removeFromAll uid gs)
              /\ lookupGroup groupId (groupsOf res.2 worldName)
                 = Some (withEntries target (rest ++ [uid]))
     end
  /\ (forall target, lookupGroup groupId gs = Some target ->
       listedAtMostOnce uid (entries target) -> res.1 = true).
Proof.
  cbv zeta. intros _.
  pose proof (addEntryToGroup_spec st worldName groupId uid) as Hspec.
  cbv zeta in Hspec. rewrite lookupGroup_removeFromAll in Hspec.
  split; [| split].
  - intros k g Hk. rewrite lookupGroup_removeFromAll, Hk. cbn.
    split; [reflexivity |]. intros Habsent.
    rewrite (removeFirstMatch_absent _ _ Habsent). by destruct g.
  - destruct (lookupGroup groupId (groupsOf st worldName)) as [target |] eqn:Ht;
      cbn [fmap option_fmap option_map entries withEntries] in Hspec.
    + destruct (isEntryInGroup (removeFirstMatch uid (entries target)) uid).
      * tauto.
      * destruct Hspec as (H1 & H2 & _). repeat split; auto.
        rewrite H2. erewrite lookupGroup_pushEntry;
          [| by rewrite lookupGroup_removeFromAll, Ht]. reflexivity.
    + intros _. destruct Hspec as (H1 & H2 & _). repeat split; auto.
      intros k g Hk Hin. rewrite H2, lookupGroup_removeFromAll, Hk. cbn.
      eexists; split; [reflexivity |]. cbn. by apply removeFirstMatch_length.
  - intros target Ht Honce. rewrite Ht in Hspec.
    cbn [fmap option_fmap option_map entries withEntries] in Hspec.
    rewrite (removeFirstMatch_once _ _ Honce) in Hspec. tauto.
Qed.

Lemma addEntryToGroup_not_atomic_witness :
  (addEntryToGroup (oneGroupWorld [NInt 5]) "book" "g1" (NInt 5)).1 = true.
Proof.
  destruct (addEntryToGroup_not_atomic (oneGroupWorld [NInt 5]) "book" "g1" (NInt 5)
              eq_refl)
    as (_ & _ & H).
  apply (H {| name := "A"; collapsed := false; entries := [NInt 5] |}).
  - reflexivity.
  - unfold listedAtMostOnce. vm_compute. lia.
Defined.

(** C10 (as stated) fails for a group that lists the uid twice: the call
    with this existing group as target removes one occurrence only, appends
    nothing and returns [false]. *)
Lemma addEntryToGroup_listed_twice :
  (addEntryToGroup (oneGroupWorld [NInt 5; NInt 5]) "book" "g1" (NInt 5)).1 = false
  /\ lookupGroup "g1"
       (groupsOf (addEntryToGroup (oneGroupWorld [NInt 5; NInt 5]) "book" "g1"
                    (NInt 5)).2 "book")
     = Some {| name := "A"; collapsed := false; entries := [NInt 5] |}
  /\ isEntryInGroup [NInt 5] (NInt 5) = true.
Proof. repeat split; vm_compute; reflexivity. Qed.

End WorldInfo.

(** ** Anchor resolution *)

Section AnchorResolution.

Implicit Types (g : JsValue) (ordered items : list string) (grouped : gset string).

Lemma indexOf_bounds x ordered :
  (-1 <= indexOf x ordered < Z.of_nat (length ordered))%Z.
Proof.
  induction ordered as [| y rest IH]; cbn [indexOf length]; [lia |].
  destruct (String.eqb x y); [lia |].
  destruct (Z.eqb_spec (indexOf x rest) (-1)); lia.
Qed.

Lemma indexOf_absent x ordered : indexOf x ordered = (-1)%Z <-> x ∉ ordered.
Proof.
  induction ordered as [| y rest IH]; cbn [indexOf].
  - split; [intros _; apply not_elem_of_nil | done].
  - rewrite not_elem_of_cons. destruct (String.eqb_spec x y) as [-> | Hne].
    + split; [lia | tauto].
    + pose proof (indexOf_bounds x rest) as Hb.
      destruct (Z.eqb_spec (indexOf x rest) (-1)) as [E | E].
      * split; [intros _; split; [done | by apply IH] | done].
      * split; [lia | intros [_ Hx]; by apply IH in Hx].
Qed.

Lemma indexOf_lookup x ordered :
  x ∈ ordered -> ordered !! Z.to_nat (indexOf x ordered) = Some x.
Proof.
  induction ordered as [| y rest IH]; cbn [indexOf]; [by intros ?%elem_of_nil |].
  destruct (String.eqb_spec x y) as [-> | Hne]; [reflexivity |].
  intros [? | Hin]%elem_of_cons; [done |].
  pose proof (indexOf_bounds x rest) as Hb.
  destruct (Z.eqb_spec (indexOf x rest) (-1)) as [E | E].
  - by apply indexOf_absent in E.
  - replace (Z.to_nat (indexOf x rest + 1)) with (S (Z.to_nat (indexOf x rest)))
      by lia. cbn. auto.
Qed.

Lemma indexOf_present x ordered :
  x ∈ ordered -> (0 <= indexOf x ordered < Z.of_nat (length ordered))%Z.
Proof.
  intros Hin. pose proof (indexOf_bounds x ordered) as Hb.
  destruct (Z.eq_dec (indexOf x ordered) (-1)%Z) as [E | E]; [| lia].
  by apply indexOf_absent in E.
Qed.

Lemma getOrderedIdentifiers_nonEmpty items id :
  id ∈ getOrderedIdentifiers items -> nonEmpty id = true.
Proof. unfold getOrderedIdentifiers. by intros [? _]%list_elem_of_filter. Qed.

(** The inner loop of [getGroupedIdentifierSet]. *)
Lemma elem_of_span_loop ordered grouped (span : list Z) id :
  id ∈ foldl (fun acc i =>
                match ordered !! Z.to_nat i with
                | Some id => if nonEmpty id then acc ∪ {[id]} else acc
                | None => acc
                end) grouped span
  <-> id ∈ grouped
      \/ exists i, i ∈ span /\ ordered !! Z.to_nat i = Some id /\ nonEmpty id = true.
Proof.
  revert grouped. induction span as [| i rest IH]; intros grouped; cbn [foldl].
  - split; [auto | intros [? | (i & []%elem_of_nil & _)]; done].
  - rewrite IH. split.
    + intros [Hin | (j & Hj & Hl & Hne)].
      * destruct (ordered !! Z.to_nat i) as [id' |] eqn:Hl; [| auto].
        destruct (nonEmpty id') eqn:Hne; [| auto].
        apply elem_of_union in Hin as [? | ->%elem_of_singleton]; [auto |].
        right. exists i. split; [left | done].
      * right. exists j. split; [by right | done].
    + intros [Hin | (j & [-> | Hj]%elem_of_cons & Hl & Hne)].
      * left. destruct (ordered !! Z.to_nat i) as [id' |]; [| done].
        destruct (nonEmpty id'); [apply elem_of_union; by left | done].
      * left. rewrite Hl, Hne. apply elem_of_union. right. by apply elem_of_singleton.
      * right. eauto.
Qed.

(** A record with an absent anchor is dropped by both resolvers. *)
Lemma absent_anchor_skipped ordered index g :
  ~ anchorIn (get g "startIdentifier") ordered
  \/ ~ anchorIn (get g "endIdentifier") ordered ->
  resolveGrouping ordered index g = None
  /\ forall grouped, addGroupedIdentifiers ordered grouped g = grouped.
Proof.
  unfold anchorIn, resolveGrouping, addGroupedIdentifiers. intros Habs.
  destruct (truthy (get g "unresolved")); [done |]. cbn [negb].
  destruct (get g "startIdentifier") as [| | | |s| |]; try done.
  destruct (get g "endIdentifier") as [| | | |e| |]; try done.
  destruct (Z.eqb_spec (indexOf s ordered) (-1)) as [Es | Es]; [done |].
  destruct (Z.eqb_spec (indexOf e ordered) (-1)) as [Ee | Ee]; [done |].
  exfalso. destruct Habs as [H | H]; apply H; eexists; (split; [reflexivity |]).
  - destruct (decide (s ∈ ordered)); [done |]. by apply indexOf_absent in n.
  - destruct (decide (e ∈ ordered)); [done |]. by apply indexOf_absent in n.
Qed.

(** The members of a record whose two anchors are present. *)
Lemma present_anchors_span ordered index g s e :
  truthy (get g "unresolved") = false ->
  get g "startIdentifier" = JStr s -> get g "endIdentifier" = JStr e ->
  s ∈ ordered -> e ∈ ordered ->
  let si := indexOf s ordered in
  let ei := indexOf e ordered in
  resolveGrouping ordered index g
  = Some {| grouping := g; originalIndex := index; startIndex := si; endIndex := ei |}
  /\ (ordered !! Z.to_nat si = Some s /\ ordered !! Z.to_nat ei = Some e)
  /\ (0 <= Z.min si ei /\ Z.max si ei < Z.of_nat (length ordered))%Z
  /\ (forall id,
        id ∈ addGroupedIdentifiers ordered ∅ g
        <-> nonEmpty id = true
            /\ exists k : nat,
                 (Z.min si ei <= Z.of_nat k <= Z.max si ei)%Z
                 /\ ordered !! k = Some id).
Proof.
  intros Hflag Hs He Hsin Hein si ei.
  pose proof (indexOf_present s ordered Hsin) as Bs.
  pose proof (indexOf_present e ordered Hein) as Be.
  fold si in Bs. fold ei in Be.
  assert (Hchk : ((si =? -1)%Z || (ei =? -1)%Z) = false).
  { apply orb_false_iff. split; apply Z.eqb_neq; lia. }
  split; [| split; [| split]].
  - unfold resolveGrouping. rewrite Hflag, Hs, He. cbn [negb].
    fold si ei. rewrite Hchk. reflexivity.
  - split; by apply indexOf_lookup.
  - lia.
  - intros id. unfold addGroupedIdentifiers. rewrite Hflag, Hs, He.
    fold si ei. rewrite Hchk. rewrite elem_of_span_loop. split.
    + intros [[]%elem_of_empty | (i & Hi & Hl & Hne)]. split; [exact Hne |].
      apply elem_of_seqZ in Hi. exists (Z.to_nat i). split; [lia | done].
    + intros (Hne & k & Hk & Hl). right. exists (Z.of_nat k). split; [| split].
      * apply elem_of_seqZ. lia.
      * by rewrite Nat2Z.id.
      * exact Hne.
Qed.

(** Which anchor is stored as start and which as end does not matter. *)
Lemma swapped_anchors_same_members ordered grouped g g' s e :
  truthy (get g "unresolved") = truthy (get g' "unresolved") ->
  get g "startIdentifier" = JStr s -> get g "endIdentifier" = JStr e ->
  get g' "startIdentifier" = JStr e -> get g' "endIdentifier" = JStr s ->
  addGroupedIdentifiers ordered grouped g' = addGroupedIdentifiers ordered grouped g.
Proof.
  intros Hflag Hs He Hs' He'. unfold addGroupedIdentifiers.
  rewrite Hflag, Hs, He, Hs', He'.
  rewrite (orb_comm (indexOf e ordered =? -1)%Z).
  rewrite (Z.min_comm (indexOf e ordered)), (Z.max_comm (indexOf e ordered)).
  reflexivity.
Qed.

(** The set built by [getGroupedIdentifierSet] is the union of what each
    record contributes. *)
Lemma addGroupedIdentifiers_union ordered grouped g :
  addGroupedIdentifiers ordered grouped g
  = grouped ∪ addGroupedIdentifiers ordered ∅ g.
Proof.
  apply set_eq. intros id. rewrite elem_of_union.
  unfold addGroupedIdentifiers.
  destruct (truthy (get g "unresolved")); [set_solver |].
  destruct (get g "startIdentifier") as [| | | |s| |]; try set_solver.
  destruct (get g "endIdentifier") as [| | | |e| |]; try set_solver.
  destruct (_ || _); [set_solver |].
  rewrite !elem_of_span_loop. set_solver.
Qed.

Lemma elem_of_getGroupedIdentifierSet apiInfo presetName ordered ids id :
  id ∈ getGroupedIdentifierSet apiInfo presetName ordered ids
  <-> exists g,
        g ∈ getAllPresetGroupings apiInfo presetName (identifiersToJs ordered) ids
        /\ id ∈ addGroupedIdentifiers ordered ∅ g.
Proof.
  unfold getGroupedIdentifierSet.
  generalize (getAllPresetGroupings apiInfo presetName (identifiersToJs ordered) ids).
  intros gs.
  assert (Hgen : forall grouped,
    id ∈ foldl (addGroupedIdentifiers ordered) grouped gs
    <-> id ∈ grouped \/ exists g, g ∈ gs /\ id ∈ addGroupedIdentifiers ordered ∅ g).
  { induction gs as [| g rest IH]; intros grouped; cbn [foldl].
    - split; [auto | intros [? | (g & []%elem_of_nil & _)]; done].
    - rewrite IH, addGroupedIdentifiers_union, elem_of_union. split.
      + intros [[? | ?] | (g' & ? & ?)]; [auto | right; exists g | right; exists g'];
          split; auto; (by left) || (by right).
      + intros [? | (g' & [-> | ?]%elem_of_cons & ?)]; [auto | auto |].
        right. eauto. }
  rewrite Hgen. split; [intros [[]%elem_of_empty | ?]; done | auto].
Qed.

Lemma insertByStartDesc_Permutation r l : insertByStartDesc r l ≡ₚ r :: l.
Proof.
  induction l as [|x l IH]; cbn; [done|].
  destruct (_ <=? _)%Z; [done|]. rewrite IH. apply perm_swap.
Qed.

Lemma sortByStartDesc_Permutation l : sortByStartDesc l ≡ₚ l.
Proof.
  induction l as [|x l IH]; cbn; [done|].
  by rewrite insertByStartDesc_Permutation, IH.
Qed.

Lemma elem_of_omap_imap {A B} (f : nat -> A -> option B) (l : list A) (y : B) :
  y ∈ omap (fun r : option B => r) (imap f l)
  <-> exists i x, l !! i = Some x /\ f i x = Some y.
Proof.
  revert f. induction l as [|x0 l IH]; intros f; cbn [imap omap list_omap].
  - split; [intros H; by apply elem_of_nil in H|intros (i & x & H & _); done].
  - destruct (f 0 x0) as [y0|] eqn:Hf0.
    + rewrite elem_of_cons, IH. split.
      * intros [->|(i & x & Hl & Hf)]; [by exists 0, x0|by exists (S i), x].
      * intros ([|i] & x & Hl & Hf); cbn in Hl.
        -- injection Hl as <-. left. congruence.
        -- right. by exists i, x.
    + rewrite IH. split.
      * intros (i & x & Hl & Hf). by exists (S i), x.
      * intros ([|i] & x & Hl & Hf); cbn in Hl.
        -- injection Hl as <-. congruence.
        -- by exists i, x.
Qed.

Lemma resolveGrouping_Some ordered index g r :
  resolveGrouping ordered index g = Some r ->
  grouping r = g /\ originalIndex r = index
  /\ exists s e,
       truthy (get g "unresolved") = false
       /\ get g "startIdentifier" = JStr s /\ get g "endIdentifier" = JStr e
       /\ s ∈ ordered /\ e ∈ ordered
       /\ startIndex r = indexOf s ordered /\ endIndex r = indexOf e ordered.
Proof.
  unfold resolveGrouping.
  destruct (truthy (get g "unresolved")); [discriminate|]. cbn [negb].
  destruct (get g "startIdentifier") as [| | | |s| |]; try discriminate.
  destruct (get g "endIdentifier") as [| | | |e| |]; try discriminate.
  destruct (Z.eqb_spec (indexOf s ordered) (-1)) as [|Hs]; [discriminate|].
  destruct (Z.eqb_spec (indexOf e ordered) (-1)) as [|He]; [discriminate|].
  intros [= <-]. cbn. split; [done|]. split; [done|]. exists s, e.
  repeat split; try done.
  - destruct (decide (s ∈ ordered)) as [|Hn]; [done|]. by apply indexOf_absent in Hn.
  - destruct (decide (e ∈ ordered)) as [|Hn]; [done|]. by apply indexOf_absent in Hn.
Qed.

Lemma elem_of_resolveGroupings ordered groupings r :
  r ∈ resolveGroupings ordered groupings <->
  exists i g, groupings !! i = Some g /\ resolveGrouping ordered i g = Some r.
Proof.
  unfold resolveGroupings. rewrite sortByStartDesc_Permutation.
  apply elem_of_omap_imap.
Qed.

(** C7. Anchor resolution is order-independent and inclusive.  For every
    group record read from the store and every ordered-key list: if either
    anchor is absent from the list, the record resolves to nothing (it is
    dropped from the resolved groupings and adds no member); otherwise it
    resolves to the two positions of its anchors and its members are exactly
    the identifiers at the positions [min(startIndex, endIndex)] through
    [max(startIndex, endIndex)] inclusive, the same for the record with the
    two anchors exchanged.  (An identifier is a non-empty string; the lists
    read from the live list hold nothing else.)  The set returned by
    [getGroupedIdentifierSet] is the union of these member sets over the
    records of the preset, and the resolved groupings of a pass are exactly
    what the records of the list resolve to: none for a record with an
    absent anchor, the one with the two positions for a record whose
    anchors are present. *)
Theorem anchor_resolution raw keysJs newId g ordered index :
  normalizeForRead raw keysJs newId = Some g ->
  (~ anchorIn (get g "startIdentifier") ordered
   \/ ~ anchorIn (get g "endIdentifier") ordered ->
   resolveGrouping ordered index g = None
   /\ forall grouped, addGroupedIdentifiers ordered grouped g = grouped)
  /\ (forall s e,
       get g "startIdentifier" = JStr s -> get g "endIdentifier" = JStr e ->
       s ∈ ordered -> e ∈ ordered ->
       let si := indexOf s ordered in
       let ei := indexOf e ordered in
       resolveGrouping ordered index g
       = Some {| grouping := g; originalIndex := index;
                 startIndex := si; endIndex := ei |}
       /\ (ordered !! Z.to_nat si = Some s /\ ordered !! Z.to_nat ei = Some e)
       /\ (0 <= Z.min si ei /\ Z.max si ei < Z.of_nat (length ordered))%Z
       /\ (forall id,
             id ∈ addGroupedIdentifiers ordered ∅ g
             <-> nonEmpty id = true
                 /\ exists k : nat,
                      (Z.min si ei <= Z.of_nat k <= Z.max si ei)%Z
                      /\ ordered !! k = Some id)
       /\ (forall items, ordered = getOrderedIdentifiers items ->
           forall id,
             id ∈ addGroupedIdentifiers ordered ∅ g
             <-> exists k : nat,
                   (Z.min si ei <= Z.of_nat k <= Z.max si ei)%Z
                   /\ ordered !! k = Some id)
       /\ (forall g',
             truthy (get g' "unresolved") = false ->
             get g' "startIdentifier" = JStr e -> get g' "endIdentifier" = JStr s ->
             addGroupedIdentifiers ordered ∅ g' = addGroupedIdentifiers ordered ∅ g
             /\ exists r',
                  resolveGrouping ordered index g' = Some r'
                  /\ spanStart r' = Z.min si ei /\ spanEnd r' = Z.max si ei))
  /\ (forall apiInfo presetName ids id,
       id ∈ getGroupedIdentifierSet apiInfo presetName ordered ids
       <-> exists g',
             g' ∈ getAllPresetGroupings apiInfo presetName
                    (identifiersToJs ordered) ids
             /\ id ∈ addGroupedIdentifiers ordered ∅ g')
  /\ (forall groupings,
       groupings !! index = Some g ->
       (~ anchorIn (get g "startIdentifier") ordered
        \/ ~ anchorIn (get g "endIdentifier") ordered ->
        forall r, r ∈ resolveGroupings ordered groupings -> originalIndex r <> index)
       /\ (forall s e,
             get g "startIdentifier" = JStr s -> get g "endIdentifier" = JStr e ->
             s ∈ ordered -> e ∈ ordered ->
             {| grouping := g; originalIndex := index;
                startIndex := indexOf s ordered; endIndex := indexOf e ordered |}
             ∈ resolveGroupings ordered groupings))
  /\ (forall groupings r,
       r ∈ resolveGroupings ordered groupings
       <-> exists i g',
             groupings !! i = Some g' /\ resolveGrouping ordered i g' = Some r).
Proof.
  intros Hread. split; [apply absent_anchor_skipped |].
  assert (Hflagged : forall s e,
            get g "startIdentifier" = JStr s -> get g "endIdentifier" = JStr e ->
            truthy (get g "unresolved") = false).
  { intros s e Hs He.
    erewrite normalizeForRead_resolved_unflagged; [reflexivity | exact Hread |].
    unfold resolvedRecord. rewrite Hs, He. reflexivity. }
  split; [| split; [intros; apply elem_of_getGroupedIdentifierSet |
                    split; [| intros; apply elem_of_resolveGroupings]]].
  2: { intros groupings Hg. split.
       - intros Habs r Hr Hidx.
         apply elem_of_resolveGroupings in Hr as (i & g' & Hg' & Hres).
         pose proof (resolveGrouping_Some _ _ _ _ Hres) as (_ & Hi & _).
         rewrite Hidx in Hi. subst i. rewrite Hg in Hg'. injection Hg' as <-.
         destruct (absent_anchor_skipped ordered index g Habs) as [Hnone _].
         congruence.
       - intros s e Hs He Hsin Hein. apply elem_of_resolveGroupings.
         exists index, g. split; [exact Hg |].
         by destruct (present_anchors_span ordered index g s e (Hflagged s e Hs He)
                        Hs He Hsin Hein) as (Hres & _). }
  intros s e Hs He Hsin Hein si ei.
  pose proof (Hflagged s e Hs He) as Hflag.
  destruct (present_anchors_span ordered index g s e Hflag Hs He Hsin Hein)
    as (Hres & Hpos & Hbounds & Hmem).
  split; [exact Hres |]. split; [exact Hpos |].
  split; [exact Hbounds |]. split; [exact Hmem |]. split.
  - intros items Hitems id. rewrite Hmem. split; [tauto |].
    intros (k & Hk & Hl). split; [| eauto].
    apply (getOrderedIdentifiers_nonEmpty items). rewrite <- Hitems.
    by eapply list_elem_of_lookup_2.
  - intros g' Hflag' Hs' He'. split.
    + apply (swapped_anchors_same_members ordered ∅ g g' s e); congruence.
    + destruct (present_anchors_span ordered index g' e s Hflag' Hs' He' Hein Hsin)
        as (Hres' & _).
      eexists. split; [exact Hres' |]. unfold spanStart, spanEnd; cbn.
      fold si ei. lia.
Qed.

Lemma anchor_resolution_witness :
  resolveGrouping ["a"; "b"; "c"; "d"] 0 (anchorRecord "d" "b")
  = Some {| grouping := anchorRecord "d" "b"; originalIndex := 0;
            startIndex := 3; endIndex := 1 |}
  /\ resolveGrouping ["a"; "c"] 0 (anchorRecord "d" "b") = None.
Proof.
  split.
  - destruct (anchor_resolution (anchorRecord "d" "b") keysABCD "n" (anchorRecord "d" "b")
                ["a"; "b"; "c"; "d"] 0 eq_refl) as (_ & Hpresent & _).
    destruct (Hpresent "d" "b" eq_refl eq_refl) as (Hres & _).
    + repeat constructor.
    + repeat constructor.
    + exact Hres.
  - destruct (anchor_resolution (anchorRecord "d" "b") keysABCD "n" (anchorRecord "d" "b")
                ["a"; "c"] 0 eq_refl) as (Habsent & _).
    destruct Habsent as [Hres _]; [| exact Hres].
    left. intros (s & [= <-] & Hin).
    apply list_elem_of_In in Hin. cbn in Hin. intuition discriminate.
Defined.

End AnchorResolution.

(** ** The reconciliation pass *)

(** Case analysis on the branches of [applyGroupingToList]. *)
Ltac pass_branches :=
  unfold applyGroupingToList, finish; cbv zeta;
  repeat match goal with
         | |- context [match getLoadedPresetName ?a with _ => _ end] =>
             destruct (getLoadedPresetName a) eqn:?
         | |- context [let '(_, _) := zeroResolvedRetry ?s ?p in _] =>
             destruct (zeroResolvedRetry s p) eqn:?
         | |- context [if ?c then _ else _] => destruct c eqn:?
         end;
  cbn [outcome stateAfter listAfter effects].

Section Reconciliation.

Implicit Types (env : Env) (st : EngineState) (lc : ListContainer).

(** The identifier drawn for a record without id does not show in its
    signature, nor does it decide whether the entry is kept. *)
Lemma normalizeForRead_newId entry keys newId newId' :
  match normalizeForRead entry keys newId with
  | Some r => exists r', normalizeForRead entry keys newId' = Some r'
                         /\ groupingKeyOf r' = groupingKeyOf r
  | None => normalizeForRead entry keys newId' = None
  end.
Proof.
  unfold normalizeForRead.
  destruct (isPlainObject entry); cbn [negb]; [| reflexivity].
  destruct (isLegacyIndexGrouping entry).
  - destruct (isString _ && isString _); eexists; split; reflexivity.
  - destruct (isIdentifierAnchorGrouping entry); [| reflexivity].
    destruct (truthy _ && truthy _); eexists; split; reflexivity.
Qed.

Lemma mapNormalize_read_keys entries keys ids ids' :
  map groupingKeyOf (mapNormalize normalizeForRead entries keys ids)
  = map groupingKeyOf (mapNormalize normalizeForRead entries keys ids').
Proof.
  unfold mapNormalize. revert ids ids'.
  induction entries as [| entry rest IH]; intros ids ids'; [reflexivity |].
  cbn [imap omap list_omap].
  pose proof (normalizeForRead_newId entry keys (ids 0) (ids' 0)) as Hid.
  destruct (normalizeForRead entry keys (ids 0)) as [r |].
  - destruct Hid as (r' & -> & Hkey). cbn [map]. rewrite Hkey. f_equal. apply IH.
  - rewrite Hid. apply IH.
Qed.

Lemma getAllPresetGroupings_keys apiInfo presetName keys ids ids' :
  map groupingKeyOf (getAllPresetGroupings apiInfo presetName keys ids)
  = map groupingKeyOf (getAllPresetGroupings apiInfo presetName keys ids').
Proof.
  unfold getAllPresetGroupings.
  destruct (getPreset apiInfo presetName) as [preset |]; [| reflexivity].
  destruct (negb (truthy (lookupProp "extensions" preset))); [reflexivity |].
  destruct (negb (truthy _)); [reflexivity |].
  apply mapNormalize_read_keys.
Qed.

(** The signature and the number of records do not depend on the drawn
    identifiers. *)
Lemma signature_ids apiInfo presetName ordered ids ids' :
  computeGroupingSignature presetName ordered
    (getAllPresetGroupings apiInfo presetName (identifiersToJs ordered) ids)
  = computeGroupingSignature presetName ordered
      (getAllPresetGroupings apiInfo presetName (identifiersToJs ordered) ids').
Proof.
  unfold computeGroupingSignature.
  by rewrite (getAllPresetGroupings_keys _ _ _ ids ids').
Qed.

Lemma length_groupings_ids apiInfo presetName keys ids ids' :
  length (getAllPresetGroupings apiInfo presetName keys ids)
  = length (getAllPresetGroupings apiInfo presetName keys ids').
Proof.
  rewrite <- (length_map groupingKeyOf), (getAllPresetGroupings_keys _ _ _ ids ids').
  apply length_map.
Qed.

Lemma Forall_omap_imap {A B} (P : B -> Prop) (f : nat -> A -> option B) (l : list A) :
  (forall i x y, f i x = Some y -> P y) ->
  Forall P (omap (fun r : option B => r) (imap f l)).
Proof.
  revert f. induction l as [| x rest IH]; intros f Hf; [constructor |].
  cbn [imap omap list_omap]. destruct (f 0 x) as [y |] eqn:E.
  - constructor; [by eapply Hf | apply IH; intros i; apply (Hf (S i))].
  - apply IH. intros i. apply (Hf (S i)).
Qed.

Lemma Forall_insertByStartDesc (P : Resolved -> Prop) r l :
  P r -> Forall P l -> Forall P (insertByStartDesc r l).
Proof.
  intros Hr. induction 1 as [| x rest Hx Hrest IH]; cbn.
  - by constructor.
  - destruct (_ <=? _)%Z; repeat constructor; auto.
Qed.

Lemma Forall_sortByStartDesc (P : Resolved -> Prop) l :
  Forall P l -> Forall P (sortByStartDesc l).
Proof.
  induction 1; cbn; [constructor | by apply Forall_insertByStartDesc].
Qed.

(** Every resolved grouping spans positions of the ordered identifiers. *)
Lemma resolveGroupings_in_range ordered groupings :
  Forall (fun r => (0 <= spanStart r /\ spanEnd r < Z.of_nat (length ordered))%Z)
         (resolveGroupings ordered groupings).
Proof.
  unfold resolveGroupings. apply Forall_sortByStartDesc, Forall_omap_imap.
  intros i g r. unfold resolveGrouping.
  destruct (negb _); [| discriminate].
  destruct (get g "startIdentifier") as [| | | |s| |]; try discriminate.
  destruct (get g "endIdentifier") as [| | | |e| |]; try discriminate.
  destruct (Z.eqb_spec (indexOf s ordered) (-1)); [discriminate |].
  destruct (Z.eqb_spec (indexOf e ordered) (-1)); [discriminate |].
  intros [= <-]. unfold spanStart, spanEnd; cbn.
  pose proof (indexOf_bounds s ordered). pose proof (indexOf_bounds e ordered). lia.
Qed.

Lemma length_getOrderedIdentifiers items :
  length (getOrderedIdentifiers items) <= length items.
Proof. apply length_filter. Qed.

(** [createGroupUI] is reached for every resolved grouping. *)
Lemma length_createAllGroupUi items resolved :
  Forall (fun r => (0 <= spanStart r /\ spanEnd r < Z.of_nat (length items))%Z) resolved ->
  length (createAllGroupUi items resolved) = length resolved.
Proof.
  unfold createAllGroupUi. induction 1 as [| r rest [H0 H1] _ IH]; [reflexivity |].
  cbn [omap list_omap].
  destruct (Z.ltb_spec (spanStart r) 0); [lia |].
  destruct (Z.geb_spec (spanEnd r) (Z.of_nat (length items))); [lia |].
  cbn. by rewrite IH.
Qed.

Lemma length_eqb_zero {A} (l : list A) : (length l =? 0) = false <-> l <> [].
Proof. destruct l; cbn; split; congruence. Qed.

(** What a pass that rebuilds has found and what it leaves. *)
Lemma rebuilt_inversion env st lc :
  let r := applyGroupingToList env st (Some lc) in
  outcome r = Rebuilt ->
  exists presetName,
    let ordered := getOrderedIdentifiers (items lc) in
    let preGroupings :=
      getAllPresetGroupings (apiInfo env) presetName (identifiersToJs ordered)
        (newIds env 0) in
    let resolved :=
      resolveGroupings ordered
        (getAllPresetGroupings (apiInfo env) presetName (identifiersToJs ordered)
           (newIds env 1)) in
    entryGroupingEnabled st = true
    /\ getLoadedPresetName (apiInfo env) = Some presetName
    /\ items lc <> []
    /\ hasDuplicates ordered = false
    /\ preGroupings <> []
    /\ resolved <> []
    /\ stateAfter r
       = withLastApplied (withRetry (withApplying st) None 0)
           (computeGroupingSignature presetName ordered preGroupings)
           presetName (node lc)
    /\ listAfter r
       = Some (withGroupUi (cleanupGroupingUi lc)
                 (createAllGroupUi (items lc) resolved)).
Proof.
  pass_branches; try discriminate; intros _;
    eexists; cbv zeta; rewrite <- !length_eqb_zero;
    repeat split; try reflexivity; try eassumption;
    by apply negb_false_iff.
Qed.

(** A rebuild puts at least one group into the list. *)
Lemma createAllGroupUi_nonempty items groupings :
  resolveGroupings (getOrderedIdentifiers items) groupings <> [] ->
  createAllGroupUi items (resolveGroupings (getOrderedIdentifiers items) groupings)
  <> [].
Proof.
  intros Hne Hnil. apply Hne. apply length_zero_iff_nil.
  rewrite <- (length_createAllGroupUi items), Hnil; [reflexivity |].
  eapply Forall_impl; [apply resolveGroupings_in_range |].
  intros r [H0 H1]. pose proof (length_getOrderedIdentifiers items). cbn beta. lia.
Qed.

(** The gate: when the presentation exists and signature, preset and list
    node are the last applied ones, the pass returns before any cleanup. *)
Lemma skip_when_applied env st lc presetName ids0 :
  let ordered := getOrderedIdentifiers (items lc) in
  entryGroupingEnabled st = true ->
  getLoadedPresetName (apiInfo env) = Some presetName ->
  items lc <> [] ->
  hasDuplicates ordered = false ->
  getAllPresetGroupings (apiInfo env) presetName (identifiersToJs ordered) ids0 <> [] ->
  hasGroupingUi lc = true ->
  lastAppliedGroupingSignature st
  = Some (computeGroupingSignature presetName ordered
            (getAllPresetGroupings (apiInfo env) presetName
               (identifiersToJs ordered) ids0)) ->
  lastAppliedGroupingPreset st = Some presetName ->
  lastAppliedGroupingListNode st = Some (node lc) ->
  applyGroupingToList env st (Some lc)
  = {| stateAfter := withApplying st; listAfter := Some lc;
       outcome := SignatureSkip;
       effects := [BindTripleClickEvents; SetTimeout ClearApplyingFlag 0] |}.
Proof.
  intros ordered Hen Hpreset Hitems Hdup Hgs Hui Hsig Hlast Hnode.
  unfold applyGroupingToList, finish. rewrite Hen, Hpreset. cbn [negb].
  apply length_eqb_zero in Hitems. rewrite Hitems. fold ordered. rewrite Hdup.
  assert (Hlen : (length (getAllPresetGroupings (apiInfo env) presetName
                            (identifiersToJs ordered) (newIds env 0)) =? 0) = false).
  { apply length_eqb_zero. intros Hnil. apply Hgs, length_zero_iff_nil.
    by rewrite (length_groupings_ids _ _ _ ids0 (newIds env 0)), Hnil. }
  rewrite Hlen, Hui. cbn [lastAppliedGroupingSignature lastAppliedGroupingPreset
                          lastAppliedGroupingListNode withApplying].
  rewrite Hsig, Hlast, Hnode. cbn [eqOptString eqOptNode].
  rewrite (signature_ids _ _ _ ids0 (newIds env 0)).
  rewrite !String.eqb_refl, Nat.eqb_refl. reflexivity.
Qed.

(** Only a rebuild brings the presentation into a list that had none. *)
Lemma presentation_appears_by_rebuild env st lc :
  let r := applyGroupingToList env st (Some lc) in
  hasGroupingUi lc = false ->
  (exists lc1, listAfter r = Some lc1 /\ hasGroupingUi lc1 = true) ->
  outcome r = Rebuilt.
Proof.
  pass_branches; intros Hno (lc1 & [= <-] & Hui); try reflexivity;
    cbn in Hui; congruence.
Qed.

(** A rebuild leaves the presentation, and the next pass on unchanged data
    is gated. *)
Lemma rebuilt_then_gated env env' st lc :
  apiInfo env' = apiInfo env ->
  let first := applyGroupingToList env st (Some lc) in
  outcome first = Rebuilt ->
  (exists lc1, listAfter first = Some lc1 /\ hasGroupingUi lc1 = true
               /\ node lc1 = node lc /\ items lc1 = items lc)
  /\ forall st1,
       st1 = stateAfter first \/ st1 = clearApplyingFlag (stateAfter first) ->
       let second := applyGroupingToList env' st1 (listAfter first) in
       outcome second = SignatureSkip
       /\ effects second = [BindTripleClickEvents; SetTimeout ClearApplyingFlag 0]
       /\ listAfter second = listAfter first
       /\ stateAfter second = stateAfter first.
Proof.
  intros Hapi first Hrebuilt.
  destruct (rebuilt_inversion env st lc Hrebuilt)
    as (presetName & Hen & Hpreset & Hitems & Hdup & Hpre & Hres & Hst & Hlist).
  cbv zeta in *. fold first in Hst, Hlist.
  assert (Hui : hasGroupingUi
                  (withGroupUi (cleanupGroupingUi lc)
                     (createAllGroupUi (items lc)
                        (resolveGroupings (getOrderedIdentifiers (items lc))
                           (getAllPresetGroupings (apiInfo env) presetName
                              (identifiersToJs (getOrderedIdentifiers (items lc)))
                              (newIds env 1))))) = true).
  { unfold hasGroupingUi; cbn [groupUi withGroupUi].
    pose proof (createAllGroupUi_nonempty (items lc) _ Hres) as Hne.
    destruct (createAllGroupUi _ _); [done | reflexivity]. }
  split; [eexists; split; [exact Hlist |]; split; [exact Hui | split; reflexivity] |].
  intros st1 Hst1. rewrite Hlist.
  rewrite (skip_when_applied env' st1 _ presetName (newIds env 0));
    rewrite ?Hapi; try assumption.
  - cbn [outcome effects listAfter stateAfter]. repeat split; try reflexivity.
    destruct Hst1 as [-> | ->]; rewrite Hst; reflexivity.
  - destruct Hst1 as [-> | ->]; rewrite Hst; exact Hen.
  - destruct Hst1 as [-> | ->]; rewrite Hst; reflexivity.
  - destruct Hst1 as [-> | ->]; rewrite Hst; reflexivity.
  - destruct Hst1 as [-> | ->]; rewrite Hst; reflexivity.
Qed.

(** C5 (as amended). Signature-gated idempotence.  Let the pass run twice in
    succession with no intervening change to preset name, group records,
    ordered identifiers or list container (the second call may come before
    or after the timer that clears the applying flag).  If the list had no
    presentation before the first call and has one after it, the first call
    has performed a rebuild and the second call is a no-op skip: it returns
    before any cleanup or rebuild because signature, preset name and
    container equal the last-applied ones.  More generally, whenever the
    first call performs a rebuild, the presentation exists after it and the
    second call is that skip. *)
Theorem rebuild_then_skip env env' st lc :
  apiInfo env' = apiInfo env ->
  let first := applyGroupingToList env st (Some lc) in
  let skipAfter st1 :=
    let second := applyGroupingToList env' st1 (listAfter first) in
    outcome second = SignatureSkip
    /\ effects second = [BindTripleClickEvents; SetTimeout ClearApplyingFlag 0]
    /\ listAfter second = listAfter first
    /\ stateAfter second = stateAfter first in
  (hasGroupingUi lc = false ->
   (exists lc1, listAfter first = Some lc1 /\ hasGroupingUi lc1 = true) ->
   outcome first = Rebuilt
   /\ skipAfter (stateAfter first)
   /\ skipAfter (clearApplyingFlag (stateAfter first)))
  /\ (outcome first = Rebuilt ->
      (exists lc1, listAfter first = Some lc1 /\ hasGroupingUi lc1 = true
                   /\ node lc1 = node lc /\ items lc1 = items lc)
      /\ skipAfter (stateAfter first)
      /\ skipAfter (clearApplyingFlag (stateAfter first))).
Proof.
  intros Hapi first skipAfter.
  assert (Hgen : outcome first = Rebuilt ->
                 (exists lc1, listAfter first = Some lc1 /\ hasGroupingUi lc1 = true
                              /\ node lc1 = node lc /\ items lc1 = items lc)
                 /\ skipAfter (stateAfter first)
                 /\ skipAfter (clearApplyingFlag (stateAfter first))).
  { intros Hrebuilt.
    destruct (rebuilt_then_gated env env' st lc Hapi Hrebuilt) as [Hui Hskip].
    split; [exact Hui |]. split; apply Hskip; auto. }
  split; [| exact Hgen].
  intros Hno Hafter.
  pose proof (presentation_appears_by_rebuild env st lc Hno Hafter) as Hrebuilt.
  split; [exact Hrebuilt |]. by apply Hgen.
Qed.

Lemma rebuild_then_skip_witness :
  outcome scenarioFirstPass = Rebuilt
  /\ outcome (applyGroupingToList (scenarioEnv scenarioIds true (fun _ => scenarioIds))
                (stateAfter scenarioFirstPass) (listAfter scenarioFirstPass))
     = SignatureSkip.
Proof.
  destruct (rebuild_then_skip (scenarioEnv scenarioIds true (fun _ => scenarioIds))
              (scenarioEnv scenarioIds true (fun _ => scenarioIds))
              initialState (scenarioList scenarioKeys) eq_refl) as [Hfresh _].
  destruct Hfresh as (Hfirst & (Hskip & _) & _).
  - reflexivity.
  - eexists. split; [vm_compute; reflexivity | reflexivity].
  - split; [exact Hfirst | exact Hskip].
Defined.

(** C5 (as stated) fails when the first of the two calls already finds the
    configuration applied: after one rebuild, the next two passes run in
    succession with nothing changed, the presentation exists after the first
    of them, and that first one is a skip, not a rebuild. *)
Lemma applied_configuration_first_call_skips :
  let env := scenarioEnv scenarioIds true (fun _ => scenarioIds) in
  let first := applyGroupingToList env (stateAfter scenarioFirstPass)
                 (listAfter scenarioFirstPass) in
  let second := applyGroupingToList env (stateAfter first) (listAfter first) in
  (hasGroupingUi <$> listAfter first) = Some true
  /\ outcome first = SignatureSkip
  /\ outcome first <> Rebuilt
  /\ outcome second = SignatureSkip.
Proof.
  cbv zeta.
  assert (E : outcome (applyGroupingToList
                         (scenarioEnv scenarioIds true (fun _ => scenarioIds))
                         (stateAfter scenarioFirstPass) (listAfter scenarioFirstPass))
              = SignatureSkip) by (vm_compute; reflexivity).
  repeat split; try (vm_compute; reflexivity). rewrite E. discriminate.
Qed.

End Reconciliation.

(** ** The zero-resolved retry *)

Section ZeroResolvedRetry.

Implicit Types (env : Env) (st : EngineState) (lc : ListContainer).

Lemma eqOptString_true a b : eqOptString a b = true <-> a = Some b.
Proof.
  destruct a as [x |]; cbn; [| split; discriminate].
  rewrite String.eqb_eq. split; congruence.
Qed.

(** The branch taken when nothing resolved: unless the counter has run out
    for this preset, it counts one more attempt (starting again from zero
    for another preset) and schedules the two follow-up passes. *)
Lemma zeroResolvedRetry_spec st presetName :
  let res := zeroResolvedRetry st presetName in
  if retryExhausted st presetName
  then res = (st, [])
  else res.2 = [SetTimeout ScheduleApplyGrouping 450;
                SetTimeout ScheduleApplyGrouping 1200]
       /\ res.1
          = withRetry st (Some presetName)
              (if eqOptString (zeroResolvedRetryPreset st) presetName
               then zeroResolvedRetryCount st + 1 else 1).
Proof.
  unfold zeroResolvedRetry, retryExhausted. cbv zeta.
  destruct (eqOptString (zeroResolvedRetryPreset st) presetName) eqn:Hp;
    cbn [negb andb].
  - apply eqOptString_true in Hp.
    destruct (Nat.leb_spec 3 (zeroResolvedRetryCount st)) as [Hc | Hc].
    + destruct (Nat.ltb_spec (zeroResolvedRetryCount st) 3); [lia | reflexivity].
    + destruct (Nat.ltb_spec (zeroResolvedRetryCount st) 3); [| lia].
      cbn [fst snd]. by rewrite Hp.
  - cbn [zeroResolvedRetryCount zeroResolvedRetryPreset withRetry fst snd Nat.ltb Nat.leb].
    split; reflexivity.
Qed.

Lemma omap_retry_created (created : list GroupUi) :
  omap (fun e => match e with
                 | SetTimeout ScheduleApplyGrouping delay => Some delay
                 | _ => None
                 end) (map CreateGroupUi created) = [].
Proof. induction created; cbn; auto. Qed.

(** What a pass that resolved nothing has found and what it does. *)
Lemma zero_resolved_inversion env st lc :
  let r := applyGroupingToList env st (Some lc) in
  outcome r = ZeroResolved ->
  exists presetName,
    let ordered := getOrderedIdentifiers (items lc) in
    let groupings :=
      getAllPresetGroupings (apiInfo env) presetName (identifiersToJs ordered)
        (newIds env 1) in
    let unresolvedCount :=
      length (filter (fun g => truthy (get g "unresolved") = true) groupings) in
    let retry := zeroResolvedRetry (withApplying st) presetName in
    getLoadedPresetName (apiInfo env) = Some presetName
    /\ groupings <> []
    /\ resolveGroupings ordered groupings = []
    /\ stateAfter r = retry.1
    /\ effects r
       = [CleanupGroupingUi]
           ++ (if negb (unresolvedCount =? 0) && toastrAvailable env
               then [ToastWarning unresolvedCount] else [])
           ++ retry.2
           ++ [BindTripleClickEvents; SetTimeout ClearApplyingFlag 0].
Proof.
  pass_branches; try discriminate; intros _;
    cbn [cleanupGroupingUi withGroupUi items node] in *;
    eexists; cbv zeta; rewrite <- !length_eqb_zero;
    (split; [reflexivity |]); (split; [eassumption |]);
    (split; [by apply length_zero_iff_nil, Nat.eqb_eq |]);
    match goal with H : zeroResolvedRetry _ _ = _ |- _ => rewrite H end;
    cbn [fst snd];
    match goal with H : (_ && toastrAvailable _) = _ |- _ => rewrite H end;
    (split; [reflexivity |]);
    cbn [app]; rewrite <- ?app_assoc; reflexivity.
Qed.

(** Every other pass that does not rebuild leaves the counter alone and
    schedules no retry. *)
Lemma retry_untouched env st found :
  let r := applyGroupingToList env st found in
  outcome r <> ZeroResolved -> outcome r <> Rebuilt ->
  zeroResolvedRetryPreset (stateAfter r) = zeroResolvedRetryPreset st
  /\ zeroResolvedRetryCount (stateAfter r) = zeroResolvedRetryCount st
  /\ retryDelays r = [].
Proof.
  destruct found as [lc |]; unfold retryDelays;
    pass_branches; intros H1 H2; try done; repeat split; reflexivity.
Qed.

(** A pass that resolves at least one group clears the counter. *)
Lemma rebuilt_resets_retry env st found :
  let r := applyGroupingToList env st found in
  outcome r = Rebuilt ->
  zeroResolvedRetryPreset (stateAfter r) = None
  /\ zeroResolvedRetryCount (stateAfter r) = 0
  /\ retryDelays r = [].
Proof.
  destruct found as [lc |]; unfold retryDelays;
    pass_branches; intros H1; try done; repeat split; try reflexivity;
    cbn [app omap list_omap]; rewrite ?omap_app, omap_retry_created; reflexivity.
Qed.

(** With records in the store, none of which resolves, a pass on a list
    without presentation ends in the zero-resolved branch. *)
Lemma zero_resolved_reached env st lc presetName :
  let ordered := getOrderedIdentifiers (items lc) in
  let groupings :=
    getAllPresetGroupings (apiInfo env) presetName (identifiersToJs ordered)
      (newIds env 1) in
  entryGroupingEnabled st = true ->
  getLoadedPresetName (apiInfo env) = Some presetName ->
  items lc <> [] ->
  hasDuplicates ordered = false ->
  hasGroupingUi lc = false ->
  groupings <> [] ->
  resolveGroupings ordered groupings = [] ->
  outcome (applyGroupingToList env st (Some lc)) = ZeroResolved.
Proof.
  intros ordered groupings Hen Hp Hitems Hdup Hui Hgs Hres.
  assert (Hpre : (length (getAllPresetGroupings (apiInfo env) presetName
                            (identifiersToJs ordered) (newIds env 0)) =? 0) = false).
  { apply length_eqb_zero. intros Hnil. apply Hgs, length_zero_iff_nil.
    subst groupings.
    by rewrite (length_groupings_ids _ _ _ (newIds env 1) (newIds env 0)), Hnil. }
  apply length_eqb_zero in Hitems, Hgs.
  unfold applyGroupingToList, finish. rewrite Hen, Hp. cbn [negb].
  rewrite Hitems. fold ordered. rewrite Hdup, Hpre, Hui. cbn [andb].
  cbn [cleanupGroupingUi withGroupUi items]. rewrite Hitems. fold ordered.
  rewrite Hdup. fold groupings. rewrite Hgs, Hres. cbn [length Nat.eqb].
  destruct (zeroResolvedRetry _ _). reflexivity.
Qed.

(** One pass that resolved nothing: its warning, its timers, its counter. *)
Lemma zero_resolved_pass env st lc :
  let r := applyGroupingToList env st (Some lc) in
  outcome r = ZeroResolved ->
  exists presetName,
    let ordered := getOrderedIdentifiers (items lc) in
    let groupings :=
      getAllPresetGroupings (apiInfo env) presetName (identifiersToJs ordered)
        (newIds env 1) in
    let unresolvedCount :=
      length (filter (fun g => truthy (get g "unresolved") = true) groupings) in
    getLoadedPresetName (apiInfo env) = Some presetName
    /\ groupings <> []
    /\ resolveGroupings ordered groupings = []
    /\ warningsShown r
       = (if negb (unresolvedCount =? 0) && toastrAvailable env
          then [unresolvedCount] else [])
    /\ if retryExhausted st presetName
       then retryDelays r = []
            /\ zeroResolvedRetryPreset (stateAfter r) = zeroResolvedRetryPreset st
            /\ zeroResolvedRetryCount (stateAfter r) = zeroResolvedRetryCount st
       else retryDelays r = [450; 1200]%Z
            /\ zeroResolvedRetryPreset (stateAfter r) = Some presetName
            /\ zeroResolvedRetryCount (stateAfter r)
               = (if eqOptString (zeroResolvedRetryPreset st) presetName
                  then zeroResolvedRetryCount st + 1 else 1).
Proof.
  intros r Hzero.
  destruct (zero_resolved_inversion env st lc Hzero)
    as (presetName & Hp & Hgs & Hres & Hst & Heff).
  exists presetName. cbv zeta in *. fold r in Hst, Heff.
  pose proof (zeroResolvedRetry_spec (withApplying st) presetName) as Hspec.
  cbv zeta in Hspec.
  change (retryExhausted (withApplying st) presetName)
    with (retryExhausted st presetName) in Hspec.
  split; [exact Hp |]. split; [exact Hgs |]. split; [exact Hres |].
  unfold warningsShown, retryDelays. rewrite Heff, Hst.
  destruct (retryExhausted st presetName);
    [rewrite Hspec | destruct Hspec as [-> ->]];
    destruct (negb _ && toastrAvailable env);
    repeat split; reflexivity.
Qed.

(** Each pass that schedules a retry spends one unit of the budget of the
    preset, and no pass short of a rebuild gives any back. *)
Lemma pass_spends_budget env st found presetName :
  getLoadedPresetName (apiInfo env) = Some presetName ->
  let r := applyGroupingToList env st found in
  outcome r <> Rebuilt ->
  (if schedulesRetry r then 1 else 0) + retryBudget (stateAfter r) presetName
  <= retryBudget st presetName.
Proof.
  intros Hp r Hnot.
  destruct (outcome r) eqn:Ho; try done.
  6: {
    destruct found as [lc |]; [| subst r; cbn in Ho;
      unfold applyGroupingToList in Ho; rewrite Hp in Ho;
      destruct (negb (entryGroupingEnabled st)); discriminate].
    destruct (zero_resolved_pass env st lc Ho) as (p' & Hp' & _ & _ & _ & Hretry).
    cbv zeta in Hretry. fold r in Hretry.
    assert (p' = presetName) as -> by congruence.
    unfold retryBudget, schedulesRetry, retryExhausted in *.
    destruct (eqOptString (zeroResolvedRetryPreset st) presetName) eqn:Hsame;
      cbn [andb] in Hretry.
    - destruct (Nat.leb_spec 3 (zeroResolvedRetryCount st)) as [Hc | Hc].
      + destruct Hretry as (-> & -> & ->). rewrite Hsame. lia.
      + destruct Hretry as (-> & -> & ->). cbn [eqOptString].
        rewrite String.eqb_refl. lia.
    - destruct Hretry as (-> & -> & ->). cbn [eqOptString].
      rewrite String.eqb_refl. lia. }
  all: destruct (retry_untouched env st found) as (H1 & H2 & H3);
    fold r; rewrite ?Ho; try discriminate;
    fold r in H1, H2, H3; unfold retryBudget, schedulesRetry;
    rewrite H1, H2, H3; lia.
Qed.

Lemma runPasses_budget presetName inputs st :
  Forall (fun input => getLoadedPresetName (apiInfo input.1) = Some presetName)
         inputs ->
  Forall (fun r => outcome r <> Rebuilt) (runPasses st inputs) ->
  length (filter (fun r => schedulesRetry r = true) (runPasses st inputs))
  <= retryBudget st presetName.
Proof.
  intros Hinputs. revert st.
  induction Hinputs as [| [env found] rest Hp _ IH]; intros st Hruns;
    cbn [runPasses]; [cbn; lia |].
  cbn [runPasses] in Hruns. apply Forall_cons in Hruns as [Hnot Hrest].
  pose proof (pass_spends_budget env st found presetName Hp Hnot) as Hspend.
  specialize (IH _ Hrest). rewrite filter_cons.
  destruct (schedulesRetry (applyGroupingToList env st found));
    [rewrite decide_True by done | rewrite decide_False by done];
    cbn [length]; lia.
Qed.

Lemma retryBudget_le st presetName : retryBudget st presetName <= 3.
Proof. unfold retryBudget. destruct (eqOptString _ _); lia. Qed.

(** C8 (as amended). Bounded zero-resolved retry.  With group records in
    the store of which none resolves, a pass on a list without presentation
    ends in the zero-resolved branch.  A pass that resolves zero groups
    while group records exist schedules two follow-up passes, at 450 ms and
    at 1200 ms, and counts one attempt, unless three attempts are already
    counted for the loaded preset; then it schedules nothing and leaves the
    counter.  The only notice such a pass ever shows is the warning with the
    number of records flagged unresolved, when there are any.  The counter
    starts again at one when the pass runs under another preset than the
    counted one, and it is cleared by every pass that resolves at least one
    group.  Over passes run in succession under one preset without a
    rebuild, at most three schedule retries. *)
Theorem zero_resolved_retry_bounded :
  (forall env st lc presetName,
     let ordered := getOrderedIdentifiers (items lc) in
     let groupings :=
       getAllPresetGroupings (apiInfo env) presetName (identifiersToJs ordered)
         (newIds env 1) in
     entryGroupingEnabled st = true ->
     getLoadedPresetName (apiInfo env) = Some presetName ->
     items lc <> [] ->
     hasDuplicates ordered = false ->
     hasGroupingUi lc = false ->
     groupings <> [] ->
     resolveGroupings ordered groupings = [] ->
     outcome (applyGroupingToList env st (Some lc)) = ZeroResolved)
  /\ (forall env st lc,
     let r := applyGroupingToList env st (Some lc) in
     outcome r = ZeroResolved ->
     exists presetName,
       let ordered := getOrderedIdentifiers (items lc) in
       let groupings :=
         getAllPresetGroupings (apiInfo env) presetName (identifiersToJs ordered)
           (newIds env 1) in
       let unresolvedCount :=
         length (filter (fun g => truthy (get g "unresolved") = true) groupings) in
       getLoadedPresetName (apiInfo env) = Some presetName
       /\ groupings <> []
       /\ resolveGroupings ordered groupings = []
       /\ warningsShown r
          = (if negb (unresolvedCount =? 0) && toastrAvailable env
             then [unresolvedCount] else [])
       /\ if retryExhausted st presetName
          then retryDelays r = []
               /\ zeroResolvedRetryPreset (stateAfter r) = zeroResolvedRetryPreset st
               /\ zeroResolvedRetryCount (stateAfter r) = zeroResolvedRetryCount st
          else retryDelays r = [450; 1200]%Z
               /\ zeroResolvedRetryPreset (stateAfter r) = Some presetName
               /\ zeroResolvedRetryCount (stateAfter r)
                  = (if eqOptString (zeroResolvedRetryPreset st) presetName
                     then zeroResolvedRetryCount st + 1 else 1))
  /\ (forall env st found,
       let r := applyGroupingToList env st found in
       outcome r = Rebuilt ->
       zeroResolvedRetryPreset (stateAfter r) = None
       /\ zeroResolvedRetryCount (stateAfter r) = 0
       /\ retryDelays r = [])
  /\ (forall presetName st inputs,
       Forall (fun input => getLoadedPresetName (apiInfo input.1) = Some presetName)
              inputs ->
       Forall (fun r => outcome r <> Rebuilt) (runPasses st inputs) ->
       length (filter (fun r => schedulesRetry r = true) (runPasses st inputs)) <= 3).
Proof.
  split; [exact zero_resolved_reached |].
  split; [exact zero_resolved_pass |]. split; [exact rebuilt_resets_retry |].
  intros presetName st inputs Hinputs Hruns.
  etrans; [by apply (runPasses_budget presetName) | apply retryBudget_le].
Qed.

Lemma zero_resolved_retry_bounded_witness :
  length (filter (fun r => schedulesRetry r = true)
            (runPasses initialState
               [(retryEnv "A", retryList); (retryEnv "A", retryList);
                (retryEnv "A", retryList); (retryEnv "A", retryList)])) <= 3.
Proof.
  destruct zero_resolved_retry_bounded as (_ & _ & _ & Hbound).
  apply (Hbound "A").
  - repeat constructor.
  - vm_compute. repeat constructor; discriminate.
Defined.

(** C8 (as stated) fails on the reset: after three attempts under preset
    "A", a pass under preset "B", which holds no record, leaves the counter
    at three, and the next pass under "A" schedules no retry. *)
Lemma preset_switch_keeps_retry_counter :
  map (fun r => (outcome r, retryDelays r, zeroResolvedRetryCount (stateAfter r)))
      presetSwitchPasses
  = [(ZeroResolved, [450; 1200]%Z, 1); (ZeroResolved, [450; 1200]%Z, 2);
     (ZeroResolved, [450; 1200]%Z, 3); (NoGroupings, [], 3);
     (ZeroResolved, [], 3)].
Proof. vm_compute. reflexivity. Qed.

End ZeroResolvedRetry.

(** ** The group record store: alignment of reads and writes, mutations *)

Section StoreMutations.

Lemma normalizeForRead_is_Some entry keys newId :
  is_Some (normalizeForRead entry keys newId) <-> groupEntry entry = true.
Proof.
  unfold normalizeForRead, groupEntry.
  destruct (isPlainObject entry); cbn; [|split; [intros [? ?]; discriminate|discriminate]].
  destruct (isLegacyIndexGrouping entry); cbn.
  - split; [done|intros _].
    destruct (_ && _); eauto.
  - destruct (isIdentifierAnchorGrouping entry); cbn.
    + split; [done|intros _]. destruct (_ && _); eauto.
    + split; [intros [? ?]; discriminate|discriminate].
Qed.

Lemma normalizeForWrite_is_Some entry keys newId :
  is_Some (normalizeForWrite entry keys newId) <-> groupEntry entry = true.
Proof.
  unfold normalizeForWrite, groupEntry.
  destruct (isPlainObject entry); cbn; [|split; [intros [? ?]; discriminate|discriminate]].
  destruct (isIdentifierAnchorGrouping entry); cbn.
  - rewrite orb_true_r. split; [done|eauto].
  - rewrite orb_false_r. destruct (isLegacyIndexGrouping entry).
    + split; [done|intros _]. destruct (_ && _); eauto.
    + split; [intros [? ?]; discriminate|discriminate].
Qed.

Lemma mapNormalize_kept f entries keys ids :
  (forall e id, is_Some (f e keys id) <-> groupEntry e = true) ->
  Forall2 (fun e r => exists i, f e keys (ids i) = Some r)
    (filter (fun e => groupEntry e = true) entries)
    (mapNormalize f entries keys ids).
Proof.
  intros Hf. revert ids.
  induction entries as [|e rest IH]; intros ids; [constructor|].
  rewrite mapNormalize_cons, filter_cons.
  destruct (f e keys (ids 0)) as [r|] eqn:Hr.
  - rewrite decide_True by (apply (Hf e (ids 0)); rewrite Hr; eauto).
    constructor; [by exists 0|].
    eapply Forall2_impl; [apply (IH (fun i => ids (S i)))|].
    intros ? ? [i Hi]. by exists (S i).
  - rewrite decide_False.
    + eapply Forall2_impl; [apply (IH (fun i => ids (S i)))|].
      intros ? ? [i Hi]. by exists (S i).
    + intros He. apply (Hf e (ids 0)) in He. rewrite Hr in He.
      destruct He; discriminate.
Qed.

Lemma getAllPresetGroupings_raw apiInfo presetName keys ids :
  getAllPresetGroupings apiInfo presetName keys ids
  = mapNormalize normalizeForRead (rawEntries apiInfo presetName) keys ids.
Proof.
  unfold getAllPresetGroupings, rawEntries, storedGrouping.
  destruct (getPreset apiInfo presetName) as [preset|]; [|done].
  cbn [default from_option].
  unfold id.
  destruct (truthy (lookupProp "extensions" preset)) eqn:Hext; cbn [negb].
  - destruct (truthy (get (lookupProp "extensions" preset) "entryGrouping")) eqn:Hg;
      cbn [negb]; [done|].
    unfold asArray. by rewrite Hg.
  - destruct (lookupProp "extensions" preset); try discriminate; done.
Qed.

(** X1. The read and the write normalization keep the same raw entries of a
    container: the record at a position of the list that
    [getAllPresetGroupings] returns and the record at the same position of
    the list that [updatePresetGrouping] and [removePresetGrouping] index
    come from the same raw entry, and the two lists have the same length. *)
Theorem read_write_index_alignment apiInfo presetName keys keys' ids ids' :
  let kept := filter (fun e => groupEntry e = true) (rawEntries apiInfo presetName) in
  Forall2 (fun e r => exists i, normalizeForRead e keys (ids i) = Some r)
    kept (getAllPresetGroupings apiInfo presetName keys ids)
  /\ Forall2 (fun e w => exists i, normalizeForWrite e keys' (ids' i) = Some w)
       kept (currentGroupings apiInfo presetName keys' ids')
  /\ length (getAllPresetGroupings apiInfo presetName keys ids)
     = length (currentGroupings apiInfo presetName keys' ids').
Proof.
  intros kept.
  assert (Hr : Forall2 (fun e r => exists i, normalizeForRead e keys (ids i) = Some r)
                 kept (getAllPresetGroupings apiInfo presetName keys ids)).
  { rewrite getAllPresetGroupings_raw. apply mapNormalize_kept.
    intros. apply normalizeForRead_is_Some. }
  assert (Hw : Forall2 (fun e w => exists i, normalizeForWrite e keys' (ids' i) = Some w)
                 kept (currentGroupings apiInfo presetName keys' ids')).
  { apply mapNormalize_kept. intros. apply normalizeForWrite_is_Some. }
  split; [done|split; [done|]].
  by rewrite <- (Forall2_length _ _ _ Hr), (Forall2_length _ _ _ Hw).
Qed.

Lemma lookupProp_assignProp_ne k k' v props :
  k <> k' -> lookupProp k (assignProp k' v props) = lookupProp k props.
Proof.
  intros Hne. induction props as [|[k0 v0] rest IH]; cbn.
  - destruct (String.eqb_spec k k'); [done|reflexivity].
  - destruct (String.eqb_spec k' k0) as [->|]; cbn.
    + destruct (String.eqb_spec k k0); [done|reflexivity].
    + destruct (String.eqb_spec k k0); [done|apply IH].
Qed.

Lemma lookupProp_assignIf_ne c k k' v props :
  k <> k' -> lookupProp k (assignIf c k' v props) = lookupProp k props.
Proof. intros. destruct c; cbn; [by apply lookupProp_assignProp_ne|done]. Qed.

Lemma truthy_readGroupName entry : truthy (readGroupName entry) = true.
Proof. unfold readGroupName. apply or_truthy_result, or_truthy_result. reflexivity. Qed.

Lemma truthy_mode entry : truthy (or (get entry "mode") (JStr DEFAULT_MODE)) = true.
Proof. apply or_truthy_result. reflexivity. Qed.

Lemma isString_idOf entry newId : isString (idOf entry newId) = true.
Proof. unfold idOf. destruct (isString (get entry "id")) eqn:H; [done|reflexivity]. Qed.

Lemma normalizeForRead_record entry keys newId r :
  normalizeForRead entry keys newId = Some r ->
  groupRecord r = true /\ isString (get r "id") = true.
Proof.
  unfold normalizeForRead, groupRecord.
  pose proof (truthy_readGroupName entry) as Hn.
  pose proof (truthy_mode entry) as Hm.
  pose proof (isString_idOf entry newId) as Hi.
  repeat match goal with
         | |- context [if ?c then _ else _] => destruct c
         end; intros [= <-]; cbn; rewrite ?Hn, ?Hm, ?Hi; done.
Qed.

Lemma normalizeForWrite_record entry keys newId r :
  normalizeForWrite entry keys newId = Some r ->
  groupRecord r = true /\ isString (get r "id") = true.
Proof.
  unfold normalizeForWrite, groupRecord.
  pose proof (truthy_readGroupName entry) as Hn.
  pose proof (truthy_mode entry) as Hm.
  pose proof (isString_idOf entry newId) as Hi.
  destruct (negb (isPlainObject entry)); [discriminate|].
  destruct (isIdentifierAnchorGrouping entry).
  - intros [= <-]. cbn [get isPlainObject truthy typeof isArray negb andb].
    rewrite !lookupProp_assignIf_ne by discriminate. cbn. rewrite Hn, Hm, Hi. done.
  - repeat match goal with
           | |- context [if ?c then _ else _] => destruct c
           end; intros [= <-]; cbn; rewrite ?Hn, ?Hm, ?Hi; done.
Qed.

Lemma Forall_mapNormalize (P : JsValue -> Prop) f entries keys ids :
  (forall e id r, f e keys id = Some r -> P r) ->
  Forall P (mapNormalize f entries keys ids).
Proof.
  intros Hf. revert ids. induction entries as [|e rest IH]; intros ids.
  - constructor.
  - rewrite mapNormalize_cons. destruct (f e keys (ids 0)) eqn:Hr; [|apply IH].
    constructor; [by eapply Hf|apply IH].
Qed.

Lemma store_records_wellformed apiInfo presetName keys ids :
  Forall (fun r => groupRecord r = true /\ isString (get r "id") = true)
    (getAllPresetGroupings apiInfo presetName keys ids)
  /\ Forall (fun r => groupRecord r = true /\ isString (get r "id") = true)
       (currentGroupings apiInfo presetName keys ids).
Proof.
  split.
  - rewrite getAllPresetGroupings_raw. apply Forall_mapNormalize.
    intros e id r. apply normalizeForRead_record.
  - apply Forall_mapNormalize. intros e id r. apply normalizeForWrite_record.
Qed.

Lemma idOf_string r newId : isString (get r "id") = true -> idOf r newId = get r "id".
Proof. unfold idOf. by intros ->. Qed.

(** X3. Read normalization is idempotent on resolved records: a record
    that [normalizeForRead] returned with two non-empty anchors is returned
    unchanged when it is read again, whatever the ordered identifiers and the
    drawn id. *)
Theorem read_normalization_idempotent entry keys newId r keys' newId' :
  normalizeForRead entry keys newId = Some r ->
  nonEmptyAnchor (get r "startIdentifier") = true ->
  nonEmptyAnchor (get r "endIdentifier") = true ->
  normalizeForRead r keys' newId' = Some r.
Proof.
  intros Hr Hs He.
  destruct (normalizeForRead_record _ _ _ _ Hr) as [Hrec Hid].
  unfold groupRecord in Hrec. apply andb_true_iff in Hrec as [Hrec Hmode].
  apply andb_true_iff in Hrec as [Hobj Hname].
  assert (Hleg : isLegacyIndexGrouping r = false).
  { revert Hr. unfold normalizeForRead.
    repeat match goal with
           | |- context [if ?c then _ else _] => destruct c
           end; intros [= <-]; reflexivity. }
  rewrite (normalizeForRead_anchor_fields r keys' newId' Hobj Hleg Hs He).
  rewrite (idOf_string r newId' Hid).
  unfold readGroupName. rewrite (or_truthy _ _ Hname), (or_truthy _ _ Hmode).
  revert Hr Hs He. unfold normalizeForRead.
  repeat match goal with
         | |- context [if ?c then _ else _] => destruct c
         end; intros [= <-]; cbn; try discriminate; reflexivity.
Qed.

Lemma read_normalization_idempotent_witness :
  normalizeForRead
    (JObj [("id", JStr "n"); ("name", JStr DEFAULT_GROUP_NAME);
           ("startIdentifier", JStr "b"); ("endIdentifier", JStr "d");
           ("mode", JStr DEFAULT_MODE)]) keysA "m"
  = Some (JObj [("id", JStr "n"); ("name", JStr DEFAULT_GROUP_NAME);
                ("startIdentifier", JStr "b"); ("endIdentifier", JStr "d");
                ("mode", JStr DEFAULT_MODE)]).
Proof.
  apply (read_normalization_idempotent legacyRecord keysABCD "n"); reflexivity.
Defined.

(** X4. A record flagged [unresolved] that comes from a read, or from the
    write normalization of an index-based entry, carries neither a string
    anchor nor [startIndex]/[endIndex]: the next normalization, read or
    write, drops it. *)
Theorem flagged_record_dropped_on_renormalization entry keys newId r keys' newId' :
  (normalizeForRead entry keys newId = Some r
   \/ (normalizeForWrite entry keys newId = Some r
       /\ isIdentifierAnchorGrouping entry = false)) ->
  flaggedUnresolved r = true ->
  normalizeForRead r keys' newId' = None
  /\ normalizeForWrite r keys' newId' = None.
Proof.
  intros [Hr|[Hw Hanchor]] Hflag.
  - revert Hr Hflag. unfold normalizeForRead at 1.
    repeat match goal with
           | |- context [if ?c then _ else _] => destruct c
           end; intros [= <-]; cbn; try discriminate; done.
  - revert Hw Hflag. unfold normalizeForWrite at 1. rewrite Hanchor.
    repeat match goal with
           | |- context [if ?c then _ else _] => destruct c
           end; intros [= <-]; cbn; try discriminate; done.
Qed.

(** X2. Whatever the preset holds, every record that the store hands out,
    on the read side and on the write side, is a plain object with a string
    id, a truthy display name and a truthy mode. *)
Theorem store_hands_out_group_records apiInfo presetName keys ids :
  Forall (fun r => groupRecord r = true /\ isString (get r "id") = true)
    (getAllPresetGroupings apiInfo presetName keys ids)
  /\ Forall (fun r => groupRecord r = true /\ isString (get r "id") = true)
       (currentGroupings apiInfo presetName keys ids).
Proof. apply store_records_wellformed. Qed.

Lemma flagged_record_dropped_on_renormalization_witness :
  normalizeForRead
    (JObj [("id", JStr "n"); ("name", JStr DEFAULT_GROUP_NAME);
           ("mode", JStr DEFAULT_MODE); ("unresolved", JBool true);
           ("legacyStartIndex", JNum (NInt 1)); ("legacyEndIndex", JNum (NInt 3))])
    keysABCD "m" = None
  /\ normalizeForWrite
       (JObj [("id", JStr "n"); ("name", JStr DEFAULT_GROUP_NAME);
              ("mode", JStr DEFAULT_MODE); ("unresolved", JBool true);
              ("legacyStartIndex", JNum (NInt 1)); ("legacyEndIndex", JNum (NInt 3))])
       keysABCD "m" = None.
Proof.
  apply (flagged_record_dropped_on_renormalization legacyRecord keysA "n");
    [left; reflexivity | reflexivity].
Defined.

Lemma presets_sync pm presetName groupings :
  presets (syncEntryGroupingToActiveSettings pm presetName groupings) = presets pm
  /\ savePresetFails (syncEntryGroupingToActiveSettings pm presetName groupings)
     = savePresetFails pm
  /\ savedPresets (syncEntryGroupingToActiveSettings pm presetName groupings)
     = savedPresets pm
  /\ selectedPresetName (syncEntryGroupingToActiveSettings pm presetName groupings)
     = selectedPresetName pm.
Proof.
  unfold syncEntryGroupingToActiveSettings.
  destruct (selectedPresetName pm) eqn:Hsel; [|by rewrite Hsel].
  destruct (_ || _); [by rewrite Hsel|].
  destruct (negb _); [by rewrite Hsel|]. cbn. by rewrite Hsel.
Qed.

Lemma settings_sync_selected pm presetName groupings :
  getLoadedPresetName (Some pm) = Some presetName ->
  isPlainObject (settings pm) = true ->
  get (get (settings (syncEntryGroupingToActiveSettings pm presetName groupings))
         "extensions") "entryGrouping" = JArr groupings.
Proof.
  unfold getLoadedPresetName, syncEntryGroupingToActiveSettings.
  destruct (selectedPresetName pm) as [sel|]; [|discriminate].
  destruct (nonEmpty sel) eqn:Hne; [|discriminate].
  intros [= ->] Hobj. rewrite String.eqb_refl, Hobj. cbn [negb orb].
  cbn [settings withSettings get].
  rewrite lookupProp_assignProp_eq. cbn [get].
  apply lookupProp_assignProp_eq.
Qed.

Lemma settings_sync_other pm presetName groupings :
  getLoadedPresetName (Some pm) <> Some presetName ->
  settings (syncEntryGroupingToActiveSettings pm presetName groupings) = settings pm.
Proof.
  unfold getLoadedPresetName, syncEntryGroupingToActiveSettings.
  destruct (selectedPresetName pm) as [sel|]; [|done].
  destruct (nonEmpty sel) eqn:Hne; [|done].
  intros Hsel. destruct (String.eqb_spec sel presetName) as [->|]; [done|]. done.
Qed.

Lemma commitGroupings_spec pm presetName presetObj ext groupings :
  lookupProp "extensions" presetObj = JObj ext ->
  let res := commitGroupings pm presetName presetObj groupings in
  res.1 = negb (savePresetFails pm)
  /\ storedGrouping res.2 presetName = Some (JArr groupings)
  /\ (forall name, name <> presetName ->
        storedGrouping res.2 name = storedGrouping (Some pm) name)
  /\ savedPresets <$> res.2
     = Some (if savePresetFails pm then savedPresets pm
             else (presetName,
                   assignProp "extensions"
                     (JObj (assignProp "entryGrouping" (JArr groupings) ext)) presetObj)
                  :: savedPresets pm)
  /\ (getLoadedPresetName (Some pm) = Some presetName ->
      isPlainObject (settings pm) = true ->
      liveGrouping res.2 = JArr groupings)
  /\ (getLoadedPresetName (Some pm) <> Some presetName ->
      settings <$> res.2 = Some (settings pm)).
Proof.
  intros Hext res. subst res. unfold commitGroupings. rewrite Hext.
  set (presetObj' := assignProp "extensions" _ presetObj).
  set (pm1 := withPresets pm _).
  destruct (presets_sync pm1 presetName groupings) as (Hp & Hf & Hs & Hsel).
  assert (Hstored : forall pm', presets pm' = presets pm1 ->
            storedGrouping (Some pm') presetName = Some (JArr groupings)
            /\ forall name, name <> presetName ->
                 storedGrouping (Some pm') name = storedGrouping (Some pm) name).
  { intros pm' Hpm'. unfold storedGrouping, getPreset. rewrite Hpm'.
    subst pm1. cbn [presets withPresets]. split.
    - rewrite lookup_insert_eq. subst presetObj'. rewrite lookupProp_assignProp_eq.
      cbn [get]. by rewrite lookupProp_assignProp_eq.
    - intros name Hne. by rewrite lookup_insert_ne. }
  assert (Hlive : forall pm', settings pm' = settings
                    (syncEntryGroupingToActiveSettings pm1 presetName groupings) ->
            (getLoadedPresetName (Some pm) = Some presetName ->
             isPlainObject (settings pm) = true ->
             liveGrouping (Some pm') = JArr groupings)
            /\ (getLoadedPresetName (Some pm) <> Some presetName ->
                settings <$> Some pm' = Some (settings pm))).
  { intros pm' Hpm'. cbn [liveGrouping fmap option_fmap option_map]. rewrite Hpm'. split.
    - intros Hsel' Hobj. by apply (settings_sync_selected pm1).
    - intros Hsel'. f_equal. by apply (settings_sync_other pm1). }
  rewrite Hf. subst pm1. cbn [savePresetFails withPresets].
  destruct (savePresetFails pm); cbn [fst snd negb].
  - destruct (Hstored _ Hp) as [? ?]. destruct (Hlive _ eq_refl) as [? ?].
    cbn [fmap option_fmap option_map]. rewrite Hs. done.
  - destruct (Hstored (withSaved (syncEntryGroupingToActiveSettings
                (withPresets pm (<[presetName:=presetObj']> (presets pm)))
                presetName groupings) ((presetName, presetObj') ::
                  savedPresets (syncEntryGroupingToActiveSettings
                (withPresets pm (<[presetName:=presetObj']> (presets pm)))
                presetName groupings))) Hp) as [? ?].
    destruct (Hlive (withSaved (syncEntryGroupingToActiveSettings
                (withPresets pm (<[presetName:=presetObj']> (presets pm)))
                presetName groupings) ((presetName, presetObj') ::
                  savedPresets (syncEntryGroupingToActiveSettings
                (withPresets pm (<[presetName:=presetObj']> (presets pm)))
                presetName groupings))) eq_refl) as [? ?].
    cbn [fmap option_fmap option_map savedPresets withSaved]. rewrite Hs. done.
Qed.

Lemma extensions_ensured presetObj :
  lookupProp "extensions" (ensureExtensions presetObj)
  = if truthy (lookupProp "extensions" presetObj)
    then lookupProp "extensions" presetObj else JObj [].
Proof.
  unfold ensureExtensions.
  destruct (truthy (lookupProp "extensions" presetObj)); cbn [negb]; [done|].
  apply lookupProp_assignProp_eq.
Qed.

Lemma extensionsWritable_ensured presetObj :
  extensionsWritable presetObj = true <->
  exists ext, lookupProp "extensions" (ensureExtensions presetObj) = JObj ext.
Proof.
  unfold extensionsWritable. rewrite extensions_ensured.
  destruct (lookupProp "extensions" presetObj) as [| |b|n|s|l|ext]; cbn [truthy negb].
  1,2: split; [by exists []|done].
  5: split; [by exists ext|done].
  - destruct b; cbn; split; try done; [intros [? ?]; discriminate|by exists []].
  - destruct (truthy (JNum n)) eqn:Ht; cbn [truthy] in Ht |- *; rewrite ?Ht; cbn;
      split; try done; [intros [? ?]; discriminate|by exists []].
  - destruct (nonEmpty s); cbn; split; try done; [intros [? ?]; discriminate|by exists []].
  - split; [done|intros [? ?]; discriminate].
Qed.

Lemma extensionsWritable_false presetObj :
  extensionsWritable presetObj = false ->
  match lookupProp "extensions" (ensureExtensions presetObj) with
  | JObj _ => False
  | _ => True
  end.
Proof.
  intros Hw. destruct (lookupProp "extensions" (ensureExtensions presetObj)) eqn:Hext;
    try done.
  assert (extensionsWritable presetObj = true) as Hw'
    by (apply extensionsWritable_ensured; eauto).
  congruence.
Qed.

Lemma commitGroupings_result pm presetName presetObj groupings :
  (commitGroupings pm presetName (ensureExtensions presetObj) groupings).1
  = extensionsWritable presetObj && negb (savePresetFails pm).
Proof.
  destruct (extensionsWritable presetObj) eqn:Hw.
  - apply extensionsWritable_ensured in Hw as [ext Hext].
    destruct (commitGroupings_spec pm presetName _ ext groupings Hext) as [-> _].
    reflexivity.
  - apply extensionsWritable_false in Hw. unfold commitGroupings.
    destruct (lookupProp "extensions" (ensureExtensions presetObj)); done.
Qed.

Lemma rawEntries_found pm presetName presetObj :
  presets pm !! presetName = Some presetObj ->
  rawEntries (Some pm) presetName
  = asArray (get (lookupProp "extensions" (ensureExtensions presetObj)) "entryGrouping").
Proof.
  intros Hp. unfold rawEntries, storedGrouping, getPreset. rewrite Hp. cbn.
  by rewrite entryGrouping_ensureExtensions.
Qed.

Lemma addPresetGrouping_spec
    apiInfo presetName startIdentifier endIdentifier groupName keys ids :
  let res := addPresetGrouping apiInfo presetName startIdentifier endIdentifier
               groupName keys ids in
  (res.1 = true <->
   isString startIdentifier = true /\ isString endIdentifier = true
   /\ hostAccepts apiInfo presetName = true)
  /\ (isString startIdentifier = false \/ isString endIdentifier = false ->
      res = (false, apiInfo))
  /\ (res.1 = true ->
      storedGrouping res.2 presetName
      = Some (JArr (currentGroupings apiInfo presetName keys ids
                      ++ [createdRecord (ids (length (rawEntries apiInfo presetName)))
                            groupName startIdentifier endIdentifier]))
      /\ forall name, name <> presetName ->
           storedGrouping res.2 name = storedGrouping apiInfo name).
Proof.
  intros res. subst res. unfold addPresetGrouping.
  destruct (isString startIdentifier), (isString endIdentifier); cbn [negb orb];
    try (split; [split; [discriminate|intros (? & ? & ?); discriminate]
                |split; [done|discriminate]]).
  destruct apiInfo as [pm|]; cbn [fst snd];
    [|split; [split; [discriminate|intros (? & ? & ?); discriminate]
             |split; [intros [?|?]; discriminate|discriminate]]].
  destruct (presets pm !! presetName) as [presetObj|] eqn:Hp; cbn [fst snd].
  2: { split; [split; [discriminate|intros (_ & _ & Hacc)]
              |split; [intros [?|?]; discriminate|discriminate]].
       unfold hostAccepts in Hacc. by rewrite Hp in Hacc. }
  rewrite (currentGroupings_found pm presetName presetObj keys ids Hp).
  rewrite (rawEntries_found pm presetName presetObj Hp).
  unfold hostAccepts. rewrite Hp, commitGroupings_result.
  split; [tauto|split; [intros [?|?]; discriminate|]].
  intros Hres. apply andb_true_iff in Hres as [Hobj _].
  apply extensionsWritable_ensured in Hobj as [ext Hext]. rewrite Hext.
  destruct (commitGroupings_spec pm presetName (ensureExtensions presetObj) ext
              (getWritableGroupings (get (JObj ext) "entryGrouping") keys ids
                 ++ [createdRecord
                       (ids (length (asArray (get (JObj ext) "entryGrouping"))))
                       groupName startIdentifier endIdentifier]) Hext)
    as (_ & Hst & Hoth & _).
  split; [exact Hst|exact Hoth].
Qed.

(** X5. For a preset whose [extensions] is not an array,
    [addPresetGrouping] reports success exactly when both anchors are
    strings and the host accepts the mutation; with an anchor that is no
    string it touches nothing; on success the container of the preset is the
    write-normalized list followed by the new record, and no other preset
    changes. *)
Theorem addPresetGrouping_succeeds_iff
    apiInfo presetName startIdentifier endIdentifier groupName keys ids :
  let res := addPresetGrouping apiInfo presetName startIdentifier endIdentifier
               groupName keys ids in
  extensionsIsArray apiInfo presetName = false ->
  (res.1 = true <->
   isString startIdentifier = true /\ isString endIdentifier = true
   /\ hostAccepts apiInfo presetName = true)
  /\ (isString startIdentifier = false \/ isString endIdentifier = false ->
      res = (false, apiInfo))
  /\ (res.1 = true ->
      storedGrouping res.2 presetName
      = Some (JArr (currentGroupings apiInfo presetName keys ids
                      ++ [createdRecord (ids (length (rawEntries apiInfo presetName)))
                            groupName startIdentifier endIdentifier]))
      /\ forall name, name <> presetName ->
           storedGrouping res.2 name = storedGrouping apiInfo name).
Proof. intros res _. apply addPresetGrouping_spec. Qed.

Lemma addPresetGrouping_succeeds_iff_witness :
  (addPresetGrouping (Some (hostWith (JArr []) (Some "P") false)) "P"
     (JStr "a") (JStr "b") (JStr "G") keysABCD scenarioIds).1 = true
  /\ (addPresetGrouping (Some (hostWith (JArr []) (Some "P") true)) "P"
        (JStr "a") (JStr "b") (JStr "G") keysABCD scenarioIds).1 <> true.
Proof.
  split.
  - apply (addPresetGrouping_succeeds_iff
             (Some (hostWith (JArr []) (Some "P") false)) "P"
             (JStr "a") (JStr "b") (JStr "G") keysABCD scenarioIds eq_refl).
    repeat split; reflexivity.
  - intros Hres.
    apply (addPresetGrouping_succeeds_iff
             (Some (hostWith (JArr []) (Some "P") true)) "P"
             (JStr "a") (JStr "b") (JStr "G") keysABCD scenarioIds eq_refl)
      in Hres as (_ & _ & Hacc).
    discriminate.
Defined.

Lemma mapNormalize_snoc f entries entry keys ids :
  mapNormalize f (entries ++ [entry]) keys ids
  = mapNormalize f entries keys ids
    ++ match f entry keys (ids (length entries)) with
       | Some r => [r]
       | None => []
       end.
Proof.
  unfold mapNormalize. rewrite imap_app, omap_app. f_equal. cbn.
  rewrite Nat.add_0_r. by destruct (f entry keys (ids (length entries))).
Qed.

Lemma normalizeForRead_createdRecord id groupName s e keys newId :
  nonEmpty s = true -> nonEmpty e = true ->
  normalizeForRead (createdRecord id groupName (JStr s) (JStr e)) keys newId
  = Some (createdRecord id groupName (JStr s) (JStr e)).
Proof.
  intros Hs He.
  rewrite normalizeForRead_anchor_fields by (cbn; done).
  unfold createdRecord, readGroupName. cbn [get lookupProp String.eqb Ascii.eqb Bool.eqb]. cbn.
  rewrite (or_truthy (or groupName (JStr DEFAULT_GROUP_NAME)))
    by (apply or_truthy_result; reflexivity).
  reflexivity.
Qed.

Lemma rawEntries_stored apiInfo presetName groupings :
  storedGrouping apiInfo presetName = Some (JArr groupings) ->
  rawEntries apiInfo presetName = groupings.
Proof. unfold rawEntries. by intros ->. Qed.

Lemma addPresetGrouping_stored apiInfo presetName s e groupName keys ids :
  hostAccepts apiInfo presetName = true ->
  let res := addPresetGrouping apiInfo presetName (JStr s) (JStr e) groupName keys ids in
  res.1 = true
  /\ storedGrouping res.2 presetName
     = Some (JArr (currentGroupings apiInfo presetName keys ids
                     ++ [createdRecord (ids (length (rawEntries apiInfo presetName)))
                           groupName (JStr s) (JStr e)])).
Proof.
  intros Hacc res.
  destruct (addPresetGrouping_spec apiInfo presetName (JStr s) (JStr e)
              groupName keys ids) as (Hiff & _ & Hst).
  assert (Hres : res.1 = true) by (apply Hiff; done).
  split; [done|]. by destruct (Hst Hres).
Qed.

(** X6. Add, then read: when the host accepts the mutation and the anchors
    are non-empty strings, [getAllPresetGroupings] returns afterwards the
    readable records of the written list followed by the new record, as it
    was stored. *)
Theorem add_then_read apiInfo presetName s e groupName keys ids keys' ids' :
  hostAccepts apiInfo presetName = true ->
  nonEmpty s = true -> nonEmpty e = true ->
  let res := addPresetGrouping apiInfo presetName (JStr s) (JStr e) groupName keys ids in
  res.1 = true
  /\ getAllPresetGroupings res.2 presetName keys' ids'
     = mapNormalize normalizeForRead (currentGroupings apiInfo presetName keys ids)
         keys' ids'
       ++ [createdRecord (ids (length (rawEntries apiInfo presetName)))
             groupName (JStr s) (JStr e)].
Proof.
  intros Hacc Hs He res.
  destruct (addPresetGrouping_stored apiInfo presetName s e groupName keys ids Hacc)
    as [Hres Hst]. fold res in Hres, Hst.
  split; [done|].
  rewrite getAllPresetGroupings_raw, (rawEntries_stored _ _ _ Hst), mapNormalize_snoc.
  by rewrite normalizeForRead_createdRecord.
Qed.

Lemma add_then_read_witness :
  let host := Some (hostWith (JArr [anchorRecord "a" "b"]) (Some "P") false) in
  getAllPresetGroupings
    (addPresetGrouping host "P" (JStr "c") (JStr "d") (JStr "New") keysABCD
       scenarioIds).2 "P" keysABCD scenarioIds
  = [anchorRecord "a" "b";
     createdRecord "peg-1" (JStr "New") (JStr "c") (JStr "d")].
Proof.
  exact (proj2 (add_then_read
                  (Some (hostWith (JArr [anchorRecord "a" "b"]) (Some "P") false))
                  "P" "c" "d" (JStr "New") keysABCD scenarioIds keysABCD scenarioIds
                  eq_refl eq_refl eq_refl)).
Defined.

(** Every mutation that reports success went through the common tail. *)
Lemma mutation_success_commit apiInfo presetName (res : bool * ApiInfo) :
  (exists s e groupName keys ids,
     res = addPresetGrouping apiInfo presetName s e groupName keys ids)
  \/ (exists i s e groupName keys ids,
        res = updatePresetGrouping apiInfo presetName i s e groupName keys ids)
  \/ (exists i keys ids, res = removePresetGrouping apiInfo presetName i keys ids) ->
  res.1 = true ->
  exists pm presetObj ext groupings,
    apiInfo = Some pm
    /\ lookupProp "extensions" presetObj = JObj ext
    /\ res = commitGroupings pm presetName presetObj groupings.
Proof.
  assert (Hc : forall pm presetObj groupings,
            (commitGroupings pm presetName presetObj groupings).1 = true ->
            exists ext, lookupProp "extensions" presetObj = JObj ext).
  { intros pm presetObj groupings. unfold commitGroupings.
    destruct (lookupProp "extensions" presetObj); try discriminate. eauto. }
  intros [(s & e & groupName & keys & ids & ->)
         |[(i & s & e & groupName & keys & ids & ->)|(i & keys & ids & ->)]].
  - unfold addPresetGrouping.
    destruct (_ || _); [discriminate|].
    destruct apiInfo as [pm|]; [|discriminate].
    destruct (presets pm !! presetName) as [presetObj|]; [|discriminate].
    intros Hres. destruct (Hc _ _ _ Hres) as [ext Hext]. eauto 10.
  - unfold updatePresetGrouping.
    destruct apiInfo as [pm|]; [|discriminate].
    destruct (presets pm !! presetName) as [presetObj|]; [|discriminate].
    destruct (_ || _); [discriminate|].
    intros Hres. destruct (Hc _ _ _ Hres) as [ext Hext]. eauto 10.
  - unfold removePresetGrouping.
    destruct apiInfo as [pm|]; [|discriminate].
    destruct (presets pm !! presetName) as [presetObj|]; [|discriminate].
    destruct (_ || _); [discriminate|].
    intros Hres. destruct (Hc _ _ _ Hres) as [ext Hext]. eauto 10.
Qed.

(** X7. After an add, update or remove that reports success, the live
    settings mirror the stored container when the preset is the selected one
    and the settings are a plain object; when another preset (or none) is
    selected the settings are untouched. *)
Theorem successful_mutation_mirrored apiInfo presetName (res : bool * ApiInfo) :
  (exists s e groupName keys ids,
     res = addPresetGrouping apiInfo presetName s e groupName keys ids)
  \/ (exists i s e groupName keys ids,
        res = updatePresetGrouping apiInfo presetName i s e groupName keys ids)
  \/ (exists i keys ids, res = removePresetGrouping apiInfo presetName i keys ids) ->
  res.1 = true ->
  (getLoadedPresetName apiInfo = Some presetName ->
   liveSettingsObject apiInfo = true ->
   storedGrouping res.2 presetName = Some (liveGrouping res.2))
  /\ (getLoadedPresetName apiInfo <> Some presetName ->
      settings <$> res.2 = settings <$> apiInfo).
Proof.
  intros Hop Hres.
  destruct (mutation_success_commit apiInfo presetName res Hop Hres)
    as (pm & presetObj & ext & groupings & -> & Hext & ->).
  destruct (commitGroupings_spec pm presetName presetObj ext groupings Hext)
    as (_ & Hst & _ & _ & Hlive & Hother).
  split.
  - intros Hsel Hobj. rewrite Hst. f_equal. symmetry. by apply Hlive.
  - intros Hsel. by rewrite Hother.
Qed.

Lemma successful_mutation_mirrored_witness :
  let res := removePresetGrouping
               (Some (hostWith (JArr [anchorRecord "a" "b"]) (Some "P") false))
               "P" 0 keysABCD scenarioIds in
  storedGrouping res.2 "P" = Some (liveGrouping res.2).
Proof.
  refine (proj1 (successful_mutation_mirrored
                   (Some (hostWith (JArr [anchorRecord "a" "b"]) (Some "P") false))
                   "P" _ _ _) _ _).
  - right. right. exists 0%Z, keysABCD, scenarioIds. reflexivity.
  - reflexivity.
  - reflexivity.
  - reflexivity.
Defined.

(** X8. When [savePreset] rejects, [addPresetGrouping] reports failure, yet
    the preset object in memory already holds the new record; nothing was
    saved. *)
Theorem failed_save_keeps_mutation pm presetName presetObj s e groupName keys ids :
  presets pm !! presetName = Some presetObj ->
  extensionsWritable presetObj = true ->
  savePresetFails pm = true ->
  let res := addPresetGrouping (Some pm) presetName (JStr s) (JStr e) groupName
               keys ids in
  res.1 = false
  /\ storedGrouping res.2 presetName
     = Some (JArr (currentGroupings (Some pm) presetName keys ids
                     ++ [createdRecord (ids (length (rawEntries (Some pm) presetName)))
                           groupName (JStr s) (JStr e)]))
  /\ savedPresets <$> res.2 = Some (savedPresets pm).
Proof.
  intros Hp Hw Hfail res. subst res. unfold addPresetGrouping. cbn [isString negb orb].
  rewrite Hp.
  rewrite (currentGroupings_found pm presetName presetObj keys ids Hp).
  rewrite (rawEntries_found pm presetName presetObj Hp).
  apply extensionsWritable_ensured in Hw as [ext Hext].
  destruct (commitGroupings_spec pm presetName (ensureExtensions presetObj) ext
              (getWritableGroupings
                 (get (lookupProp "extensions" (ensureExtensions presetObj))
                    "entryGrouping") keys ids
                 ++ [createdRecord
                       (ids (length (asArray
                          (get (lookupProp "extensions" (ensureExtensions presetObj))
                             "entryGrouping"))))
                       groupName (JStr s) (JStr e)]) Hext)
    as (Hres & Hst & _ & Hsaved & _).
  rewrite Hfail in Hres, Hsaved. done.
Qed.

Lemma failed_save_keeps_mutation_witness :
  let res := addPresetGrouping (Some (hostWith (JArr []) (Some "P") true)) "P"
               (JStr "a") (JStr "b") (JStr "G") keysABCD scenarioIds in
  res.1 = false
  /\ storedGrouping res.2 "P"
     = Some (JArr [createdRecord "peg-0" (JStr "G") (JStr "a") (JStr "b")]).
Proof.
  pose proof (failed_save_keeps_mutation (hostWith (JArr []) (Some "P") true) "P"
                [("extensions", JObj [("entryGrouping", JArr [])])]
                "a" "b" (JStr "G") keysABCD scenarioIds
                eq_refl eq_refl eq_refl) as H.
  split; [exact (proj1 H) | exact (proj1 (proj2 H))].
Defined.

Lemma in_range_test (i : nat) {A} (l : list A) x :
  l !! i = Some x ->
  (Z.of_nat i <? 0)%Z || (Z.of_nat i >=? Z.of_nat (length l))%Z = false.
Proof.
  intros Hi. apply lookup_lt_Some in Hi.
  apply orb_false_iff. split; [apply Z.ltb_ge; lia|].
  destruct (Z.geb_spec (Z.of_nat i) (Z.of_nat (length l))); [lia|done].
Qed.

Lemma currentGroupings_truthy apiInfo presetName keys ids i existing :
  currentGroupings apiInfo presetName keys ids !! i = Some existing ->
  truthy existing = true.
Proof.
  intros Hi.
  destruct (store_records_wellformed apiInfo presetName keys ids) as [_ Hall].
  rewrite Forall_lookup in Hall. destruct (Hall i existing Hi) as [Hrec _].
  unfold groupRecord, isPlainObject in Hrec.
  by destruct (truthy existing).
Qed.

(** X9. An update at a position of the write-normalized list that the host
    accepts replaces exactly the record at that position and no other
    preset; the new record keeps the id (when it is not empty) and the mode
    of the old one and carries no [unresolved] flag. *)
Theorem updatePresetGrouping_in_range
    apiInfo presetName (i : nat) existing s e groupName keys ids :
  hostAccepts apiInfo presetName = true ->
  currentGroupings apiInfo presetName keys ids !! i = Some existing ->
  let res := updatePresetGrouping apiInfo presetName (Z.of_nat i) s e groupName
               keys ids in
  let updated := updatedRecord existing (ids (length (rawEntries apiInfo presetName)))
                   groupName s e in
  res.1 = true
  /\ storedGrouping res.2 presetName
     = Some (JArr (<[i := updated]> (currentGroupings apiInfo presetName keys ids)))
  /\ (forall name, name <> presetName ->
        storedGrouping res.2 name = storedGrouping apiInfo name)
  /\ (truthy (get existing "id") = true -> get updated "id" = get existing "id")
  /\ get updated "mode" = get existing "mode"
  /\ get updated "unresolved" = JUndefined.
Proof.
  intros Hacc Hi res updated.
  pose proof (currentGroupings_truthy _ _ _ _ _ _ Hi) as Htruthy.
  assert (Hmode : truthy (get existing "mode") = true).
  { destruct (store_records_wellformed apiInfo presetName keys ids) as [_ Hall].
    rewrite Forall_lookup in Hall. destruct (Hall i existing Hi) as [Hrec _].
    unfold groupRecord in Hrec. by apply andb_true_iff in Hrec as [_ ?]. }
  assert (Hfields : (truthy (get existing "id") = true ->
                     get updated "id" = get existing "id")
                    /\ get updated "mode" = get existing "mode"
                    /\ get updated "unresolved" = JUndefined).
  { subst updated. unfold updatedRecord. cbn. split; [|split; [|done]].
    - intros Hid. by rewrite (or_truthy _ _ Hid).
    - by rewrite (or_truthy _ _ Hmode). }
  subst res. unfold updatePresetGrouping, hostAccepts in *.
  destruct apiInfo as [pm|]; [|discriminate].
  destruct (presets pm !! presetName) as [presetObj|] eqn:Hp; [|discriminate].
  apply andb_true_iff in Hacc as [Hw Hfail]. apply negb_true_iff in Hfail.
  rewrite (currentGroupings_found pm presetName presetObj keys ids Hp) in Hi |- *.
  subst updated.
  rewrite (rawEntries_found pm presetName presetObj Hp) in Hfields |- *.
  rewrite (in_range_test i _ existing Hi), Nat2Z.id, Hi.
  cbn [default from_option]. unfold id. rewrite (or_truthy existing _ Htruthy).
  apply extensionsWritable_ensured in Hw as [ext Hext].
  match goal with
  | |- context [commitGroupings pm presetName ?o ?g] =>
      destruct (commitGroupings_spec pm presetName o ext g Hext)
        as (Hres & Hst & Hoth & _)
  end.
  rewrite Hfail in Hres. unfold updatedRecord in *. done.
Qed.

Lemma updatePresetGrouping_in_range_witness :
  let res := updatePresetGrouping
               (Some (hostWith (JArr [anchorRecord "a" "b"]) (Some "P") false))
               "P" 0 (JStr "a") (JStr "c") (JStr "Renamed") keysABCD scenarioIds in
  res.1 = true
  /\ storedGrouping res.2 "P"
     = Some (JArr [JObj [("id", JStr "g"); ("name", JStr "Renamed");
                         ("startIdentifier", JStr "a"); ("endIdentifier", JStr "c");
                         ("mode", JStr "inclusive")]]).
Proof.
  pose proof (updatePresetGrouping_in_range
                (Some (hostWith (JArr [anchorRecord "a" "b"]) (Some "P") false))
                "P" 0
                (JObj [("id", JStr "g"); ("name", JStr "G"); ("mode", JStr "inclusive");
                       ("startIdentifier", JStr "a"); ("endIdentifier", JStr "b")])
                (JStr "a") (JStr "c") (JStr "Renamed") keysABCD scenarioIds
                eq_refl eq_refl) as H.
  split; [exact (proj1 H) | exact (proj1 (proj2 H))].
Defined.

(** X10. A removal at a position of the write-normalized list that the host
    accepts stores that list without the record at the position, and changes
    no other preset. *)
Theorem removePresetGrouping_in_range apiInfo presetName (i : nat) existing keys ids :
  hostAccepts apiInfo presetName = true ->
  currentGroupings apiInfo presetName keys ids !! i = Some existing ->
  let res := removePresetGrouping apiInfo presetName (Z.of_nat i) keys ids in
  res.1 = true
  /\ storedGrouping res.2 presetName
     = Some (JArr (delete i (currentGroupings apiInfo presetName keys ids)))
  /\ (forall name, name <> presetName ->
        storedGrouping res.2 name = storedGrouping apiInfo name).
Proof.
  intros Hacc Hi res.
  subst res. unfold removePresetGrouping, hostAccepts in *.
  destruct apiInfo as [pm|]; [|discriminate].
  destruct (presets pm !! presetName) as [presetObj|] eqn:Hp; [|discriminate].
  apply andb_true_iff in Hacc as [Hw Hfail]. apply negb_true_iff in Hfail.
  rewrite (currentGroupings_found pm presetName presetObj keys ids Hp) in Hi |- *.
  rewrite (in_range_test i _ existing Hi), Nat2Z.id.
  apply extensionsWritable_ensured in Hw as [ext Hext].
  match goal with
  | |- context [commitGroupings pm presetName ?o ?g] =>
      destruct (commitGroupings_spec pm presetName o ext g Hext)
        as (Hres & Hst & Hoth & _)
  end.
  rewrite Hfail in Hres. done.
Qed.

Lemma removePresetGrouping_in_range_witness :
  let res := removePresetGrouping
               (Some (hostWith (JArr [anchorRecord "a" "b"; anchorRecord "c" "d"])
                        (Some "P") false))
               "P" 0 keysABCD scenarioIds in
  res.1 = true
  /\ storedGrouping res.2 "P"
     = Some (JArr [JObj [("id", JStr "g"); ("name", JStr "G"); ("mode", JStr "inclusive");
                         ("startIdentifier", JStr "c"); ("endIdentifier", JStr "d")]]).
Proof.
  pose proof (removePresetGrouping_in_range
                (Some (hostWith (JArr [anchorRecord "a" "b"; anchorRecord "c" "d"])
                         (Some "P") false))
                "P" 0
                (JObj [("id", JStr "g"); ("name", JStr "G"); ("mode", JStr "inclusive");
                       ("startIdentifier", JStr "a"); ("endIdentifier", JStr "b")])
                keysABCD scenarioIds eq_refl eq_refl) as H.
  split; [exact (proj1 H) | exact (proj1 (proj2 H))].
Defined.

End StoreMutations.

(** ** World-info groups: membership, clean-up and order *)

Section WorldInfoMembership.

Lemma lookupGroup_updateGroup k gid f gs :
  lookupGroup k (updateGroup gid f gs)
  = if decide (k = gid) then f <$> lookupGroup gid gs else lookupGroup k gs.
Proof.
  induction gs as [|[k0 g0] rest IH]; cbn.
  - by destruct (decide _).
  - destruct (String.eqb_spec k0 gid) as [->|Hne]; cbn.
    + destruct (decide (k = gid)) as [->|Hk].
      * by rewrite String.eqb_refl.
      * destruct (String.eqb_spec gid k); [congruence|done].
    + rewrite IH. destruct (decide (k = gid)) as [->|Hk].
      * destruct (String.eqb_spec k0 gid); [congruence|done].
      * done.
Qed.

Lemma keys_updateGroup gid f gs : (updateGroup gid f gs).*1 = gs.*1.
Proof.
  induction gs as [|[k0 g0] rest IH]; cbn; [done|].
  destruct (String.eqb k0 gid); cbn; [done|by rewrite IH].
Qed.

Lemma objectKeys_updateGroup gid f gs : objectKeys (updateGroup gid f gs) = objectKeys gs.
Proof. unfold objectKeys. by rewrite keys_updateGroup. Qed.

Lemma lookupGroup_assignGroup k gid g gs :
  lookupGroup k (assignGroup gid g gs)
  = if decide (k = gid) then Some g else lookupGroup k gs.
Proof.
  induction gs as [|[k0 g0] rest IH]; cbn.
  - destruct (decide (k = gid)) as [->|Hk].
    + by rewrite String.eqb_refl.
    + destruct (String.eqb_spec gid k); [congruence|done].
  - destruct (String.eqb_spec k0 gid) as [->|Hne]; cbn.
    + destruct (decide (k = gid)) as [->|Hk].
      * by rewrite String.eqb_refl.
      * destruct (String.eqb_spec gid k); [congruence|done].
    + rewrite IH. destruct (decide (k = gid)) as [->|Hk].
      * destruct (String.eqb_spec k0 gid); [congruence|done].
      * done.
Qed.


Lemma lookupGroup_deleteKey k gid gs :
  lookupGroup k (deleteKey gid gs)
  = if decide (k = gid) then None else lookupGroup k gs.
Proof.
  unfold deleteKey. induction gs as [|[k0 g0] rest IH].
  - cbn. by destruct (decide _).
  - rewrite filter_cons. cbn [fst lookupGroup].
    destruct (decide (k0 <> gid)) as [Hne|Heq]; cbn [lookupGroup].
    + rewrite IH. destruct (decide (k = gid)) as [->|Hk].
      * destruct (String.eqb_spec k0 gid); [congruence|done].
      * done.
    + apply dec_stable in Heq. subst k0. rewrite IH.
      destruct (decide (k = gid)) as [->|Hk]; [done|].
      destruct (String.eqb_spec gid k); [congruence|done].
Qed.

Lemma remove_dups_filter (P : string -> Prop) `{!forall x, Decision (P x)} (l : list string) :
  remove_dups (filter P l) = filter P (remove_dups l).
Proof.
  induction l as [|x l IH]; [done|].
  rewrite filter_cons. cbn [remove_dups].
  destruct (decide (P x)) as [Hx|Hx].
  - cbn [remove_dups].
    destruct (decide_rel elem_of x l) as [Hin|Hin],
             (decide_rel elem_of x (filter P l)) as [Hin'|Hin'].
    + done.
    + destruct Hin'. by apply list_elem_of_filter.
    + apply list_elem_of_filter in Hin'. tauto.
    + rewrite filter_cons, decide_True by done. by rewrite IH.
  - destruct (decide_rel elem_of x l) as [Hin|Hin]; [done|].
    rewrite filter_cons, decide_False by done. done.
Qed.

Lemma objectKeys_deleteKey gid gs :
  objectKeys (deleteKey gid gs) = filter (fun k => k <> gid) (objectKeys gs).
Proof.
  unfold objectKeys, deleteKey. rewrite <- remove_dups_filter. f_equal.
  induction gs as [|[k0 g0] rest IH]; [done|].
  rewrite fmap_cons, !filter_cons. cbn [fst].
  destruct (decide (k0 <> gid)); rewrite ?fmap_cons, IH; done.
Qed.

Lemma groupOrder_ensureWorldBook st worldName :
  groupOrder (ensureWorldBook st worldName) = Some (storedOrder st worldName).
Proof.
  unfold storedOrder, ensureWorldBook.
  destruct (groupOrder (default emptyWorldBook (worldbooks st !! worldName))) eqn:Ho;
    [by rewrite Ho|done].
Qed.

Lemma storedOrder_putWorldBook st worldName gs order :
  storedOrder (putWorldBook st worldName {| groups := gs; groupOrder := Some order |})
    worldName = order.
Proof.
  unfold storedOrder, ensureWorldBook, putWorldBook. cbn [worldbooks].
  by rewrite lookup_insert_eq.
Qed.

Lemma groupsOf_getWorldGroups st worldName :
  (getWorldGroups st worldName).1 = groupsOf st worldName
  /\ groupsOf (getWorldGroups st worldName).2 worldName = groupsOf st worldName
  /\ saveRequests (getWorldGroups st worldName).2 = saveRequests st
  /\ storedOrder (getWorldGroups st worldName).2 worldName = storedOrder st worldName.
Proof.
  unfold getWorldGroups. cbn [fst snd].
  rewrite groupsOf_putWorldBook, groups_ensureWorldBook.
  repeat split; try done.
  pose proof (groupOrder_ensureWorldBook st worldName) as Ho.
  destruct (ensureWorldBook st worldName) as [gs o]. cbn in Ho. subst o.
  apply storedOrder_putWorldBook.
Qed.

Lemma withGroups_spec st worldName gs :
  groupsOf (withGroups st worldName gs) worldName = gs
  /\ saveRequests (withGroups st worldName gs) = saveRequests st
  /\ storedOrder (withGroups st worldName gs) worldName = storedOrder st worldName.
Proof.
  unfold withGroups. rewrite groupsOf_putWorldBook. cbn [groups].
  repeat split; try done.
  rewrite groupOrder_ensureWorldBook. apply storedOrder_putWorldBook.
Qed.

Lemma saveSettings_spec st worldName :
  groupsOf (saveSettings st) worldName = groupsOf st worldName
  /\ saveRequests (saveSettings st) = S (saveRequests st)
  /\ storedOrder (saveSettings st) worldName = storedOrder st worldName.
Proof. done. Qed.

Lemma firstGroupWhere_Some test gs gid :
  firstGroupWhere test gs = Some gid ->
  exists g, lookupGroup gid gs = Some g /\ test g = true.
Proof.
  unfold firstGroupWhere. intros Hf. apply find_some in Hf as [_ Hf].
  destruct (lookupGroup gid gs) as [g|]; [eauto|discriminate].
Qed.

Lemma firstGroupWhere_None test gs :
  firstGroupWhere test gs = None <->
  forall gid g, lookupGroup gid gs = Some g -> test g = false.
Proof.
  unfold firstGroupWhere. split.
  - intros Hf gid g Hg.
    assert (Hin : In gid (objectKeys gs)).
    { apply list_elem_of_In, elem_of_objectKeys, lookupGroup_is_Some. eauto. }
    pose proof (find_none _ _ Hf gid Hin) as Hn. cbn in Hn. by rewrite Hg in Hn.
  - intros Hall. destruct (find _ _) as [gid|] eqn:Hf; [|done].
    apply find_some in Hf as [_ Hf].
    destruct (lookupGroup gid gs) as [g|] eqn:Hg; [|discriminate].
    rewrite (Hall gid g Hg) in Hf. discriminate.
Qed.

Lemma firstGroupWhere_unique test gs gid g :
  lookupGroup gid gs = Some g -> test g = true ->
  (forall k g', lookupGroup k gs = Some g' -> test g' = true -> k = gid) ->
  firstGroupWhere test gs = Some gid.
Proof.
  intros Hg Ht Huniq.
  destruct (firstGroupWhere test gs) as [k|] eqn:Hf.
  - apply firstGroupWhere_Some in Hf as (g' & Hg' & Ht'). f_equal. eauto.
  - rewrite firstGroupWhere_None in Hf. rewrite (Hf gid g Hg) in Ht. discriminate.
Qed.

Lemma saved_withGroups st worldName gs :
  groupsOf (saveSettings (withGroups st worldName gs)) worldName = gs
  /\ saveRequests (saveSettings (withGroups st worldName gs)) = S (saveRequests st)
  /\ storedOrder (saveSettings (withGroups st worldName gs)) worldName
     = storedOrder st worldName.
Proof.
  destruct (withGroups_spec st worldName gs) as (Hg & Hs & Ho).
  destruct (saveSettings_spec (withGroups st worldName gs) worldName) as (-> & -> & ->).
  by rewrite Hg, Hs, Ho.
Qed.

Lemma removeEntryFromGroup_spec st worldName uid :
  let gs := groupsOf st worldName in
  let res := removeEntryFromGroup st worldName uid in
  (res.1 = true <->
   exists gid g, lookupGroup gid gs = Some g /\ isEntryInGroup (entries g) uid = true)
  /\ (res.1 = false ->
      groupsOf res.2 worldName = gs /\ saveRequests res.2 = saveRequests st)
  /\ (res.1 = true ->
      exists gid g,
        lookupGroup gid gs = Some g
        /\ isEntryInGroup (entries g) uid = true
        /\ lookupGroup gid (groupsOf res.2 worldName)
           = Some (withEntries g (removeFirstMatch uid (entries g)))
        /\ (forall k, k <> gid ->
              lookupGroup k (groupsOf res.2 worldName) = lookupGroup k gs)
        /\ saveRequests res.2 = S (saveRequests st)).
Proof.
  intros gs res. subst res. unfold removeEntryFromGroup.
  destruct (groupsOf_getWorldGroups st worldName) as (Hgs & Hgs' & Hsave & _).
  destruct (getWorldGroups st worldName) as [gs0 st1] eqn:Hget.
  cbn [fst snd] in *. subst gs0. fold gs.
  destruct (firstGroupWhere _ gs) as [gid|] eqn:Hfirst; cbn [fst snd].
  - destruct (firstGroupWhere_Some _ _ _ Hfirst) as (g & Hg & Hin).
    destruct (saved_withGroups st worldName
                (updateGroup gid
                   (fun g => withEntries g (removeFirstMatch uid (entries g))) gs))
      as (Hwg & Hws & _).
    split; [split; [eauto|done]|]. split; [discriminate|]. intros _.
    exists gid, g. rewrite Hwg, Hws.
    repeat split; try done.
    + rewrite lookupGroup_updateGroup, decide_True by done. by rewrite Hg.
    + intros k Hk. by rewrite lookupGroup_updateGroup, decide_False.
  - rewrite firstGroupWhere_None in Hfirst.
    split; [split; [discriminate|]|split; [done|discriminate]].
    intros (gid & g & Hg & Hin). rewrite (Hfirst gid g Hg) in Hin. discriminate.
Qed.

Lemma isEntryInGroup_true es uid :
  isEntryInGroup es uid = true <-> exists u, u ∈ es /\ uidMatch u uid = true.
Proof.
  unfold isEntryInGroup. rewrite existsb_exists.
  split; intros (u & Hin & Hm); exists u; split; try done; by apply list_elem_of_In.
Qed.

Lemma sublist_filter_length {A} (P : A -> Prop) `{!forall x, Decision (P x)} (l1 l2 : list A) :
  l1 `sublist_of` l2 -> length (filter P l1) <= length (filter P l2).
Proof.
  induction 1 as [|x l1 l2 _ IH|x l1 l2 _ IH]; [done| |].
  - rewrite !filter_cons. destruct (decide (P x)); cbn; lia.
  - rewrite filter_cons. destruct (decide (P x)); cbn; lia.
Qed.

Lemma removeFirstMatch_sublist uid es : removeFirstMatch uid es `sublist_of` es.
Proof.
  induction es as [|u es IH]; cbn; [done|].
  destruct (uidMatch u uid); [by apply sublist_cons|by apply sublist_skip].
Qed.

Lemma exclusive_shrink gs gs' :
  (forall k g', lookupGroup k gs' = Some g' ->
     entries g' = []
     \/ exists g, lookupGroup k gs = Some g /\ entries g' `sublist_of` entries g) ->
  exclusiveMembership gs -> exclusiveMembership gs'.
Proof.
  intros Hsub Hex uid. destruct (Hex uid) as [Honce Hone]. split.
  - intros gid g' Hg'. unfold listedAtMostOnce.
    destruct (Hsub gid g' Hg') as [->|(g & Hg & Hs)]; [cbn; lia|].
    pose proof (Honce gid g Hg) as Hle. unfold listedAtMostOnce in Hle.
    pose proof (sublist_filter_length (fun u => uidMatch u uid = true) _ _ Hs). lia.
  - intros gid1 gid2 g1' g2' Hg1 Hg2 Hin1 Hin2.
    destruct (Hsub gid1 g1' Hg1) as [Hnil|(g1 & Hg1' & Hs1)];
      [rewrite Hnil in Hin1; discriminate|].
    destruct (Hsub gid2 g2' Hg2) as [Hnil|(g2 & Hg2' & Hs2)];
      [rewrite Hnil in Hin2; discriminate|].
    apply (Hone gid1 gid2 g1 g2 Hg1' Hg2').
    + apply isEntryInGroup_true in Hin1 as (u & Hu & Hm).
      apply isEntryInGroup_true. exists u. split; [by eapply elem_of_sublist|done].
    + apply isEntryInGroup_true in Hin2 as (u & Hu & Hm).
      apply isEntryInGroup_true. exists u. split; [by eapply elem_of_sublist|done].
Qed.

Lemma pushEntry_updateGroup gid uid gs :
  pushEntry gid uid gs = updateGroup gid (fun g => withEntries g (entries g ++ [uid])) gs.
Proof.
  induction gs as [|[k g] rest IH]; cbn; [done|].
  destruct (String.eqb k gid); [done|by rewrite IH].
Qed.

Lemma uidMatch_refl uid : uidMatch uid uid = true.
Proof. unfold uidMatch. apply String.eqb_refl. Qed.

Lemma uidMatch_eq u uid : uidMatch u uid = true <-> numberToString u = numberToString uid.
Proof. unfold uidMatch. apply String.eqb_eq. Qed.

Lemma isEntryInGroup_snoc es uid : isEntryInGroup (es ++ [uid]) uid = true.
Proof.
  unfold isEntryInGroup. rewrite existsb_app. cbn. rewrite uidMatch_refl.
  by rewrite orb_true_r.
Qed.

Lemma removeFirstMatch_snoc uid es :
  isEntryInGroup es uid = false -> removeFirstMatch uid (es ++ [uid]) = es.
Proof.
  unfold isEntryInGroup. induction es as [|u es IH]; cbn.
  - by rewrite uidMatch_refl.
  - destruct (uidMatch u uid); [discriminate|]. cbn. intros H. by rewrite IH.
Qed.

(** The groups after a successful [addEntryToGroup], group by group. *)
Lemma addEntryToGroup_lookup st worldName groupId uid target :
  lookupGroup groupId (groupsOf st worldName) = Some target ->
  listedAtMostOnce uid (entries target) ->
  let res := addEntryToGroup st worldName groupId uid in
  res.1 = true
  /\ saveRequests res.2 = S (saveRequests st)
  /\ forall k,
       lookupGroup k (groupsOf res.2 worldName)
       = (fun g => withEntries g
                     (if decide (k = groupId)
                      then removeFirstMatch uid (entries g) ++ [uid]
                      else removeFirstMatch uid (entries g)))
           <$> lookupGroup k (groupsOf st worldName).
Proof.
  intros Htarget Honce res. subst res.
  pose proof (addEntryToGroup_spec st worldName groupId uid) as Hspec.
  cbn zeta in Hspec. rewrite lookupGroup_removeFromAll, Htarget in Hspec.
  cbn [fmap option_fmap option_map entries withEntries] in Hspec.
  rewrite (removeFirstMatch_once uid (entries target) Honce) in Hspec.
  destruct Hspec as (Hres & Hgs & Hsave). split; [done|split; [done|]].
  intros k. rewrite Hgs, pushEntry_updateGroup, lookupGroup_updateGroup.
  rewrite !lookupGroup_removeFromAll.
  destruct (decide (k = groupId)) as [->|Hk]; [|done].
  rewrite Htarget. done.
Qed.

Lemma getEntryGroup_spec st worldName uid :
  (getEntryGroup st worldName uid).1
  = firstGroupWhere (fun g => isEntryInGroup (entries g) uid) (groupsOf st worldName)
  /\ groupsOf (getEntryGroup st worldName uid).2 worldName = groupsOf st worldName
  /\ saveRequests (getEntryGroup st worldName uid).2 = saveRequests st.
Proof.
  unfold getEntryGroup.
  destruct (groupsOf_getWorldGroups st worldName) as (Hgs & Hgs' & Hsave & _).
  destruct (getWorldGroups st worldName) as [gs0 st1]. cbn [fst snd] in *.
  by subst gs0.
Qed.


Lemma membership_round_trip_all st worldName groupId uid target :
  lookupGroup groupId (groupsOf st worldName) = Some target ->
  (forall k g, lookupGroup k (groupsOf st worldName) = Some g ->
     listedAtMostOnce uid (entries g)) ->
  let added := addEntryToGroup st worldName groupId uid in
  let removed := removeEntryFromGroup added.2 worldName uid in
  added.1 = true
  /\ (getEntryGroup added.2 worldName uid).1 = Some groupId
  /\ removed.1 = true
  /\ (getEntryGroup removed.2 worldName uid).1 = None
  /\ forall k, lookupGroup k (groupsOf removed.2 worldName)
               = (fun g => withEntries g (removeFirstMatch uid (entries g)))
                   <$> lookupGroup k (groupsOf st worldName).
Proof.
  intros Htarget Honce added removed.
  destruct (addEntryToGroup_lookup st worldName groupId uid target Htarget
              (Honce _ _ Htarget)) as (Hres & _ & Hlook).
  fold added in Hres, Hlook.
  assert (Hin : forall k g', lookupGroup k (groupsOf added.2 worldName) = Some g' ->
                  isEntryInGroup (entries g') uid = true -> k = groupId).
  { intros k g' Hg' Hc. rewrite Hlook in Hg'.
    destruct (lookupGroup k (groupsOf st worldName)) as [g|] eqn:Hg; [|discriminate].
    injection Hg' as <-. cbn [entries withEntries] in Hc.
    destruct (decide (k = groupId)); [done|].
    rewrite (removeFirstMatch_once uid (entries g) (Honce _ _ Hg)) in Hc. discriminate. }
  assert (Hgid : lookupGroup groupId (groupsOf added.2 worldName)
                 = Some (withEntries target
                           (removeFirstMatch uid (entries target) ++ [uid]))).
  { rewrite Hlook, Htarget. cbn. by destruct (decide (groupId = groupId)). }
  assert (Hfirst : firstGroupWhere (fun g => isEntryInGroup (entries g) uid)
                     (groupsOf added.2 worldName) = Some groupId).
  { eapply firstGroupWhere_unique; [exact Hgid|apply isEntryInGroup_snoc|exact Hin]. }
  destruct (removeEntryFromGroup_spec added.2 worldName uid) as (Hiff & _ & Hrem).
  fold removed in Hiff, Hrem.
  assert (Hremoved : removed.1 = true).
  { apply Hiff. eexists _, _. split; [exact Hgid|apply isEntryInGroup_snoc]. }
  destruct (Hrem Hremoved) as (gid & g & Hg & Hc & Hafter & Hothers & _).
  assert (gid = groupId) as -> by eauto.
  rewrite Hgid in Hg. injection Hg as <-. cbn [entries withEntries] in Hafter.
  rewrite removeFirstMatch_snoc in Hafter
    by (apply removeFirstMatch_once, (Honce _ _ Htarget)).
  assert (Hfinal : forall k, lookupGroup k (groupsOf removed.2 worldName)
               = (fun g => withEntries g (removeFirstMatch uid (entries g)))
                   <$> lookupGroup k (groupsOf st worldName)).
  { intros k. destruct (decide (k = groupId)) as [->|Hk].
    - rewrite Hafter, Htarget. done.
    - rewrite (Hothers k Hk), Hlook. by destruct (decide (k = groupId)). }
  split; [done|]. split; [by rewrite (proj1 (getEntryGroup_spec _ _ _))|].
  split; [done|]. split; [|done].
  rewrite (proj1 (getEntryGroup_spec _ _ _)). apply firstGroupWhere_None.
  intros k g' Hg'. rewrite Hfinal in Hg'.
  destruct (lookupGroup k (groupsOf st worldName)) as [g|] eqn:Hg0; [|discriminate].
  injection Hg' as <-. apply removeFirstMatch_once, (Honce _ _ Hg0).
Qed.

Lemma uidMatch_congr u uid uid' :
  uidMatch uid uid' = true -> uidMatch u uid' = uidMatch u uid.
Proof. rewrite uidMatch_eq. unfold uidMatch. by intros ->. Qed.

Lemma isEntryInGroup_congr es uid uid' :
  uidMatch uid uid' = true -> isEntryInGroup es uid' = isEntryInGroup es uid.
Proof.
  intros Hm. unfold isEntryInGroup. induction es as [|u es IH]; cbn; [done|].
  by rewrite IH, (uidMatch_congr u uid uid' Hm).
Qed.

Lemma filter_match_absent (es : list number) uid :
  isEntryInGroup es uid = false -> filter (fun u => uidMatch u uid = true) es = [].
Proof.
  unfold isEntryInGroup. induction es as [|u es IH]; cbn [existsb]; [done|].
  rewrite filter_cons. destruct (uidMatch u uid) eqn:Hm; [discriminate|].
  cbn [orb]. intros H. rewrite decide_False by done. auto.
Qed.

Lemma filter_match_congr (es : list number) uid uid' :
  uidMatch uid uid' = true ->
  filter (fun u => uidMatch u uid' = true) es = filter (fun u => uidMatch u uid = true) es.
Proof.
  intros Hm. apply filter_ext_elem. intros u _. by rewrite (uidMatch_congr u uid uid' Hm).
Qed.

Lemma exclusive_push gs gid uid :
  exclusiveMembership gs ->
  (forall k g, lookupGroup k gs = Some g -> isEntryInGroup (entries g) uid = false) ->
  exclusiveMembership (pushEntry gid uid gs).
Proof.
  intros Hex Habs uid'. destruct (Hex uid') as [Honce Hone].
  rewrite pushEntry_updateGroup.
  assert (Hlook : forall k g', lookupGroup k
            (updateGroup gid (fun g => withEntries g (entries g ++ [uid])) gs) = Some g' ->
            exists g, lookupGroup k gs = Some g
                      /\ entries g' = if decide (k = gid) then entries g ++ [uid]
                                      else entries g).
  { intros k g'. rewrite lookupGroup_updateGroup.
    destruct (decide (k = gid)) as [->|Hk].
    - destruct (lookupGroup gid gs) as [g|]; [|discriminate].
      intros [= <-]. by exists g.
    - intros Hg. by exists g'. }
  destruct (uidMatch uid uid') eqn:Hm.
  - split.
    + intros k g' Hg'. destruct (Hlook k g' Hg') as (g & Hg & Hes).
      unfold listedAtMostOnce. rewrite Hes.
      destruct (decide (k = gid)).
      * rewrite filter_app, (filter_match_congr _ uid uid' Hm),
          (filter_match_absent _ _ (Habs _ _ Hg)).
        rewrite filter_cons, filter_nil. destruct (decide _); cbn; lia.
      * apply (Honce k g Hg).
    + assert (Hgid : forall k g', lookupGroup k
            (updateGroup gid (fun g => withEntries g (entries g ++ [uid])) gs) = Some g' ->
            isEntryInGroup (entries g') uid' = true -> k = gid).
      { intros k g' Hg' Hc. destruct (Hlook k g' Hg') as (g & Hg & Hes).
        destruct (decide (k = gid)); [done|].
        rewrite Hes, (isEntryInGroup_congr _ uid uid' Hm), (Habs _ _ Hg) in Hc.
        discriminate. }
      intros gid1 gid2 g1 g2 Hg1 Hg2 Hc1 Hc2.
      by rewrite (Hgid _ _ Hg1 Hc1), (Hgid _ _ Hg2 Hc2).
  - assert (Hsame : forall k g', lookupGroup k
            (updateGroup gid (fun g => withEntries g (entries g ++ [uid])) gs) = Some g' ->
            exists g, lookupGroup k gs = Some g
              /\ filter (fun u => uidMatch u uid' = true) (entries g')
                 = filter (fun u => uidMatch u uid' = true) (entries g)
              /\ isEntryInGroup (entries g') uid' = isEntryInGroup (entries g) uid').
    { intros k g' Hg'. destruct (Hlook k g' Hg') as (g & Hg & Hes).
      exists g. split; [done|]. rewrite Hes. destruct (decide (k = gid)); [|done].
      unfold isEntryInGroup. rewrite filter_app, existsb_app, filter_cons, filter_nil.
      cbn. rewrite Hm. rewrite decide_False by done.
      by rewrite app_nil_r, orb_false_r. }
    split.
    + intros k g' Hg'. destruct (Hsame k g' Hg') as (g & Hg & Hf & _).
      unfold listedAtMostOnce. rewrite Hf. apply (Honce k g Hg).
    + intros gid1 gid2 g1' g2' Hg1 Hg2 Hc1 Hc2.
      destruct (Hsame _ _ Hg1) as (g1 & Hg1' & _ & He1).
      destruct (Hsame _ _ Hg2) as (g2 & Hg2' & _ & He2).
      rewrite He1 in Hc1. rewrite He2 in Hc2. eauto.
Qed.

Lemma exclusive_removeFromAll gs uid :
  exclusiveMembership gs ->
  exclusiveMembership (removeFromAll uid gs)
  /\ forall k g, lookupGroup k (removeFromAll uid gs) = Some g ->
       isEntryInGroup (entries g) uid = false.
Proof.
  intros Hex. split.
  - apply (exclusive_shrink gs); [|done].
    intros k g'. rewrite lookupGroup_removeFromAll.
    destruct (lookupGroup k gs) as [g|]; [|discriminate].
    intros [= <-]. right. exists g. split; [done|apply removeFirstMatch_sublist].
  - intros k g'. rewrite lookupGroup_removeFromAll.
    destruct (lookupGroup k gs) as [g|] eqn:Hg; [|discriminate].
    intros [= <-]. apply removeFirstMatch_once, (proj1 (Hex uid) k g Hg).
Qed.

Lemma exclusive_addEntryToGroup st worldName groupId uid :
  exclusiveMembership (groupsOf st worldName) ->
  exclusiveMembership (groupsOf (addEntryToGroup st worldName groupId uid).2 worldName).
Proof.
  intros Hex. destruct (exclusive_removeFromAll _ uid Hex) as [Hex1 Habs].
  pose proof (addEntryToGroup_spec st worldName groupId uid) as Hspec.
  cbn zeta in Hspec.
  destruct (lookupGroup groupId (removeFromAll uid (groupsOf st worldName))) as [t|].
  - destruct (isEntryInGroup (entries t) uid).
    + destruct Hspec as (_ & -> & _). done.
    + destruct Hspec as (_ & -> & _). by apply exclusive_push.
  - destruct Hspec as (_ & -> & _). done.
Qed.

Lemma exclusive_removeEntryFromGroup st worldName uid :
  exclusiveMembership (groupsOf st worldName) ->
  exclusiveMembership (groupsOf (removeEntryFromGroup st worldName uid).2 worldName).
Proof.
  intros Hex.
  destruct (removeEntryFromGroup_spec st worldName uid) as (_ & Hfalse & Htrue).
  destruct (removeEntryFromGroup st worldName uid).1 eqn:Hres.
  - destruct (Htrue eq_refl) as (gid & g & Hg & _ & Hafter & Hothers & _).
    apply (exclusive_shrink (groupsOf st worldName)); [|done].
    intros k g' Hg'. right. destruct (decide (k = gid)) as [->|Hk].
    + rewrite Hafter in Hg'. injection Hg' as <-. exists g.
      split; [done|apply removeFirstMatch_sublist].
    + rewrite (Hothers k Hk) in Hg'. by exists g'.
  - destruct (Hfalse eq_refl) as [-> _]. done.
Qed.

Lemma twoGroupWorld_lookup es1 es2 k g :
  lookupGroup k (groupsOf (twoGroupWorld es1 es2) "book") = Some g ->
  (k = "g1" /\ entries g = es1) \/ (k = "g2" /\ entries g = es2).
Proof.
  change (groupsOf (twoGroupWorld es1 es2) "book")
    with [("g1", {| name := "A"; collapsed := false; entries := es1 |});
          ("g2", {| name := "B"; collapsed := true; entries := es2 |})].
  cbn [lookupGroup].
  destruct (String.eqb_spec "g1" k) as [<-|_]; [intros [= <-]; by left|].
  destruct (String.eqb_spec "g2" k) as [<-|_]; [intros [= <-]; by right|].
  discriminate.
Qed.

Lemma exclusive_twoGroupWorld :
  exclusiveMembership (groupsOf (twoGroupWorld [NInt 1] [NInt 2]) "book").
Proof.
  intros uid. split.
  - intros gid g Hg. unfold listedAtMostOnce.
    destruct (twoGroupWorld_lookup _ _ _ _ Hg) as [[_ ->]|[_ ->]];
      rewrite filter_cons, filter_nil; destruct (decide _); cbn; lia.
  - intros gid1 gid2 g1 g2 Hg1 Hg2 Hin1 Hin2.
    destruct (twoGroupWorld_lookup _ _ _ _ Hg1) as [[-> He1]|[-> He1]],
             (twoGroupWorld_lookup _ _ _ _ Hg2) as [[-> He2]|[-> He2]];
      try reflexivity; rewrite He1 in Hin1; rewrite He2 in Hin2;
      unfold isEntryInGroup in Hin1, Hin2; cbn [existsb] in Hin1, Hin2;
      rewrite orb_false_r in Hin1, Hin2;
      apply uidMatch_eq in Hin1; apply uidMatch_eq in Hin2;
      rewrite <- Hin2 in Hin1; vm_compute in Hin1; discriminate.
Qed.

(** X12. Membership round trip: when the target group exists and no group
    lists the uid more than once, [addEntryToGroup] succeeds and
    [getEntryGroup] then reports the target; a following
    [removeEntryFromGroup] succeeds and [getEntryGroup] reports no group. *)
Theorem membership_round_trip st worldName groupId uid target :
  lookupGroup groupId (groupsOf st worldName) = Some target ->
  (forall k g, lookupGroup k (groupsOf st worldName) = Some g ->
     listedAtMostOnce uid (entries g)) ->
  let added := addEntryToGroup st worldName groupId uid in
  let removed := removeEntryFromGroup added.2 worldName uid in
  added.1 = true
  /\ (getEntryGroup added.2 worldName uid).1 = Some groupId
  /\ removed.1 = true
  /\ (getEntryGroup removed.2 worldName uid).1 = None.
Proof.
  intros Htarget Honce added removed.
  destruct (membership_round_trip_all st worldName groupId uid target Htarget Honce)
    as (? & ? & ? & ? & _).
  done.
Qed.

Lemma membership_round_trip_witness :
  let added := addEntryToGroup (twoGroupWorld [NInt 1] [NInt 2]) "book" "g2" (NInt 1) in
  (getEntryGroup added.2 "book" (NInt 1)).1 = Some "g2"
  /\ (getEntryGroup (removeEntryFromGroup added.2 "book" (NInt 1)).2 "book"
        (NInt 1)).1 = None.
Proof.
  pose proof (membership_round_trip (twoGroupWorld [NInt 1] [NInt 2]) "book" "g2"
                (NInt 1) {| name := "B"; collapsed := true; entries := [NInt 2] |}
                eq_refl (fun k g Hg => proj1 (exclusive_twoGroupWorld (NInt 1)) k g Hg))
    as H.
  split; [exact (proj1 (proj2 H)) | exact (proj2 (proj2 (proj2 H)))].
Defined.

Lemma existsb_ext_elem {A} (f g : A -> bool) (l : list A) :
  (forall x, x ∈ l -> f x = g x) -> existsb f l = existsb g l.
Proof.
  induction l as [|x l IH]; intros Hfg; cbn; [done|].
  rewrite (Hfg x) by apply list_elem_of_here.
  rewrite IH; [done|]. intros y Hy. apply Hfg. rewrite elem_of_cons. tauto.
Qed.

Lemma cleanGroup_fold (validUids : gset string) ks :
  NoDup ks ->
  forall gs cleaned,
    let res := foldl (cleanGroup validUids) (gs, cleaned) ks in
    (forall k, lookupGroup k res.1
               = if decide (k ∈ ks)
                 then (fun g => withEntries g (keptEntries validUids g))
                        <$> lookupGroup k gs
                 else lookupGroup k gs)
    /\ res.2 = cleaned
               || existsb (fun k => match lookupGroup k gs with
                                    | Some g => hasOrphan validUids g
                                    | None => false
                                    end) ks.
Proof.
  induction 1 as [|k0 ks Hnotin Hnodup IH]; intros gs cleaned; cbn [foldl existsb].
  - split; [intros k; by rewrite decide_False by apply not_elem_of_nil|].
    by rewrite orb_false_r.
  - destruct (IH (cleanGroup validUids (gs, cleaned) k0).1
                 (cleanGroup validUids (gs, cleaned) k0).2) as [IHl IHf].
    rewrite <- surjective_pairing in IHl, IHf. cbn zeta in IHl, IHf.
    assert (Hstep : forall k,
              lookupGroup k (cleanGroup validUids (gs, cleaned) k0).1
              = if decide (k = k0)
                then (fun g => withEntries g (keptEntries validUids g))
                       <$> lookupGroup k gs
                else lookupGroup k gs).
    { intros k. unfold cleanGroup. cbn [fst snd].
      destruct (lookupGroup k0 gs) as [g0|] eqn:Hg0; cbn [fst].
      - rewrite lookupGroup_updateGroup.
        destruct (decide (k = k0)) as [->|]; [by rewrite Hg0|done].
      - destruct (decide (k = k0)) as [->|]; [by rewrite Hg0|done]. }
    split.
    + intros k. rewrite IHl, Hstep.
      destruct (decide (k = k0)) as [->|Hk].
      * rewrite decide_False by done. by rewrite decide_True by apply list_elem_of_here.
      * destruct (decide (k ∈ ks)) as [Hin|Hin].
        -- by rewrite decide_True by (rewrite elem_of_cons; tauto).
        -- rewrite decide_False; [done|]. rewrite elem_of_cons. tauto.
    + rewrite IHf.
      assert (Hflag : (cleanGroup validUids (gs, cleaned) k0).2
                      = cleaned || match lookupGroup k0 gs with
                                   | Some g => hasOrphan validUids g
                                   | None => false
                                   end).
      { unfold cleanGroup, hasOrphan, keptEntries. cbn [fst snd].
        destruct (lookupGroup k0 gs) as [g0|]; cbn [snd]; [|by rewrite orb_false_r].
        destruct (negb _); [by rewrite orb_true_r|by rewrite orb_false_r]. }
      rewrite Hflag, <- orb_assoc. f_equal. f_equal.
      apply existsb_ext_elem. intros k Hin.
      rewrite Hstep. rewrite decide_False; [done|]. intros ->. done.
Qed.

Lemma filter_length_eq {A} (P : A -> Prop) `{!forall x, Decision (P x)} (l : list A) :
  length (filter P l) = length l <-> Forall P l.
Proof.
  induction l as [|x l IH]; [by split; [constructor|]|].
  rewrite filter_cons, Forall_cons. pose proof (length_filter P l) as Hle.
  destruct (decide (P x)); cbn [length].
  - rewrite <- IH. split; [intros [= ?]; done|intros [_ ->]; done].
  - split; [lia|tauto].
Qed.

Lemma cleanOrphanedReferences_spec st worldName entryKeys :
  let gs := groupsOf st worldName in
  let res := cleanOrphanedReferences st worldName entryKeys in
  (forall k, lookupGroup k (groupsOf res.2 worldName)
             = keepValid entryKeys <$> lookupGroup k gs)
  /\ (res.1 = true <->
      exists k g uid,
        lookupGroup k gs = Some g /\ uid ∈ entries g
        /\ numberToString uid ∉ entryKeys)
  /\ saveRequests res.2 = (if res.1 then S (saveRequests st) else saveRequests st)
  /\ storedOrder res.2 worldName = storedOrder st worldName.
Proof.
  intros gs res. subst res. unfold cleanOrphanedReferences.
  destruct (groupsOf_getWorldGroups st worldName) as (Hgs & _ & _ & _).
  destruct (getWorldGroups st worldName) as [gs0 st1]. cbn [fst] in Hgs. subst gs0.
  fold gs.
  destruct (cleanGroup_fold (list_to_set entryKeys) (objectKeys gs)
              (NoDup_objectKeys gs) gs false) as [Hlook Hflag].
  cbn zeta in Hlook, Hflag.
  destruct (foldl _ _ _) as [gs' cleaned]. cbn [fst snd] in Hlook, Hflag.
  cbn [orb] in Hflag.
  assert (Hkeep : forall g : Group,
            withEntries g (keptEntries (list_to_set entryKeys) g)
            = keepValid entryKeys g).
  { intros g. unfold keepValid, keptEntries. f_equal. apply filter_ext_elem.
    intros uid _. apply elem_of_list_to_set. }
  assert (Hl : forall k, lookupGroup k gs' = keepValid entryKeys <$> lookupGroup k gs).
  { intros k. rewrite Hlook. destruct (decide (k ∈ objectKeys gs)) as [Hin|Hin].
    - destruct (lookupGroup k gs); cbn; [by rewrite Hkeep|done].
    - destruct (lookupGroup k gs) eqn:Hg; [|done].
      destruct Hin. apply elem_of_objectKeys, lookupGroup_is_Some. eauto. }
  assert (Hc : cleaned = true <->
               exists k g uid,
                 lookupGroup k gs = Some g /\ uid ∈ entries g
                 /\ numberToString uid ∉ entryKeys).
  { rewrite Hflag, existsb_exists. split.
    - intros (k & _ & Hk). destruct (lookupGroup k gs) as [g|] eqn:Hg; [|discriminate].
      unfold hasOrphan, keptEntries in Hk. apply negb_true_iff, Nat.eqb_neq in Hk.
      rewrite filter_length_eq in Hk. apply not_Forall_Exists in Hk; [|apply _].
      apply Exists_exists in Hk as (uid & Hin & Hnot).
      exists k, g, uid. unfold compose in Hnot.
      rewrite elem_of_list_to_set in Hnot. done.
    - intros (k & g & uid & Hg & Hin & Hnot). exists k. split.
      + apply list_elem_of_In, elem_of_objectKeys, lookupGroup_is_Some. eauto.
      + rewrite Hg. unfold hasOrphan, keptEntries. apply negb_true_iff, Nat.eqb_neq.
        rewrite filter_length_eq, Forall_forall. intros Hall.
        apply Hnot. apply (elem_of_list_to_set (C := gset string)). by apply Hall. }
  destruct cleaned; cbn [fst snd].
  - destruct (saved_withGroups st worldName gs') as (-> & -> & ->). done.
  - destruct (withGroups_spec st worldName gs') as (-> & -> & ->).
    split; [done|]. split; [|done]. rewrite <- Hc. done.
Qed.

Lemma cleanOrphanedReferences_idempotent st worldName entryKeys :
  let res := cleanOrphanedReferences st worldName entryKeys in
  let again := cleanOrphanedReferences res.2 worldName entryKeys in
  again.1 = false
  /\ (forall k, lookupGroup k (groupsOf again.2 worldName)
                = lookupGroup k (groupsOf res.2 worldName))
  /\ saveRequests again.2 = saveRequests res.2.
Proof.
  intros res again.
  destruct (cleanOrphanedReferences_spec st worldName entryKeys) as (Hl & _).
  destruct (cleanOrphanedReferences_spec res.2 worldName entryKeys)
    as (Hl2 & Hiff & Hsave & _).
  fold res in Hl. fold again in Hl2, Hiff, Hsave.
  assert (Hfalse : again.1 = false).
  { destruct again.1; [|done]. exfalso.
    destruct (proj1 Hiff eq_refl) as (k & g & uid & Hg & Hin & Hnot).
    rewrite Hl in Hg. destruct (lookupGroup k (groupsOf st worldName)); [|discriminate].
    injection Hg as <-. cbn [keepValid entries withEntries] in Hin.
    apply list_elem_of_filter in Hin as [Hv _]. done. }
  split; [done|]. rewrite Hfalse in Hsave. split; [|done].
  intros k. rewrite Hl2, Hl.
  destruct (lookupGroup k (groupsOf st worldName)) as [g|]; [|done].
  cbn. f_equal. unfold keepValid. cbn [entries withEntries]. f_equal.
  apply list_filter_filter_l. done.
Qed.

Lemma safeEntries_twoGroupWorld es1 es2 :
  Forall (fun uid => safeNumber uid = true) es1 ->
  Forall (fun uid => safeNumber uid = true) es2 ->
  safeEntries (groupsOf (twoGroupWorld es1 es2) "book").
Proof.
  rewrite !Forall_forall. intros H1 H2 gid g uid Hg Hin.
  destruct (twoGroupWorld_lookup _ _ _ _ Hg) as [[_ Hes]|[_ Hes]];
    rewrite Hes in Hin; auto.
Qed.

(** X14. In a world book whose groups list safe integers as uids,
    [cleanOrphanedReferences] leaves in every group exactly the uids that
    are keys of the world book's entries, in their order; it reports (and
    saves) exactly when some group listed another uid; run again, it reports
    nothing, changes no group and requests no save. *)
Theorem cleanOrphanedReferences_removes_orphans st worldName entryKeys :
  let gs := groupsOf st worldName in
  let res := cleanOrphanedReferences st worldName entryKeys in
  let again := cleanOrphanedReferences res.2 worldName entryKeys in
  readsWorldBook st worldName = true ->
  safeEntries gs ->
  (forall k, lookupGroup k (groupsOf res.2 worldName)
             = keepValid entryKeys <$> lookupGroup k gs)
  /\ (res.1 = true <->
      exists k g uid,
        lookupGroup k gs = Some g /\ uid ∈ entries g
        /\ numberToString uid ∉ entryKeys)
  /\ saveRequests res.2 = (if res.1 then S (saveRequests st) else saveRequests st)
  /\ again.1 = false
  /\ (forall k, lookupGroup k (groupsOf again.2 worldName)
                = lookupGroup k (groupsOf res.2 worldName))
  /\ saveRequests again.2 = saveRequests res.2.
Proof.
  intros gs res again _ _.
  destruct (cleanOrphanedReferences_spec st worldName entryKeys) as (? & ? & ? & _).
  destruct (cleanOrphanedReferences_idempotent st worldName entryKeys) as (? & ? & ?).
  done.
Qed.

Lemma cleanOrphanedReferences_removes_orphans_witness :
  (cleanOrphanedReferences (twoGroupWorld [NInt 1; NInt 7] [NInt 2]) "book"
     ["1"; "2"]).1 = true
  /\ lookupGroup "g1"
       (groupsOf (cleanOrphanedReferences (twoGroupWorld [NInt 1; NInt 7] [NInt 2])
                    "book" ["1"; "2"]).2 "book")
     = Some {| name := "A"; collapsed := false; entries := [NInt 1] |}.
Proof.
  destruct (cleanOrphanedReferences_removes_orphans
              (twoGroupWorld [NInt 1; NInt 7] [NInt 2]) "book" ["1"; "2"] eq_refl)
    as (Hgroups & Hres & _).
  - apply safeEntries_twoGroupWorld; repeat constructor.
  - split.
    + apply Hres.
      exists "g1", {| name := "A"; collapsed := false; entries := [NInt 1; NInt 7] |},
        (NInt 7).
      split; [reflexivity |]. split; [right; left |].
      intros Hin. apply list_elem_of_In in Hin. vm_compute in Hin.
      intuition discriminate.
    + rewrite Hgroups. vm_compute. reflexivity.
Defined.

Lemma createGroup_spec st worldName groupName groupId :
  let res := createGroup st worldName groupName groupId in
  res.1 = groupId
  /\ groupsOf res.2 worldName
     = assignGroup groupId {| name := groupName; collapsed := false; entries := [] |}
         (groupsOf st worldName)
  /\ saveRequests res.2 = S (saveRequests st)
  /\ storedOrder res.2 worldName = storedOrder st worldName.
Proof.
  intros res. subst res. unfold createGroup.
  destruct (groupsOf_getWorldGroups st worldName) as (Hgs & _).
  destruct (getWorldGroups st worldName) as [gs0 st1]. cbn [fst] in Hgs. subst gs0.
  cbn [fst snd].
  destruct (saved_withGroups st worldName
              (assignGroup groupId
                 {| name := groupName; collapsed := false; entries := [] |}
                 (groupsOf st worldName))) as (-> & -> & ->).
  done.
Qed.




Lemma filter_all {A} (P : A -> Prop) `{!forall x, Decision (P x)} (l : list A) :
  (forall x, x ∈ l -> P x) -> filter P l = l.
Proof.
  induction l as [|x l IH]; intros Hall; [done|].
  rewrite filter_cons, decide_True by (apply Hall, list_elem_of_here).
  f_equal. apply IH. intros y Hy. apply Hall. rewrite elem_of_cons. tauto.
Qed.

Lemma deleteGroup_spec st worldName groupId :
  let gs := groupsOf st worldName in
  let res := deleteGroup st worldName groupId in
  res.1 = hasGroup groupId gs
  /\ groupsOf res.2 worldName = (if res.1 then deleteKey groupId gs else gs)
  /\ saveRequests res.2 = (if res.1 then S (saveRequests st) else saveRequests st)
  /\ storedOrder res.2 worldName = storedOrder st worldName.
Proof.
  intros gs res. subst res. unfold deleteGroup.
  destruct (groupsOf_getWorldGroups st worldName) as (Hgs & Hgs' & Hs & Ho).
  destruct (getWorldGroups st worldName) as [gs0 st1]. cbn [fst snd] in *. subst gs0.
  fold gs. destruct (hasGroup groupId gs) eqn:Hg; cbn [fst snd].
  - destruct (saved_withGroups st worldName (deleteKey groupId gs)) as (-> & -> & ->).
    done.
  - done.
Qed.

(** The groups after [deleteGroup], whatever it reports. *)
Lemma lookupGroup_deleteGroup st worldName groupId k :
  lookupGroup k (groupsOf (deleteGroup st worldName groupId).2 worldName)
  = if decide (k = groupId) then None else lookupGroup k (groupsOf st worldName).
Proof.
  destruct (deleteGroup_spec st worldName groupId) as (Hres & -> & _).
  destruct (deleteGroup st worldName groupId).1; [apply lookupGroup_deleteKey |].
  destruct (decide (k = groupId)) as [-> |]; [| done].
  symmetry in Hres. unfold hasGroup in Hres.
  by destruct (lookupGroup groupId (groupsOf st worldName)).
Qed.

Lemma objectKeys_deleteGroup st worldName groupId :
  objectKeys (groupsOf (deleteGroup st worldName groupId).2 worldName)
  = filter (fun k => k <> groupId) (objectKeys (groupsOf st worldName)).
Proof.
  destruct (deleteGroup_spec st worldName groupId) as (Hres & -> & _).
  destruct (deleteGroup st worldName groupId).1; [apply objectKeys_deleteKey |].
  symmetry. apply filter_all. intros k Hk ->.
  apply hasGroup_key in Hk. congruence.
Qed.

(** X16. [deleteGroup] reports success, and requests a save, exactly when
    [groups[groupId]] is truthy: the group exists, or [groupId] names a
    property that every object inherits (nothing is deleted then).  In every
    case no group has the identifier afterwards and the other groups are as
    they were.  For an identifier that no object inherits, the next
    [getGroupOrder] is the previous order without the identifier; an
    inherited name that is in the stored order stays in the order. *)
Theorem deleteGroup_prunes_order st worldName groupId :
  let gs := groupsOf st worldName in
  let res := deleteGroup st worldName groupId in
  readsWorldBook st worldName = true ->
  (res.1 = true <-> is_Some (lookupGroup groupId gs) \/ inherited groupId = true)
  /\ lookupGroup groupId (groupsOf res.2 worldName) = None
  /\ (forall k, k <> groupId ->
        lookupGroup k (groupsOf res.2 worldName) = lookupGroup k gs)
  /\ (inherited groupId = false ->
      (getGroupOrder res.2 worldName).1
      = filter (fun id => id <> groupId) (getGroupOrder st worldName).1)
  /\ (inherited groupId = true -> groupId ∈ storedOrder st worldName ->
      groupId ∈ (getGroupOrder res.2 worldName).1)
  /\ saveRequests res.2 = (if res.1 then S (saveRequests st) else saveRequests st).
Proof.
  intros gs res _.
  destruct (deleteGroup_spec st worldName groupId) as (Hres & _ & Hsave & Hord).
  fold gs res in Hres, Hsave, Hord.
  pose proof (lookupGroup_deleteGroup st worldName groupId) as Hlook.
  pose proof (objectKeys_deleteGroup st worldName groupId) as Hkeys.
  fold gs res in Hlook, Hkeys.
  split. { rewrite Hres, hasGroup_true, elem_of_objectKeys, lookupGroup_is_Some. done. }
  split; [by rewrite Hlook, decide_True |].
  split; [intros k Hk; by rewrite Hlook, decide_False |].
  split; [| split; [| done]].
  - intros Hplain.
    destruct (getGroupOrder_spec res.2 worldName) as (-> & _).
    destruct (getGroupOrder_spec st worldName) as (-> & _).
    fold gs. rewrite Hord, Hkeys, filter_app. f_equal.
    + rewrite list_filter_filter. apply filter_ext_elem. intros id _.
      unfold hasGroup. rewrite Hlook.
      destruct (decide (id = groupId)) as [-> |]; [| tauto].
      rewrite Hplain. split; [done | tauto].
    + rewrite !list_filter_filter. apply filter_ext_elem. intros id _. tauto.
  - intros Hinh Hin.
    destruct (getGroupOrder_spec res.2 worldName) as (_ & Hmem & _).
    apply Hmem. right. by rewrite Hord.
Qed.

Lemma deleteGroup_prunes_order_witness :
  (deleteGroup (twoGroupWorld [] []) "book" "g1").1 = true
  /\ (getGroupOrder (deleteGroup (twoGroupWorld [] []) "book" "g1").2 "book").1 = ["g2"].
Proof.
  destruct (deleteGroup_prunes_order (twoGroupWorld [] []) "book" "g1" eq_refl)
    as (Hres & _ & _ & Hord & _).
  split; [apply Hres; left; vm_compute; eauto |].
  rewrite Hord by reflexivity. vm_compute. reflexivity.
Defined.

Lemma filter_none {A} (P : A -> Prop) `{!forall x, Decision (P x)} (l : list A) :
  (forall x, x ∈ l -> ~ P x) -> filter P l = [].
Proof.
  induction l as [|x l IH]; intros Hall; [done|].
  rewrite filter_cons, decide_False by (apply Hall, list_elem_of_here).
  apply IH. intros y Hy. apply Hall. rewrite elem_of_cons. tauto.
Qed.

Lemma getGroupOrder_after_set st worldName order :
  is_Some (worldbooks st !! worldName) ->
  (forall id, id ∈ order -> hasGroup id (groupsOf st worldName) = true) ->
  (forall id, id ∈ objectKeys (groupsOf st worldName) -> id ∈ order) ->
  (getGroupOrder (setGroupOrder st worldName order).2 worldName).1 = order.
Proof.
  intros Hwb Hkept Hcover.
  destruct (storedOrder_setGroupOrder st worldName order Hwb) as (_ & Hord & Hgs).
  destruct (getGroupOrder_spec (setGroupOrder st worldName order).2 worldName)
    as (-> & _).
  rewrite Hord, Hgs.
  rewrite (filter_all (fun id => hasGroup id (groupsOf st worldName) = true) order)
    by done.
  rewrite filter_none; [by rewrite app_nil_r|].
  intros id Hid Hnot. apply Hnot. by apply Hcover.
Qed.

(** X17. Order round trip: an order that lists exactly the existing
    groups, set with [setGroupOrder] on an existing world book, is what
    [getGroupOrder] returns next. *)
Theorem group_order_set_then_get st worldName order :
  is_Some (worldbooks st !! worldName) ->
  (forall id, id ∈ order <-> is_Some (lookupGroup id (groupsOf st worldName))) ->
  (setGroupOrder st worldName order).1 = true
  /\ (getGroupOrder (setGroupOrder st worldName order).2 worldName).1 = order.
Proof.
  intros Hwb Hcover. split; [by apply storedOrder_setGroupOrder|].
  apply getGroupOrder_after_set; [done| |].
  - intros id Hid. apply hasGroup_key, elem_of_objectKeys, lookupGroup_is_Some.
    by apply Hcover.
  - intros id Hid. by apply Hcover, lookupGroup_is_Some, elem_of_objectKeys.
Qed.

Lemma group_order_set_then_get_witness :
  (getGroupOrder (setGroupOrder (twoGroupWorld [] []) "book" ["g2"; "g1"]).2
     "book").1 = ["g2"; "g1"].
Proof.
  refine (proj2 (group_order_set_then_get (twoGroupWorld [] []) "book" ["g2"; "g1"]
                   _ _)).
  - vm_compute. eauto.
  - intros id. change (groupsOf (twoGroupWorld [] []) "book")
      with [("g1", {| name := "A"; collapsed := false; entries := [] |});
            ("g2", {| name := "B"; collapsed := true; entries := [] |})].
    rewrite lookupGroup_is_Some. cbn. rewrite !elem_of_cons. tauto.
Defined.







Lemma toggleGroupCollapse_spec st worldName groupId :
  let gs := groupsOf st worldName in
  let res := toggleGroupCollapse st worldName groupId in
  saveRequests res.1.2 = saveRequests st
  /\ storedOrder res.1.2 worldName = storedOrder st worldName
  /\ match lookupGroup groupId gs with
     | Some g =>
         res.1.1 = negb (collapsed g) /\ res.2 = true
         /\ lookupGroup groupId (groupsOf res.1.2 worldName)
            = Some {| name := name g; collapsed := negb (collapsed g);
                      entries := entries g |}
         /\ forall k, k <> groupId ->
              lookupGroup k (groupsOf res.1.2 worldName) = lookupGroup k gs
     | None =>
         res.1.1 = false /\ res.2 = false
         /\ groupsOf res.1.2 worldName = gs
     end.
Proof.
  intros gs res. subst res. unfold toggleGroupCollapse.
  destruct (groupsOf_getWorldGroups st worldName) as (Hgs & Hgs' & Hs & Ho).
  destruct (getWorldGroups st worldName) as [gs0 st1]. cbn [fst snd] in *. subst gs0.
  fold gs. destruct (lookupGroup groupId gs) as [g|] eqn:Hg; cbn [fst snd].
  - destruct (withGroups_spec st worldName
                (updateGroup groupId
                   (fun g => {| name := name g; collapsed := negb (collapsed g);
                                entries := entries g |}) gs)) as (-> & -> & ->).
    repeat split; try done.
    + rewrite lookupGroup_updateGroup, decide_True by done. by rewrite Hg.
    + intros k Hk. by rewrite lookupGroup_updateGroup, decide_False.
  - done.
Qed.

Lemma elem_of_fold_entries (acc : gset string) (es : list number) s :
  s ∈ foldl (fun acc uid => acc ∪ {[numberToString uid]}) acc es
  <-> s ∈ acc \/ exists uid, uid ∈ es /\ numberToString uid = s.
Proof.
  revert acc. induction es as [|u es IH]; intros acc; cbn [foldl].
  - split; [by left|]. intros [?|(uid & Hin & _)]; [done|]. by apply elem_of_nil in Hin.
  - rewrite IH, elem_of_union, elem_of_singleton. split.
    + intros [[?| ->]|(uid & Hin & Hs)]; [by left| |].
      * right. exists u. split; [apply list_elem_of_here|done].
      * right. exists uid. split; [by (rewrite elem_of_cons; right)|done].
    + intros [?|(uid & Hin & Hs)]; [by left; left|].
      apply elem_of_cons in Hin as [-> |Hin]; [left; right; done|].
      right. by exists uid.
Qed.

Lemma elem_of_allGroupedUids gs (ks : list string) (acc : gset string) s :
  s ∈ foldl (fun acc gid =>
               match lookupGroup gid gs with
               | Some g =>
                   foldl (fun acc uid => acc ∪ {[numberToString uid]}) acc (entries g)
               | None => acc
               end) acc ks
  <-> s ∈ acc
      \/ exists k g uid, k ∈ ks /\ lookupGroup k gs = Some g
                         /\ uid ∈ entries g /\ numberToString uid = s.
Proof.
  revert acc. induction ks as [|k0 ks IH]; intros acc; cbn [foldl].
  - split; [by left|]. intros [?|(k & g & uid & Hin & _)]; [done|].
    by apply elem_of_nil in Hin.
  - rewrite IH. destruct (lookupGroup k0 gs) as [g0|] eqn:Hg0.
    + rewrite elem_of_fold_entries. split.
      * intros [[?|(uid & Hin & Hs)]|(k & g & uid & Hk & Hg & Hin & Hs)].
        -- by left.
        -- right. exists k0, g0, uid. split; [apply list_elem_of_here|done].
        -- right. exists k, g, uid. split; [by (rewrite elem_of_cons; right)|done].
      * intros [?|(k & g & uid & Hk & Hg & Hin & Hs)]; [by left; left|].
        apply elem_of_cons in Hk as [-> |Hk].
        -- left. right. rewrite Hg0 in Hg. injection Hg as ->. by exists uid.
        -- right. by exists k, g, uid.
    + split.
      * intros [?|(k & g & uid & Hk & Hg & Hin & Hs)]; [by left|].
        right. exists k, g, uid. split; [by (rewrite elem_of_cons; right)|done].
      * intros [?|(k & g & uid & Hk & Hg & Hin & Hs)]; [by left|].
        apply elem_of_cons in Hk as [-> |Hk]; [congruence|].
        right. by exists k, g, uid.
Qed.

(** X20. In a world book whose groups list safe integers as uids,
    [getUngroupedEntries] returns, in their order, the entry keys that no
    group lists; for an entry of the world book with a safe integer as uid
    this is the case exactly when [getEntryGroup] finds no group for it. *)
Theorem ungrouped_iff_no_group st worldName entryKeys :
  let gs := groupsOf st worldName in
  let res := getUngroupedEntries st worldName entryKeys in
  readsWorldBook st worldName = true ->
  safeEntries gs ->
  (forall key,
     key ∈ res.1 <->
     key ∈ entryKeys
     /\ forall k g u, lookupGroup k gs = Some g -> u ∈ entries g ->
                      numberToString u <> key)
  /\ (forall uid,
        safeNumber uid = true ->
        numberToString uid ∈ entryKeys ->
        (numberToString uid ∈ res.1 <-> (getEntryGroup st worldName uid).1 = None))
  /\ res.1 `sublist_of` entryKeys
  /\ groupsOf res.2 worldName = gs.
Proof.
  intros gs res _ _.
  assert (Hmain : forall key,
     key ∈ res.1 <->
     key ∈ entryKeys
     /\ forall k g u, lookupGroup k gs = Some g -> u ∈ entries g ->
                      numberToString u <> key).
  { intros key. subst res. unfold getUngroupedEntries.
    destruct (groupsOf_getWorldGroups st worldName) as (Hgs & _).
    destruct (getWorldGroups st worldName) as [gs0 st1]. cbn [fst] in *. subst gs0.
    fold gs. rewrite list_elem_of_filter, elem_of_allGroupedUids.
    split.
    - intros [Hnot Hin]. split; [done|]. intros k g u Hg Hu Hs. apply Hnot. right.
      exists k, g, u. split; [|done].
      apply elem_of_objectKeys, lookupGroup_is_Some. eauto.
    - intros [Hin Hnone]. split; [|done].
      intros [Hemp|(k & g & u & _ & Hg & Hu & Hs)]; [by apply elem_of_empty in Hemp|].
      by apply (Hnone k g u). }
  split; [exact Hmain|]. split; [|split].
  - intros uid _ Hin. rewrite Hmain, (proj1 (getEntryGroup_spec _ _ _)).
    rewrite firstGroupWhere_None. split.
    + intros [_ Hnone] k g Hg.
      destruct (isEntryInGroup (entries g) uid) eqn:Hc; [|done].
      apply isEntryInGroup_true in Hc as (u & Hu & Hm). apply uidMatch_eq in Hm.
      by destruct (Hnone k g u Hg Hu).
    + intros Hnone. split; [done|]. intros k g u Hg Hu Hs.
      pose proof (Hnone k g Hg) as Hc.
      assert (isEntryInGroup (entries g) uid = true); [|congruence].
      apply isEntryInGroup_true. exists u. split; [done|by apply uidMatch_eq].
  - subst res. unfold getUngroupedEntries.
    destruct (getWorldGroups st worldName) as [gs0 st1]. cbn [fst].
    apply sublist_filter.
  - subst res. unfold getUngroupedEntries.
    destruct (groupsOf_getWorldGroups st worldName) as (_ & Hgs & _).
    destruct (getWorldGroups st worldName) as [gs0 st1]. done.
Qed.

Lemma ungrouped_iff_no_group_witness :
  "3" ∈ (getUngroupedEntries (twoGroupWorld [NInt 1] [NInt 2]) "book"
           ["1"; "2"; "3"]).1.
Proof.
  destruct (ungrouped_iff_no_group (twoGroupWorld [NInt 1] [NInt 2]) "book"
              ["1"; "2"; "3"] eq_refl) as (Hmain & _).
  - apply safeEntries_twoGroupWorld; repeat constructor.
  - apply Hmain. split; [repeat constructor |].
    intros k g u Hg Hu.
    destruct (twoGroupWorld_lookup _ _ _ _ Hg) as [[_ Hes]|[_ Hes]];
      rewrite Hes in Hu; apply list_elem_of_singleton in Hu as ->; discriminate.
Defined.

Lemma renameGroup_lookup st worldName groupId newName k g' :
  lookupGroup k (groupsOf (renameGroup st worldName groupId newName).2 worldName)
  = Some g' ->
  exists g, lookupGroup k (groupsOf st worldName) = Some g /\ entries g' = entries g.
Proof.
  unfold renameGroup.
  destruct (groupsOf_getWorldGroups st worldName) as (Hgs & Hgs' & _).
  destruct (getWorldGroups st worldName) as [gs0 st1]. cbn [fst snd] in *. subst gs0.
  destruct (lookupGroup groupId (groupsOf st worldName)) as [g|] eqn:Hg; cbn [snd].
  - rewrite (proj1 (saved_withGroups _ _ _)), lookupGroup_updateGroup.
    destruct (decide (k = groupId)) as [->|Hk].
    + rewrite Hg. intros [= <-]. by exists g.
    + intros Hk'. by exists g'.
  - rewrite Hgs'. intros Hk'. by exists g'.
Qed.

(** X13. Exclusive membership (every uid listed at most once, in at most
    one group) is kept by [addEntryToGroup], [removeEntryFromGroup],
    [cleanOrphanedReferences], [createGroup], [deleteGroup], [renameGroup]
    and [toggleGroupCollapse], whatever their arguments. *)
Theorem exclusive_membership_preserved st worldName :
  exclusiveMembership (groupsOf st worldName) ->
  (forall groupId uid,
     exclusiveMembership
       (groupsOf (addEntryToGroup st worldName groupId uid).2 worldName))
  /\ (forall uid,
        exclusiveMembership
          (groupsOf (removeEntryFromGroup st worldName uid).2 worldName))
  /\ (forall entryKeys,
        exclusiveMembership
          (groupsOf (cleanOrphanedReferences st worldName entryKeys).2 worldName))
  /\ (forall groupName groupId,
        exclusiveMembership
          (groupsOf (createGroup st worldName groupName groupId).2 worldName))
  /\ (forall groupId,
        exclusiveMembership (groupsOf (deleteGroup st worldName groupId).2 worldName))
  /\ (forall groupId newName,
        exclusiveMembership
          (groupsOf (renameGroup st worldName groupId newName).2 worldName))
  /\ (forall groupId,
        exclusiveMembership
          (groupsOf (toggleGroupCollapse st worldName groupId).1.2 worldName)).
Proof.
  intros Hex.
  split; [|split; [|split; [|split; [|split; [|split]]]]].
  - intros groupId uid. by apply exclusive_addEntryToGroup.
  - intros uid. by apply exclusive_removeEntryFromGroup.
  - intros entryKeys. apply (exclusive_shrink (groupsOf st worldName)); [|done].
    intros k g'. rewrite (proj1 (cleanOrphanedReferences_spec st worldName entryKeys)).
    destruct (lookupGroup k (groupsOf st worldName)) as [g|]; [|discriminate].
    intros [= <-]. right. exists g. split; [done|apply sublist_filter].
  - intros groupName groupId. apply (exclusive_shrink (groupsOf st worldName)); [|done].
    intros k g'. destruct (createGroup_spec st worldName groupName groupId)
      as (_ & -> & _).
    rewrite lookupGroup_assignGroup. destruct (decide (k = groupId)).
    + intros [= <-]. by left.
    + intros Hk. right. by exists g'.
  - intros groupId. apply (exclusive_shrink (groupsOf st worldName)); [|done].
    intros k g'. destruct (deleteGroup_spec st worldName groupId) as (_ & -> & _).
    destruct (deleteGroup st worldName groupId).1.
    + rewrite lookupGroup_deleteKey. destruct (decide (k = groupId)); [discriminate|].
      intros Hk. right. by exists g'.
    + intros Hk. right. by exists g'.
  - intros groupId newName. apply (exclusive_shrink (groupsOf st worldName)); [|done].
    intros k g' Hg'. right.
    destruct (renameGroup_lookup _ _ _ _ _ _ Hg') as (g & Hg & ->). by exists g.
  - intros groupId. apply (exclusive_shrink (groupsOf st worldName)); [|done].
    intros k g' Hg'. right.
    destruct (toggleGroupCollapse_spec st worldName groupId) as (_ & _ & Hspec).
    destruct (lookupGroup groupId (groupsOf st worldName)) as [g|] eqn:Hg.
    + destruct Hspec as (_ & _ & Hl & Ho).
      destruct (decide (k = groupId)) as [->|Hk].
      * rewrite Hl in Hg'. injection Hg' as <-. by exists g.
      * rewrite (Ho k Hk) in Hg'. by exists g'.
    + destruct Hspec as (_ & _ & Hsame). rewrite Hsame in Hg'. by exists g'.
Qed.

Lemma exclusive_membership_preserved_witness :
  exclusiveMembership
    (groupsOf (addEntryToGroup (twoGroupWorld [NInt 1] [NInt 2]) "book" "g2"
                 (NInt 1)).2 "book").
Proof.
  exact (proj1 (exclusive_membership_preserved (twoGroupWorld [NInt 1] [NInt 2])
                  "book" exclusive_twoGroupWorld) "g2" (NInt 1)).
Defined.

Lemma setGroupEntries_spec st worldName groupId entryUids :
  let gs := groupsOf st worldName in
  let res := setGroupEntries st worldName groupId entryUids in
  match lookupGroup groupId gs with
  | Some g =>
      res.1 = true
      /\ lookupGroup groupId (groupsOf res.2 worldName) = Some (withEntries g entryUids)
      /\ (forall k, k <> groupId ->
            lookupGroup k (groupsOf res.2 worldName) = lookupGroup k gs)
      /\ saveRequests res.2 = S (saveRequests st)
  | None =>
      res.1 = false /\ groupsOf res.2 worldName = gs
      /\ saveRequests res.2 = saveRequests st
  end.
Proof.
  intros gs res. subst res. unfold setGroupEntries.
  destruct (groupsOf_getWorldGroups st worldName) as (Hgs & Hgs' & Hs & _).
  destruct (getWorldGroups st worldName) as [gs0 st1]. cbn [fst snd] in *. subst gs0.
  fold gs. destruct (lookupGroup groupId gs) as [g|] eqn:Hg; cbn [fst snd]; [|done].
  destruct (saved_withGroups st worldName
              (updateGroup groupId (fun g => withEntries g entryUids) gs))
    as (-> & -> & _).
  split; [done|]. split; [|split; [|done]].
  - rewrite lookupGroup_updateGroup, decide_True by done. by rewrite Hg.
  - intros k Hk. by rewrite lookupGroup_updateGroup, decide_False.
Qed.

(** X19. [setGroupEntries] on an existing group replaces the entries of
    that group and of no other; starting from exclusive membership, the
    result is exclusive exactly when the new list repeats no uid and no
    other group lists one of its uids. *)
Theorem setGroupEntries_exclusive_iff st worldName groupId entryUids g :
  lookupGroup groupId (groupsOf st worldName) = Some g ->
  exclusiveMembership (groupsOf st worldName) ->
  let res := setGroupEntries st worldName groupId entryUids in
  res.1 = true
  /\ lookupGroup groupId (groupsOf res.2 worldName) = Some (withEntries g entryUids)
  /\ (forall k, k <> groupId ->
        lookupGroup k (groupsOf res.2 worldName)
        = lookupGroup k (groupsOf st worldName))
  /\ (exclusiveMembership (groupsOf res.2 worldName) <->
      (forall uid, listedAtMostOnce uid entryUids)
      /\ (forall k g' uid,
            k <> groupId -> lookupGroup k (groupsOf st worldName) = Some g' ->
            isEntryInGroup entryUids uid = true ->
            isEntryInGroup (entries g') uid = false)).
Proof.
  intros Hg Hex res.
  pose proof (setGroupEntries_spec st worldName groupId entryUids) as Hspec.
  cbn zeta in Hspec. rewrite Hg in Hspec. fold res in Hspec.
  destruct Hspec as (Hres & Hl & Ho & _).
  split; [done|]. split; [done|]. split; [done|]. split.
  - intros Hex'. split.
    + intros uid. by apply (proj1 (Hex' uid) groupId (withEntries g entryUids)).
    + intros k g' uid Hk Hg' Hin.
      destruct (isEntryInGroup (entries g') uid) eqn:Hin'; [|done].
      exfalso. apply Hk.
      apply (proj2 (Hex' uid) k groupId g' (withEntries g entryUids));
        [by rewrite (Ho k Hk)|done..].
  - intros [Honce Hother] uid. destruct (Hex uid) as [Hex1 Hex2]. split.
    + intros k g' Hg'. destruct (decide (k = groupId)) as [->|Hk].
      * rewrite Hl in Hg'. injection Hg' as <-. apply Honce.
      * rewrite (Ho k Hk) in Hg'. by apply (Hex1 k).
    + intros k1 k2 g1 g2 Hg1 Hg2 Hin1 Hin2.
      destruct (decide (k1 = groupId)) as [->|Hk1],
               (decide (k2 = groupId)) as [->|Hk2]; [done| | |].
      * rewrite Hl in Hg1. injection Hg1 as <-. rewrite (Ho k2 Hk2) in Hg2.
        rewrite (Hother k2 g2 uid Hk2 Hg2 Hin1) in Hin2. discriminate.
      * rewrite Hl in Hg2. injection Hg2 as <-. rewrite (Ho k1 Hk1) in Hg1.
        rewrite (Hother k1 g1 uid Hk1 Hg1 Hin2) in Hin1. discriminate.
      * rewrite (Ho k1 Hk1) in Hg1. rewrite (Ho k2 Hk2) in Hg2. eauto.
Qed.

Lemma setGroupEntries_exclusive_iff_witness :
  let res := setGroupEntries (twoGroupWorld [NInt 1] [NInt 2]) "book" "g1"
               [NInt 1; NInt 2] in
  res.1 = true
  /\ lookupGroup "g1" (groupsOf res.2 "book")
     = Some {| name := "A"; collapsed := false; entries := [NInt 1; NInt 2] |}.
Proof.
  pose proof (setGroupEntries_exclusive_iff (twoGroupWorld [NInt 1] [NInt 2]) "book"
                "g1" [NInt 1; NInt 2]
                {| name := "A"; collapsed := false; entries := [NInt 1] |}
                eq_refl exclusive_twoGroupWorld) as H.
  split; [exact (proj1 H) | exact (proj1 (proj2 H))].
Defined.

End WorldInfoMembership.

(** ** The grouping menu *)

Section GroupingMenu.

Lemma elem_of_slice {A} (l : list A) (from to : Z) (x : A) :
  (0 <= from)%Z ->
  x ∈ slice l from to <-> exists k : nat, (from <= Z.of_nat k < to)%Z /\ l !! k = Some x.
Proof.
  intros Hfrom. unfold slice. rewrite list_elem_of_lookup. split.
  - intros (i & Hi). apply lookup_take_Some in Hi as [Hi Hlt].
    rewrite lookup_drop in Hi. exists (Z.to_nat from + i). split; [lia|done].
  - intros (k & Hk & Hl). exists (k - Z.to_nat from).
    apply lookup_take_Some. split; [|lia].
    rewrite lookup_drop. by replace (Z.to_nat from + (k - Z.to_nat from)) with k by lia.
Qed.

Lemma markIndex_present mark ordered :
  markIndex mark ordered <> (-1)%Z ->
  exists s, mark = Some s /\ s ∈ ordered /\ markIndex mark ordered = indexOf s ordered.
Proof.
  destruct mark as [s|]; cbn; [|done]. intros Hne. exists s. split; [done|].
  split; [|done]. destruct (decide (s ∈ ordered)) as [|Hnot]; [done|].
  by apply indexOf_absent in Hnot.
Qed.

(** X28. The dialog callback of the grouping menu always clears the
    marks, and it either leaves the store alone or hands the two marks, both
    present in the captured list, to [addPresetGrouping]; in that case no
    identifier of the new span was in a group when the menu opened, so a
    group created through the menu never overlaps an existing one. *)
Theorem menu_creation_never_overlaps
    apiInfo toastr presetName marks groupName ordered ids0 ids :
  let grouped := getGroupedIdentifierSet apiInfo presetName ordered ids0 in
  let res := completeMarks apiInfo toastr presetName marks groupName ordered
               grouped ids in
  marksAfter res = resetTempMarks
  /\ (hostAfter res = apiInfo /\ passScheduled res = false
      \/ exists s e,
           markStart marks = Some s /\ markEnd marks = Some e
           /\ s ∈ ordered /\ e ∈ ordered
           /\ hostAfter res
              = (addPresetGrouping apiInfo presetName (JStr s) (JStr e)
                   (JStr groupName) (identifiersToJs ordered) ids).2
           /\ passScheduled res = true
           /\ forall newId id,
                id ∈ addGroupedIdentifiers ordered ∅
                       (createdRecord newId (JStr groupName) (JStr s) (JStr e)) ->
                id ∉ grouped).
Proof.
  intros grouped res. subst res. unfold completeMarks.
  destruct (Z.eqb_spec (markIndex (markStart marks) ordered) (-1)) as [|Hs];
    [split; [done|by left]|].
  destruct (Z.eqb_spec (markIndex (markEnd marks) ordered) (-1)) as [|He];
    [split; [done|by left]|].
  cbn [orb].
  destruct (existsb _ _) eqn:Hover; [split; [done|by left]|].
  split; [done|]. right.
  destruct (markIndex_present _ _ Hs) as (s & Hms & Hsin & Hsi).
  destruct (markIndex_present _ _ He) as (e & Hme & Hein & Hei).
  exists s, e. rewrite Hms, Hme. cbn [markToJs hostAfter passScheduled].
  repeat (split; [done|]).
  intros newId id Hid Hgrouped.
  destruct (present_anchors_span ordered 0
              (createdRecord newId (JStr groupName) (JStr s) (JStr e)) s e)
    as (_ & _ & Hrange & Hmem); try done.
  apply Hmem in Hid as (_ & k & Hk & Hlook).
  assert (Hin : id ∈ slice ordered
                  (Z.min (indexOf s ordered) (indexOf e ordered))
                  (Z.max (indexOf s ordered) (indexOf e ordered) + 1)).
  { apply elem_of_slice; [lia|]. exists k. split; [lia|done]. }
  rewrite Hsi, Hei in Hover.
  assert (Hex : existsb (fun id => bool_decide (id ∈ grouped))
                  (slice ordered (Z.min (indexOf s ordered) (indexOf e ordered))
                     (Z.max (indexOf s ordered) (indexOf e ordered) + 1)) = true).
  { apply existsb_exists. exists id. split; [by apply list_elem_of_In|].
    by apply bool_decide_eq_true. }
  congruence.
Qed.

End GroupingMenu.

(** ** The pass: resolved groups, created groups, outcomes *)

Section PassStructure.

(** X21. The signature of a configuration does not depend on the
    identifiers that [createGroupId()] draws for the records without an id:
    two reads of the same container give the same signature and the same
    number of records. *)
Theorem signature_ignores_drawn_ids apiInfo presetName ordered ids ids' :
  computeGroupingSignature presetName ordered
    (getAllPresetGroupings apiInfo presetName (identifiersToJs ordered) ids)
  = computeGroupingSignature presetName ordered
      (getAllPresetGroupings apiInfo presetName (identifiersToJs ordered) ids')
  /\ length (getAllPresetGroupings apiInfo presetName (identifiersToJs ordered) ids)
     = length (getAllPresetGroupings apiInfo presetName (identifiersToJs ordered) ids').
Proof. split; [apply signature_ids | apply length_groupings_ids]. Qed.

Lemma startsDescending_cons r l :
  startsDescending (r :: l) <->
  Forall (fun x => (spanStart x <= spanStart r)%Z) l /\ startsDescending l.
Proof.
  unfold startsDescending. split.
  - intros Hs. split.
    + apply Forall_lookup. intros j x Hx. by apply (Hs 0 (S j) r x); [lia|..].
    + intros i j r1 r2 Hij H1 H2. by apply (Hs (S i) (S j)); [lia|..].
  - intros [Hall Hs] i j r1 r2 Hij H1 H2.
    destruct i as [|i], j as [|j]; try lia; cbn in H1, H2.
    + injection H1 as <-. rewrite Forall_lookup in Hall. by eapply Hall.
    + by apply (Hs i j); [lia|..].
Qed.

Lemma insertByStartDesc_sorted r l :
  startsDescending l -> startsDescending (insertByStartDesc r l).
Proof.
  induction l as [|x l IH]; cbn; intros Hs.
  - apply startsDescending_cons. split; [constructor|done].
  - apply startsDescending_cons in Hs as [Hall Hs].
    destruct (Z.leb_spec (spanStart x) (spanStart r)) as [Hle|Hgt].
    + apply startsDescending_cons. split.
      * constructor; [done|]. eapply Forall_impl; [exact Hall|]. cbn. intros; lia.
      * by apply startsDescending_cons.
    + apply startsDescending_cons. split; [|by apply IH].
      rewrite insertByStartDesc_Permutation. constructor; [lia|done].
Qed.

Lemma sortByStartDesc_sorted l : startsDescending (sortByStartDesc l).
Proof.
  induction l as [|x l IH]; cbn.
  - intros i j r1 r2 _ H. by rewrite lookup_nil in H.
  - by apply insertByStartDesc_sorted.
Qed.

Lemma resolved_indices_NoDup ordered (k : nat) (l : list JsValue) :
  NoDup (originalIndex <$>
           omap (fun r : option Resolved => r)
                (imap (fun i => resolveGrouping ordered (k + i)) l))
  /\ Forall (fun r => k <= originalIndex r)
       (omap (fun r : option Resolved => r)
             (imap (fun i => resolveGrouping ordered (k + i)) l)).
Proof.
  revert k. induction l as [|x l IH]; intros k; [split; constructor|].
  cbn [imap omap list_omap].
  assert (Heq : imap ((fun i => resolveGrouping ordered (k + i)) ∘ S) l
                = imap (fun i => resolveGrouping ordered (S k + i)) l).
  { apply imap_ext. intros i y _. cbn. f_equal. lia. }
  rewrite Heq. destruct (IH (S k)) as [Hnd Hge].
  destruct (resolveGrouping ordered (k + 0) x) as [r|] eqn:Hr.
  - apply resolveGrouping_Some in Hr as (_ & Hidx & _).
    split.
    + rewrite fmap_cons. constructor; [|done].
      rewrite list_elem_of_fmap. intros (r' & Heq' & Hin).
      rewrite Forall_forall in Hge. specialize (Hge r' Hin). lia.
    + constructor; [lia|]. eapply Forall_impl; [exact Hge|]. cbn. intros; lia.
  - split; [done|]. eapply Forall_impl; [exact Hge|]. cbn. intros; lia.
Qed.

(** X22. The resolved groups of a pass are in descending order of span
    start; they are exactly the records that resolve, each once, and the
    index that a group carries into its header (and from there into
    [updatePresetGrouping] and [removePresetGrouping]) is the position of its
    record in the list that was read. *)
Theorem resolved_groups_sorted_and_indexed ordered groupings :
  let resolved := resolveGroupings ordered groupings in
  (forall i j r1 r2, i < j -> resolved !! i = Some r1 -> resolved !! j = Some r2 ->
     (spanStart r2 <= spanStart r1)%Z)
  /\ (forall r, r ∈ resolved <->
        exists i g, groupings !! i = Some g /\ resolveGrouping ordered i g = Some r)
  /\ Forall (fun r => groupings !! originalIndex r = Some (grouping r)) resolved
  /\ NoDup (originalIndex <$> resolved).
Proof.
  intros resolved. subst resolved. unfold resolveGroupings.
  split; [apply sortByStartDesc_sorted|].
  pose proof (elem_of_resolveGroupings ordered groupings) as Hmem.
  unfold resolveGroupings in Hmem.
  split; [exact Hmem|]. split.
  - apply Forall_forall. intros r Hr. apply Hmem in Hr as (i & g & Hg & Hr).
    apply resolveGrouping_Some in Hr as (-> & -> & _). done.
  - rewrite sortByStartDesc_Permutation.
    apply (resolved_indices_NoDup ordered 0 groupings).
Qed.

Lemma length_remove_dups_le (l : list string) : length (remove_dups l) <= length l.
Proof.
  induction l as [|x l IH]; cbn; [done|].
  destruct (decide_rel elem_of x l); cbn; lia.
Qed.

Lemma length_remove_dups_NoDup (l : list string) :
  length (remove_dups l) = length l -> NoDup l.
Proof.
  induction l as [|x l IH]; cbn; [constructor|].
  pose proof (length_remove_dups_le l).
  destruct (decide_rel elem_of x l); cbn; [lia|].
  intros [= Hlen]. constructor; [done|auto].
Qed.

Lemma hasDuplicates_true (ids : list string) : hasDuplicates ids = true <-> ~ NoDup ids.
Proof.
  unfold hasDuplicates. rewrite negb_true_iff, bool_decide_eq_false.
  split.
  - intros Hne Hnd. apply Hne. by apply size_list_to_set.
  - intros Hnot Hsize. apply Hnot, length_remove_dups_NoDup.
    rewrite <- Hsize.
    assert (Hset : list_to_set (C := gset string) ids = list_to_set (remove_dups ids)).
    { apply set_eq. intros x. by rewrite !elem_of_list_to_set, elem_of_remove_dups. }
    rewrite Hset. symmetry. apply size_list_to_set, NoDup_remove_dups.
Qed.

(** X24. When an identifier occurs twice in the list, an enabled pass with
    a loaded preset stops at the duplicate check: the list, an old
    presentation included, and the last-applied signature are left as they
    were, and only the warning and the click binding happen. *)
Theorem duplicate_identifiers_abort env st lc presetName :
  entryGroupingEnabled st = true ->
  getLoadedPresetName (apiInfo env) = Some presetName ->
  ~ NoDup (getOrderedIdentifiers (items lc)) ->
  applyGroupingToList env st (Some lc)
  = {| stateAfter := withApplying st; listAfter := Some lc;
       outcome := DuplicateIdentifiers;
       effects := [WarnDuplicateIdentifiers; BindTripleClickEvents;
                   SetTimeout ClearApplyingFlag 0] |}.
Proof.
  intros Hen Hpreset Hdup. unfold applyGroupingToList, finish.
  rewrite Hen, Hpreset. cbn [negb].
  assert (Hlen : (length (items lc) =? 0) = false).
  { destruct (items lc); [destruct Hdup; constructor|done]. }
  rewrite Hlen. apply hasDuplicates_true in Hdup. rewrite Hdup. reflexivity.
Qed.

Lemma duplicate_identifiers_abort_witness :
  outcome (applyGroupingToList (scenarioEnv scenarioIds true (fun _ => scenarioIds))
             initialState (Some duplicateList)) = DuplicateIdentifiers.
Proof.
  rewrite (duplicate_identifiers_abort
             (scenarioEnv scenarioIds true (fun _ => scenarioIds)) initialState
             duplicateList "Preset" eq_refl eq_refl); [reflexivity|].
  change (getOrderedIdentifiers (items duplicateList)) with ["p1"; "p2"; "p1"].
  rewrite !NoDup_cons, !elem_of_cons. tauto.
Defined.

Lemma Forall_createAllGroupUi (Q : GroupUi -> Prop) items resolved :
  Forall (fun r => Q {| uiGroupIndex := originalIndex r;
                        uiName := or (get (grouping r) "name") (JStr "分组");
                        uiMembers := slice items (spanStart r) (spanEnd r + 1) |})
         resolved ->
  Forall Q (createAllGroupUi items resolved).
Proof.
  unfold createAllGroupUi. induction 1 as [|r l Hr _ IH]; cbn [omap list_omap].
  - constructor.
  - destruct (_ || _); [done|]. by constructor.
Qed.

Lemma getOrderedIdentifiers_all items :
  Forall (fun id => nonEmpty id = true) items -> getOrderedIdentifiers items = items.
Proof.
  intros Hall. unfold getOrderedIdentifiers. apply filter_all.
  by apply Forall_forall.
Qed.

Lemma createAllGroupUi_in_range items resolved :
  Forall (fun r => (0 <= spanStart r /\ spanEnd r < Z.of_nat (length items))%Z) resolved ->
  createAllGroupUi items resolved
  = map (fun r => {| uiGroupIndex := originalIndex r;
                     uiName := or (get (grouping r) "name") (JStr "分组");
                     uiMembers := slice items (spanStart r) (spanEnd r + 1) |})
        resolved.
Proof.
  unfold createAllGroupUi. induction 1 as [| r rest [H0 H1] _ IH]; [reflexivity |].
  cbn [omap list_omap map].
  destruct (Z.ltb_spec (spanStart r) 0); [lia |].
  destruct (Z.geb_spec (spanEnd r) (Z.of_nat (length items))); [lia |].
  cbn. by rewrite IH.
Qed.

Lemma hasDuplicates_false (ids : list string) : hasDuplicates ids = false -> NoDup ids.
Proof.
  intros Hdup. destruct (decide (NoDup ids)) as [| Hnot]; [done |].
  apply hasDuplicates_true in Hnot. congruence.
Qed.

(** X23. After a rebuild of a list in which every item carries an
    identifier, for records whose spans share no position, there is one
    group per resolved record; each group carries the position of its
    record and its display name, and wraps the contiguous run of items from
    the earlier anchor to the later one, both anchors included, whichever
    of the two is the start; and no item is a member of two groups. *)
Theorem rebuilt_groups_span_anchors env st lc :
  let r := applyGroupingToList env st (Some lc) in
  outcome r = Rebuilt ->
  Forall (fun id => nonEmpty id = true) (items lc) ->
  (forall presetName,
     getLoadedPresetName (apiInfo env) = Some presetName ->
     spansDisjoint
       (resolveGroupings (items lc)
          (getAllPresetGroupings (apiInfo env) presetName (identifiersToJs (items lc))
             (newIds env 1)))) ->
  exists presetName lc1,
    getLoadedPresetName (apiInfo env) = Some presetName
    /\ listAfter r = Some lc1
    /\ items lc1 = items lc
    /\ let groupings :=
         getAllPresetGroupings (apiInfo env) presetName (identifiersToJs (items lc))
           (newIds env 1) in
       length (groupUi lc1) = length (resolveGroupings (items lc) groupings)
       /\ Forall (fun ui =>
            exists g s e,
              groupings !! uiGroupIndex ui = Some g
              /\ get g "startIdentifier" = JStr s
              /\ get g "endIdentifier" = JStr e
              /\ uiName ui = or (get g "name") (JStr "分组")
              /\ uiMembers ui
                 = slice (items lc)
                     (Z.min (indexOf s (items lc)) (indexOf e (items lc)))
                     (Z.max (indexOf s (items lc)) (indexOf e (items lc)) + 1)
              /\ s ∈ uiMembers ui /\ e ∈ uiMembers ui)
            (groupUi lc1)
       /\ (forall i j ui1 ui2 id,
             i <> j -> groupUi lc1 !! i = Some ui1 -> groupUi lc1 !! j = Some ui2 ->
             id ∈ uiMembers ui1 -> id ∉ uiMembers ui2).
Proof.
  intros r Hout Hall Hdisjoint.
  destruct (rebuilt_inversion env st lc Hout)
    as (presetName & _ & Hpreset & _ & Hdup & _ & _ & _ & Hlist).
  fold r in Hlist. rewrite (getOrderedIdentifiers_all _ Hall) in Hlist, Hdup.
  specialize (Hdisjoint presetName Hpreset).
  apply hasDuplicates_false in Hdup.
  eexists presetName, _. split; [done|]. split; [exact Hlist|]. split; [done|].
  cbn [groupUi withGroupUi cleanupGroupingUi items].
  set (groupings := getAllPresetGroupings _ _ _ _) in *.
  pose proof (resolveGroupings_in_range (items lc) groupings) as Hrange.
  split; [by apply length_createAllGroupUi|]. split.
  - apply Forall_createAllGroupUi, Forall_forall. intros res Hres.
    apply elem_of_resolveGroupings in Hres as (i & g & Hg & Hres).
    apply resolveGrouping_Some in Hres as (Hgr & Hidx & s & e & _ & Hs & He & Hsin & Hein
                                            & Hsi & Hei).
    exists g, s, e. cbn [uiGroupIndex uiName uiMembers].
    unfold spanStart, spanEnd. rewrite Hgr, Hidx, Hsi, Hei.
    pose proof (indexOf_present _ _ Hsin) as Hsb.
    pose proof (indexOf_present _ _ Hein) as Heb.
    repeat (split; [done|]). split.
    + apply elem_of_slice; [lia|]. exists (Z.to_nat (indexOf s (items lc))).
      split; [lia|by apply indexOf_lookup].
    + apply elem_of_slice; [lia|]. exists (Z.to_nat (indexOf e (items lc))).
      split; [lia|by apply indexOf_lookup].
  - rewrite (createAllGroupUi_in_range _ _ Hrange).
    intros i j ui1 ui2 id Hij H1 H2 Hin1 Hin2.
    rewrite list_lookup_fmap in H1, H2.
    destruct (resolveGroupings (items lc) groupings !! i) as [r1|] eqn:Hr1;
      [|discriminate].
    destruct (resolveGroupings (items lc) groupings !! j) as [r2|] eqn:Hr2;
      [|discriminate].
    cbn in H1, H2. injection H1 as <-. injection H2 as <-. cbn [uiMembers] in *.
    rewrite Forall_forall in Hrange.
    pose proof (Hrange r1 (list_elem_of_lookup_2 _ _ _ Hr1)) as [Hlo1 _].
    pose proof (Hrange r2 (list_elem_of_lookup_2 _ _ _ Hr2)) as [Hlo2 _].
    apply elem_of_slice in Hin1 as (k1 & Hk1 & Hl1); [|done].
    apply elem_of_slice in Hin2 as (k2 & Hk2 & Hl2); [|done].
    assert (k1 = k2) as -> by (by eapply NoDup_lookup).
    destruct (Hdisjoint i j r1 r2 Hij Hr1 Hr2); lia.
Qed.

Lemma rebuilt_groups_span_anchors_witness :
  exists presetName lc1,
    getLoadedPresetName (scenarioAdded scenarioIds).2 = Some presetName
    /\ listAfter scenarioFirstPass = Some lc1
    /\ items lc1 = scenarioKeys.
Proof.
  destruct (rebuilt_groups_span_anchors
              (scenarioEnv scenarioIds true (fun _ => scenarioIds)) initialState
              (scenarioList scenarioKeys) eq_refl
              ltac:(repeat constructor))
    as (presetName & lc1 & Hpreset & Hlist & Hitems & _).
  - intros presetName [= <-] i j r1 r2 Hij Hr1 Hr2.
    change (resolveGroupings (items (scenarioList scenarioKeys))
              (getAllPresetGroupings
                 (apiInfo (scenarioEnv scenarioIds true (fun _ => scenarioIds)))
                 "Preset" (identifiersToJs (items (scenarioList scenarioKeys)))
                 (newIds (scenarioEnv scenarioIds true (fun _ => scenarioIds)) 1)))
      with [{| grouping := scenarioRecord "peg-0"; originalIndex := 0;
               startIndex := 1; endIndex := 2 |}] in Hr1, Hr2.
    destruct i as [|i], j as [|j]; try done; cbn in Hr1, Hr2; discriminate.
  - exists presetName, lc1. split; [exact Hpreset|]. split; [exact Hlist|exact Hitems].
Defined.

(** X25. A pass never adds, removes or reorders list items and never
    changes the list node.  By outcome: a pass that does not run changes
    nothing; an early stop or a skip leaves the list alone and only sets the
    applying flag, and a skip happens only on a list that shows groups;
    after a pass that found no record or resolved none the list shows no
    group; after a rebuild it shows some. *)
Theorem pass_outcome_and_presentation env st found :
  let r := applyGroupingToList env st found in
  items <$> listAfter r = items <$> found
  /\ node <$> listAfter r = node <$> found
  /\ match outcome r with
     | NotRun => listAfter r = found /\ stateAfter r = st /\ effects r = []
     | NoItems | DuplicateIdentifiers =>
         listAfter r = found /\ stateAfter r = withApplying st
     | SignatureSkip =>
         listAfter r = found /\ stateAfter r = withApplying st
         /\ hasGroupingUi <$> found = Some true
     | NoGroupings | ZeroResolved => hasGroupingUi <$> listAfter r = Some false
     | Rebuilt => hasGroupingUi <$> listAfter r = Some true
     end.
Proof.
  destruct found as [lc|].
  2: { cbn. unfold applyGroupingToList.
       destruct (negb _); [done|]. destruct (getLoadedPresetName _); done. }
  assert (Hcreated : forall groupings,
            (length (resolveGroupings (getOrderedIdentifiers (items lc)) groupings) =? 0)
            = false ->
            hasGroupingUi
              (withGroupUi (cleanupGroupingUi lc)
                 (createAllGroupUi (items lc)
                    (resolveGroupings (getOrderedIdentifiers (items lc)) groupings)))
            = true).
  { intros groupings Hlen. apply length_eqb_zero in Hlen.
    apply createAllGroupUi_nonempty in Hlen. unfold hasGroupingUi. cbn.
    by destruct (createAllGroupUi _ _). }
  pass_branches; cbn [cleanupGroupingUi withGroupUi items node groupUi] in *;
    repeat split; try done; try congruence;
    try (cbn [fmap option_fmap option_map]; f_equal; auto; fail).
  all: try (repeat match goal with
                   | H : _ && _ = true |- _ => apply andb_true_iff in H as [H ?]
                   end; cbn; congruence).
  all: try (destruct (hasGroupingUi lc) eqn:Hui; cbn; try done;
            unfold hasGroupingUi in *; cbn; destruct (groupUi lc); done).
Qed.

End PassStructure.

(** ** Scheduling of the passes *)

Section Scheduling.

Lemma cleared_timers s :
  schedulerInvariant s ->
  match applyGroupingTimer s with
  | Some handle => clearTimeout handle (liveTimers s)
  | None => liveTimers s
  end = [].
Proof.
  intros (_ & Hlive & _). destruct (applyGroupingTimer s) as [h|].
  - destruct (liveTimers s) as [|[h' d] [|? ?]]; try discriminate.
    injection Hlive as ->. unfold clearTimeout.
    rewrite filter_cons, decide_False by (cbn; intros H; by apply H). done.
  - by destruct (liveTimers s).
Qed.

Lemma scheduleApplyGrouping_spec delay s :
  schedulerInvariant s ->
  let s' := scheduleApplyGrouping delay s in
  schedulerInvariant s'
  /\ if (delay <=? 0)%Z
     then liveTimers s' = [] /\ queuedMicrotasks s' = 1
     else liveTimers s' = [(nextHandle s, delay)]
          /\ queuedMicrotasks s' = queuedMicrotasks s.
Proof.
  intros Hinv. pose proof (cleared_timers s Hinv) as Hclear.
  destruct Hinv as (Hen & Hlive & Hq).
  cbn zeta. unfold scheduleApplyGrouping. rewrite Hen, Hclear. cbn [negb].
  destruct (delay <=? 0)%Z.
  - unfold queueApplyGrouping. cbn [schedulerEnabled applyGroupingQueued negb].
    destruct (applyGroupingQueued s) eqn:Hqd; rewrite ?Hqd in Hq;
      unfold schedulerInvariant; cbn; rewrite ?Hq; done.
  - unfold schedulerInvariant. cbn. done.
Qed.

Lemma schedulerStep_invariant s e :
  schedulerInvariant s -> schedulerInvariant (schedulerStep s e).
Proof.
  intros Hinv. destruct e as [delay| |handle]; cbn [schedulerStep].
  - by apply scheduleApplyGrouping_spec.
  - unfold runMicrotask.
    destruct (queuedMicrotasks s) as [|n] eqn:Hn; [exact Hinv|].
    destruct Hinv as (Hen & Hlive & Hq). rewrite Hn in Hq.
    unfold schedulerInvariant. cbn. destruct (applyGroupingQueued s); [|discriminate].
    split; [done|]. split; [done|]. by injection Hq.
  - pose proof (cleared_timers s Hinv) as Hclear.
    unfold fireTimer.
    case_bool_decide as Hin; [|exact Hinv].
    destruct Hinv as (Hen & Hlive & Hq).
    rewrite Hlive in Hin. destruct (applyGroupingTimer s) as [h|].
    + apply list_elem_of_singleton in Hin as ->. rewrite Hclear.
      unfold schedulerInvariant. cbn. done.
    + by apply elem_of_nil in Hin.
Qed.

Lemma scheduler_reachable events :
  schedulerInvariant (foldl schedulerStep idleScheduler events).
Proof.
  induction events as [|e events IH] using rev_ind; [done|].
  rewrite foldl_app. cbn [foldl]. by apply schedulerStep_invariant.
Qed.

(** X26. Whatever calls of [scheduleApplyGrouping], microtask runs and
    timer expiries came before, at most one timer and at most one microtask
    of the scheduler are pending, and the pending timer is the one held in
    [applyGroupingTimer].  A further call with a positive delay leaves just
    its own timer; a call with delay zero leaves no timer and one
    microtask. *)
Theorem scheduling_coalesces events delay :
  let s := foldl schedulerStep idleScheduler events in
  let s' := scheduleApplyGrouping delay s in
  length (liveTimers s) <= 1
  /\ queuedMicrotasks s <= 1
  /\ (liveTimers s).*1 = match applyGroupingTimer s with
                         | Some handle => [handle]
                         | None => []
                         end
  /\ if (delay <=? 0)%Z
     then liveTimers s' = [] /\ queuedMicrotasks s' = 1
     else liveTimers s' = [(nextHandle s, delay)]
          /\ queuedMicrotasks s' = queuedMicrotasks s.
Proof.
  intros s s'. pose proof (scheduler_reachable events) as Hinv. fold s in Hinv.
  destruct (scheduleApplyGrouping_spec delay s Hinv) as [_ Hnext].
  destruct Hinv as (_ & Hlive & Hq).
  split; [|split; [|split; [done|exact Hnext]]].
  - rewrite <- (length_fmap fst), Hlive. destruct (applyGroupingTimer s); cbn; lia.
  - rewrite Hq. destruct (applyGroupingQueued s); lia.
Qed.

End Scheduling.

(** ** The triple click *)

Section TripleClick.

Lemma three_clicks_open_menu_once (s : ClickState) (index : nat) :
  length (filter (fun m => m = true)
            (runClicks s [ItemClick index false; ItemClick index false;
                          ItemClick index false]).2) = 1.
Proof.
  assert (Hneg : (-1 =? Z.of_nat index)%Z = false) by (apply Z.eqb_neq; lia).
  destruct s as [count last pending].
  cbn -[Z.eqb Z.of_nat Nat.leb].
  destruct (Z.eqb_spec last (Z.of_nat index)) as [->|Hne].
  - destruct count as [|[|count]]; cbn -[Z.eqb Z.of_nat];
      rewrite ?Z.eqb_refl, ?Hneg; cbn -[Z.eqb Z.of_nat];
      rewrite ?Z.eqb_refl, ?Hneg; reflexivity.
  - cbn -[Z.eqb Z.of_nat]; rewrite ?Z.eqb_refl, ?Hneg; cbn -[Z.eqb Z.of_nat];
      rewrite ?Z.eqb_refl, ?Hneg; reflexivity.
Qed.

Lemma runClicks_snoc s events e :
  runClicks s (events ++ [e])
  = ((clickStep (runClicks s events).1 e).1,
     (runClicks s events).2 ++ [(clickStep (runClicks s events).1 e).2]).
Proof.
  revert s. induction events as [|e0 events IH]; intros s; cbn [app runClicks fst snd].
  - destruct (clickStep s e); reflexivity.
  - destruct (clickStep s e0) as [s1 m0]. rewrite IH.
    destruct (runClicks s1 events) as [s2 menus]. reflexivity.
Qed.

Lemma clickInvariant_step events s e :
  clickInvariant events s ->
  clickInvariant (events ++ [e]) (clickStep s e).1
  /\ ((clickStep s e).2 = true ->
      exists index pre,
        e = ItemClick index false
        /\ filter (fun e => countedClick e = true) events
           = pre ++ [ItemClick index false; ItemClick index false]).
Proof.
  intros Htr. unfold clickInvariant. rewrite filter_app.
  destruct e as [index [|]|]; cbn [clickStep onItemClick fst snd].
  - rewrite filter_cons, decide_False, filter_nil, app_nil_r by done.
    split; [done|discriminate].
  - rewrite filter_cons, decide_True, filter_nil by done.
    destruct (Z.eqb_spec (lastClickedIndex s) (Z.of_nat index)) as [Heq|Hne].
    + destruct Htr as [[Hc Hl]|[(Hc & Hp & i & pre & Hev & Hl)
                                |(Hc & Hp & i & pre & Hev & Hl)]].
      * lia.
      * assert (i = index) as -> by lia. rewrite Hc. cbn. split; [|discriminate].
        right. right. split; [done|]. split; [done|]. exists index, pre.
        rewrite Hev, <- app_assoc. done.
      * assert (i = index) as -> by lia. rewrite Hc. cbn. split; [by left|].
        intros _. by exists index, pre.
    + cbn. split; [|discriminate]. right. left. split; [done|]. split; [done|].
      by exists index, (filter (fun e => countedClick e = true) events).
  - split; [|discriminate]. unfold onClickTimer.
    destruct (clickTimerPending s) eqn:Hp; [by left|].
    destruct Htr as [?|[(_ & ? & _)|(_ & ? & _)]]; [by left|congruence..].
Qed.

Lemma runClicks_clickInvariant events :
  clickInvariant events (runClicks noClicks events).1.
Proof.
  induction events as [|e events IH] using rev_ind; [by left|].
  rewrite runClicks_snoc. cbn [fst]. by apply clickInvariant_step.
Qed.

Lemma menu_needs_three_clicks (events : list ClickEvent) (e : ClickEvent) :
  let before := runClicks noClicks events in
  (clickStep before.1 e).2 = true ->
  exists index pre,
    e = ItemClick index false
    /\ filter (fun e => countedClick e = true) events
       = pre ++ [ItemClick index false; ItemClick index false].
Proof.
  intros before. apply clickInvariant_step, runClicks_clickInvariant.
Qed.

(** What a call of [showGroupingMenu] shows. *)
Lemma showGroupingMenu_spec apiInfo toastr found marks identifier ids :
  let ordered := getOrderedIdentifiersFromList found in
  let grouped presetName :=
    exists g, g ∈ getAllPresetGroupings apiInfo presetName (identifiersToJs ordered) ids
              /\ identifier ∈ addGroupedIdentifiers ordered ∅ g in
  match showGroupingMenu apiInfo toastr found marks identifier ids with
  | NoPresetLoaded => getLoadedPresetName apiInfo = None
  | NoIdentifier => is_Some (getLoadedPresetName apiInfo) /\ identifier = ""
  | ItemAlreadyGrouped info =>
      info = toastr /\ identifier <> ""
      /\ exists presetName,
           getLoadedPresetName apiInfo = Some presetName /\ grouped presetName
  | MenuShown clearMarksItem =>
      identifier <> ""
      /\ (exists presetName,
            getLoadedPresetName apiInfo = Some presetName /\ ~ grouped presetName)
      /\ (clearMarksItem = false <-> marks = resetTempMarks)
  end.
Proof.
  cbv zeta. unfold showGroupingMenu.
  destruct (getLoadedPresetName apiInfo) as [presetName|]; [|done].
  destruct identifier as [|c rest]; cbn [nonEmpty negb]; [by eauto|].
  case_bool_decide as Hin; rewrite elem_of_getGroupedIdentifierSet in Hin.
  - split; [done|]. split; [done|]. eauto.
  - split; [done|]. split; [eauto|].
    unfold resetTempMarks.
    destruct marks as [[start|] [end_|]]; cbn; split; congruence.
Qed.

(** X27. Three clicks in a row on the same item, none of them on an action
    button and with no timer expiry between them, call [showGroupingMenu]
    exactly once, whatever the click state before.  Conversely, from the
    state after binding, an event calls it only if it is such a click and
    the two counted events before it were clicks on the same item; clicks on
    the action buttons do not count and change nothing.  The call shows the
    menu exactly when a preset is loaded, the item carries an identifier and
    no group of the preset contains it; on an item inside a group it shows
    no menu. *)
Theorem triple_click_opens_menu :
  (forall (s : ClickState) (index : nat),
     length (filter (fun m => m = true)
               (runClicks s [ItemClick index false; ItemClick index false;
                             ItemClick index false]).2) = 1)
  /\ (forall (events : list ClickEvent) (e : ClickEvent),
        (clickStep (runClicks noClicks events).1 e).2 = true ->
        exists index pre,
          e = ItemClick index false
          /\ filter (fun e => countedClick e = true) events
             = pre ++ [ItemClick index false; ItemClick index false])
  /\ (forall (s : ClickState) (index : nat), onItemClick index true s = (s, false))
  /\ (forall apiInfo toastr found marks identifier ids,
        let ordered := getOrderedIdentifiersFromList found in
        let grouped presetName :=
          exists g,
            g ∈ getAllPresetGroupings apiInfo presetName (identifiersToJs ordered) ids
            /\ identifier ∈ addGroupedIdentifiers ordered ∅ g in
        ((exists clearMarksItem,
            showGroupingMenu apiInfo toastr found marks identifier ids
            = MenuShown clearMarksItem)
         <-> exists presetName,
               getLoadedPresetName apiInfo = Some presetName
               /\ identifier <> "" /\ ~ grouped presetName)
        /\ (forall presetName,
              getLoadedPresetName apiInfo = Some presetName ->
              identifier <> "" -> grouped presetName ->
              showGroupingMenu apiInfo toastr found marks identifier ids
              = ItemAlreadyGrouped toastr)).
Proof.
  split; [apply three_clicks_open_menu_once|].
  split; [apply menu_needs_three_clicks|]. split; [reflexivity|].
  intros apiInfo toastr found marks identifier ids ordered grouped.
  pose proof (showGroupingMenu_spec apiInfo toastr found marks identifier ids) as Hspec.
  cbv zeta in Hspec. fold ordered in Hspec. split.
  - split.
    + intros [c Hc]. rewrite Hc in Hspec.
      destruct Hspec as (Hid & (presetName & Hp & Hg) & _). by exists presetName.
    + intros (presetName & Hp & Hid & Hg).
      destruct (showGroupingMenu apiInfo toastr found marks identifier ids)
        as [| |info|c]; [| | |by exists c].
      * congruence.
      * by destruct Hspec as [_ ->].
      * destruct Hspec as (_ & _ & presetName' & Hp' & Hg').
        rewrite Hp in Hp'. injection Hp' as <-. done.
  - intros presetName Hp Hid Hg.
    destruct (showGroupingMenu apiInfo toastr found marks identifier ids)
      as [| |info|c].
    + congruence.
    + by destruct Hspec as [_ ->].
    + by destruct Hspec as [-> _].
    + destruct Hspec as (_ & (presetName' & Hp' & Hg') & _).
      rewrite Hp in Hp'. injection Hp' as <-. done.
Qed.

End TripleClick.

(** ** The switch of a whole group *)

Section ToggleAll.

Lemma bulkToggleStep_spec enabled host changed identifier :
  let res := bulkToggleStep enabled (host, changed) identifier in
  (forall id, promptOrder res.1 !! id
              = if decide (id = identifier)
                then (fun _ => enabled) <$> promptOrder host !! id
                else promptOrder host !! id)
  /\ res.2 = changed || bool_decide (promptOrder host !! identifier = Some (negb enabled))
  /\ promptManagerAvailable res.1 = promptManagerAvailable host
  /\ activeCharacter res.1 = activeCharacter host
  /\ renders res.1 = renders host
  /\ serviceSaves res.1 = serviceSaves host.
Proof.
  cbn zeta. unfold bulkToggleStep. cbn [fst snd].
  destruct (promptOrder host !! identifier) as [current|] eqn:Hcur.
  - destruct (Bool.eqb current enabled) eqn:Heq.
    + apply Bool.eqb_prop in Heq. subst current. cbn [fst snd].
      rewrite bool_decide_false by (by destruct enabled). rewrite orb_false_r.
      repeat split; try done.
      intros id. destruct (decide (id = identifier)) as [->|]; [by rewrite Hcur|done].
    + apply Bool.eqb_false_iff in Heq. cbn [fst snd promptOrder promptManagerAvailable
        activeCharacter renders serviceSaves].
      rewrite bool_decide_true by (f_equal; by destruct current, enabled).
      rewrite orb_true_r. repeat split; try done.
      intros id. destruct (decide (id = identifier)) as [->|Hne].
      * by rewrite lookup_insert_eq, Hcur.
      * by rewrite lookup_insert_ne.
  - cbn [fst snd]. rewrite bool_decide_false by done. rewrite orb_false_r.
    repeat split; try done.
    intros id. destruct (decide (id = identifier)) as [->|]; [by rewrite Hcur|done].
Qed.

Lemma bulkToggle_fold enabled identifiers :
  forall host changed,
    let res := foldl (bulkToggleStep enabled) (host, changed) identifiers in
    (forall id, promptOrder res.1 !! id
                = if decide (id ∈ identifiers)
                  then (fun _ => enabled) <$> promptOrder host !! id
                  else promptOrder host !! id)
    /\ res.2 = changed
               || existsb (fun id => bool_decide
                                       (promptOrder host !! id = Some (negb enabled)))
                          identifiers
    /\ promptManagerAvailable res.1 = promptManagerAvailable host
    /\ activeCharacter res.1 = activeCharacter host
    /\ renders res.1 = renders host
    /\ serviceSaves res.1 = serviceSaves host.
Proof.
  induction identifiers as [|id0 ids IH]; intros host changed; cbn [foldl existsb].
  - rewrite orb_false_r. split; [|done].
    intros id. by rewrite decide_False by apply not_elem_of_nil.
  - destruct (bulkToggleStep_spec enabled host changed id0)
      as (Hl0 & Hc0 & Ha0 & Hb0 & Hr0 & Hs0).
    destruct (IH (bulkToggleStep enabled (host, changed) id0).1
                 (bulkToggleStep enabled (host, changed) id0).2)
      as (Hl & Hc & Ha & Hb & Hr & Hs).
    rewrite <- surjective_pairing in Hl, Hc, Ha, Hb, Hr, Hs. cbn zeta in *.
    rewrite Ha, Hb, Hr, Hs, Hc, Hc0.
    split; [|split; [|done]].
    + intros id. rewrite Hl, Hl0.
      destruct (decide (id = id0)) as [->|Hne].
      * destruct (decide (id0 ∈ id0 :: ids)) as [_|Hn];
          [|destruct Hn; apply list_elem_of_here].
        destruct (decide (id0 ∈ ids)); [|done].
        by destruct (promptOrder host !! id0).
      * destruct (decide (id ∈ ids)) as [Hin|Hin],
                 (decide (id ∈ id0 :: ids)) as [Hin'|Hin']; try done.
        -- destruct Hin'. rewrite elem_of_cons. tauto.
        -- apply elem_of_cons in Hin'. tauto.
    + rewrite <- orb_assoc. f_equal.
      case_bool_decide as Hb0'; [done|]. cbn [orb].
      apply existsb_ext_elem. intros id Hin. rewrite Hl0.
      destruct (decide (id = id0)) as [->|]; [|done].
      rewrite (bool_decide_false _ Hb0').
      apply bool_decide_eq_false.
      destruct (promptOrder host !! id0); cbn; [|done].
      intros [= Heq]. by destruct enabled.
Qed.

(** X29. With a prompt manager, an active character and at least one
    identifier, the bulk toggle reports that it handled the request; it sets
    every listed entry that exists to the requested value and no other;
    [render] and [saveServiceSettings] are called once if some listed entry
    changed and not at all otherwise; the same request again changes
    nothing. *)
Theorem bulk_toggle_sets_listed_entries enabled identifiers host :
  identifiers <> [] ->
  promptManagerAvailable host = true ->
  activeCharacter host = true ->
  let res := tryBulkToggleWithPromptManager enabled identifiers host in
  let changed :=
    existsb (fun id => bool_decide (promptOrder host !! id = Some (negb enabled)))
            identifiers in
  res.1 = true
  /\ (forall id, promptOrder res.2 !! id
                 = if decide (id ∈ identifiers)
                   then (fun _ => enabled) <$> promptOrder host !! id
                   else promptOrder host !! id)
  /\ renders res.2 = (if changed then S (renders host) else renders host)
  /\ serviceSaves res.2 = (if changed then S (serviceSaves host) else serviceSaves host)
  /\ tryBulkToggleWithPromptManager enabled identifiers res.2 = (true, res.2).
Proof.
  intros Hne Hav Hact res changed.
  assert (Hgen : forall h, promptManagerAvailable h = true -> activeCharacter h = true ->
            let r := tryBulkToggleWithPromptManager enabled identifiers h in
            let c := existsb (fun id => bool_decide
                                (promptOrder h !! id = Some (negb enabled))) identifiers in
            r.1 = true
            /\ (forall id, promptOrder r.2 !! id
                           = if decide (id ∈ identifiers)
                             then (fun _ => enabled) <$> promptOrder h !! id
                             else promptOrder h !! id)
            /\ renders r.2 = (if c then S (renders h) else renders h)
            /\ serviceSaves r.2 = (if c then S (serviceSaves h) else serviceSaves h)
            /\ promptManagerAvailable r.2 = true /\ activeCharacter r.2 = true
            /\ (c = false -> r = (true, h))).
  { intros h Hav' Hact'. cbn zeta. unfold tryBulkToggleWithPromptManager.
    destruct identifiers as [|id0 ids] eqn:Hids; [done|]. rewrite <- Hids.
    rewrite Hav', Hact'. cbn [negb].
    destruct (bulkToggle_fold enabled identifiers h false)
      as (Hl & Hc & Ha & Hb & Hr & Hs). cbn zeta in *.
    destruct (foldl (bulkToggleStep enabled) (h, false) identifiers) as [h1 c1] eqn:Hfold.
    cbn [fst snd orb] in *. rewrite <- Hc.
    destruct c1; cbn [fst snd promptOrder renders serviceSaves promptManagerAvailable
                        activeCharacter].
    - rewrite Hr, Hs, Ha, Hb. repeat split; try done.
    - rewrite Hr, Hs, Ha, Hb. repeat split; try done.
      intros _. f_equal.
      revert Hfold. clear. revert h.
      induction identifiers as [|id ids IH]; intros h; cbn [foldl].
      + by intros [= ->].
      + unfold bulkToggleStep at 2. cbn [fst snd].
        destruct (promptOrder h !! id) as [cur|]; [|apply IH].
        destruct (Bool.eqb cur enabled); [apply IH|].
        intros Hfold.
        destruct (bulkToggle_fold enabled ids
                    {| promptManagerAvailable := promptManagerAvailable h;
                       activeCharacter := activeCharacter h;
                       promptOrder := <[id:=enabled]> (promptOrder h);
                       tokenCounts := (fun counts => <[id:=None]> counts)
                                        <$> tokenCounts h;
                       renders := renders h;
                       serviceSaves := serviceSaves h |} true) as (_ & Hc & _).
        cbn zeta in Hc. rewrite Hfold in Hc. discriminate. }
  destruct (Hgen host Hav Hact) as (Hres & Hl & Hr & Hs & Hav1 & Hact1 & _).
  fold res changed in Hres, Hl, Hr, Hs, Hav1, Hact1.
  repeat (split; [done|]).
  destruct (Hgen res.2 Hav1 Hact1) as (_ & _ & _ & _ & _ & _ & Hsame).
  apply Hsame. apply not_true_is_false. intros Hex.
  apply existsb_exists in Hex as (id & Hin & Hdec).
  apply bool_decide_eq_true in Hdec. rewrite Hl in Hdec.
  rewrite decide_True in Hdec by (by apply list_elem_of_In).
  destruct (promptOrder host !! id); [|discriminate].
  cbn in Hdec. injection Hdec as Hdec. by destruct enabled.
Qed.

Lemma bulk_toggle_sets_listed_entries_witness :
  let res := tryBulkToggleWithPromptManager true ["a"; "b"; "zz"] sampleToggleHost in
  res.1 = true
  /\ renders res.2 = 1
  /\ tryBulkToggleWithPromptManager true ["a"; "b"; "zz"] res.2 = (true, res.2).
Proof.
  pose proof (bulk_toggle_sets_listed_entries true ["a"; "b"; "zz"] sampleToggleHost
                ltac:(discriminate) eq_refl eq_refl) as H.
  split; [exact (proj1 H)|].
  split; [exact (proj1 (proj2 (proj2 H)))|exact (proj2 (proj2 (proj2 (proj2 H))))].
Defined.

Lemma filter_true_length (toggles : list bool) :
  (length (filter (fun b => b = true) toggles) = 0 <-> Forall (fun b => b = false) toggles)
  /\ (length (filter (fun b => b = true) toggles) = length toggles
      <-> Forall (fun b => b = true) toggles).
Proof.
  split.
  - induction toggles as [|b l IH]; [split; [constructor|done]|].
    rewrite filter_cons. destruct b.
    + rewrite decide_True by done. cbn [length].
      split; [lia|]. intros H. inversion H. discriminate.
    + rewrite decide_False by done. rewrite IH.
      split; [by constructor|by inversion 1].
  - apply filter_length_eq.
Qed.

(** X30. The state of the group switch, for a group with items: off
    exactly when no toggle of the group is enabled (a group without any
    toggle included), on exactly when there is a toggle and all are enabled,
    mixed exactly when some are enabled and some are not; a click asks to
    enable unless the state is on. *)
Theorem button_state_by_toggles (groupItems : list GroupItem) :
  groupItems <> [] ->
  let toggles := omap itemToggle groupItems in
  (updateButtonState groupItems = Some StateOff <-> Forall (fun b => b = false) toggles)
  /\ (updateButtonState groupItems = Some StateOn <->
      toggles <> [] /\ Forall (fun b => b = true) toggles)
  /\ (updateButtonState groupItems = Some StateMixed <->
      true ∈ toggles /\ false ∈ toggles)
  /\ (forall state, updateButtonState groupItems = Some state ->
        shouldEnable state = true <-> false ∈ toggles \/ toggles = []).
Proof.
  intros Hne toggles.
  assert (Hstate : updateButtonState groupItems
                   = if length (filter (fun b => b = true) toggles) =? 0
                     then Some StateOff
                     else if length (filter (fun b => b = true) toggles)
                             =? length toggles
                          then Some StateOn else Some StateMixed).
  { unfold updateButtonState. by destruct groupItems. }
  rewrite Hstate. clear Hstate.
  destruct (filter_true_length toggles) as [Hoff Hon].
  assert (Hmix : ~ Forall (fun b => b = false) toggles ->
                 ~ Forall (fun b => b = true) toggles ->
                 true ∈ toggles /\ false ∈ toggles).
  { intros H1 H2. apply not_Forall_Exists in H1; [|apply _].
    apply not_Forall_Exists in H2; [|apply _].
    apply Exists_exists in H1 as ([] & Hin1 & Hb1); [|by destruct Hb1].
    apply Exists_exists in H2 as ([] & Hin2 & Hb2); [by destruct Hb2|]. done. }
  assert (Hboth : true ∈ toggles -> false ∈ toggles ->
                  ~ Forall (fun b => b = false) toggles
                  /\ ~ Forall (fun b => b = true) toggles).
  { intros Ht Hf. rewrite !Forall_forall. split; intros Hall.
    - by specialize (Hall true Ht).
    - by specialize (Hall false Hf). }
  destruct (Nat.eqb_spec (length (filter (fun b => b = true) toggles)) 0) as [H0|H0].
  - pose proof (proj1 Hoff H0) as Hallf.
    assert (Hnot : true ∉ toggles).
    { intros Hin. rewrite Forall_forall in Hallf. by specialize (Hallf true Hin). }
    split; [done|]. split; [|split].
    + split; [discriminate|]. intros [Hnil Hall]. destruct toggles as [|b l]; [done|].
      inversion Hallf; inversion Hall; congruence.
    + split; [discriminate|]. intros [? _]. done.
    + intros state [= <-]. cbn. split; [|done]. intros _.
      destruct toggles as [|[] l]; [by right| |left; apply list_elem_of_here].
      destruct Hnot. apply list_elem_of_here.
  - assert (Hnf : ~ Forall (fun b => b = false) toggles) by (rewrite <- Hoff; done).
    destruct (Nat.eqb_spec (length (filter (fun b => b = true) toggles))
                (length toggles)) as [H1|H1].
    + pose proof (proj1 Hon H1) as Hallt.
      assert (Hnot : false ∉ toggles).
      { intros Hin. rewrite Forall_forall in Hallt. by specialize (Hallt false Hin). }
      split; [split; [discriminate|done]|]. split; [|split].
      * split; [|done]. intros _. split; [|done]. intros ->. by destruct Hnf.
      * split; [discriminate|]. intros [_ ?]. done.
      * intros state [= <-]. cbn. split; [discriminate|].
        intros [?| ->]; [done|]. by destruct Hnf.
    + assert (Hnt : ~ Forall (fun b => b = true) toggles) by (rewrite <- Hon; done).
      destruct (Hmix Hnf Hnt) as [Ht Hf].
      split; [split; [discriminate|done]|]. split; [|split].
      * split; [discriminate|]. intros [_ ?]. done.
      * done.
      * intros state [= <-]. cbn. split; [by left|done].
Qed.

Lemma button_state_by_toggles_witness :
  updateButtonState sampleGroupItems = Some StateMixed.
Proof.
  apply (proj1 (proj2 (proj2 (button_state_by_toggles sampleGroupItems
                                ltac:(discriminate))))).
  change (omap itemToggle sampleGroupItems) with [true; false].
  rewrite !elem_of_cons. tauto.
Defined.

End ToggleAll.
